(** * tinydecred: script tokenizer, classifier, signatures, signature hash,
      key derivation and account bookkeeping

    A shallow embedding of [src/pydecred/txscript.py] and [src/accounts.py].
    Python integers are [Z], byte strings ([ByteArray]) are lists of [Z]
    with every element in [0, 256), offsets and lengths that the code only
    ever counts upward from zero are [nat].  A raised exception is the
    [Raise] constructor of [result]. *)

From Stdlib Require Import ZArith List Bool Lia String Sorting.Sorted
  Sorting.Permutation.
Import ListNotations.
Open Scope Z_scope.

(** ** Exceptions *)

Inductive result (A : Type) : Type :=
| Ok (a : A)
| Raise (msg : string).
Arguments Ok {A} a.
Arguments Raise {A} msg.

Definition bind {A B} (r : result A) (k : A -> result B) : result B :=
  match r with
  | Ok a => k a
  | Raise m => Raise m
  end.

Notation "x <- r ;; k" := (bind r (fun x => k))
  (at level 61, r at next level, right associativity).

Definition bytes := list Z.

Definition is_byte (b : Z) : Prop := 0 <= b < 256.

(** ** Byte strings *)

Module BA.

(** Big-endian value of a byte string, [int.from_bytes(b, 'big')]. *)
Fixpoint int_acc (acc : Z) (b : bytes) : Z :=
  match b with
  | [] => acc
  | x :: r => int_acc (acc * 256 + x) r
  end.

Definition int (b : bytes) : Z := int_acc 0 b.

(** [b.unLittle().int()]: the value of a little-endian byte string. *)
Definition unLittle_int (b : bytes) : Z := int (rev b).

(** Python slices [b[i:]], [b[:j]] and [b[i:j]] for [0 <= i <= j]. *)
Definition from (i : nat) (b : bytes) : bytes := skipn i b.
Definition upto (j : nat) (b : bytes) : bytes := firstn j b.
Definition slice (i j : nat) (b : bytes) : bytes := firstn (j - i) (skipn i b).

(** [b[i]] for an index the caller has checked to be in range. *)
Definition at_ (i : nat) (b : bytes) : Z := nth i b 0.

(** Truth value of a byte string or [None] in [if x:]. *)
Definition truthy (o : option bytes) : bool :=
  match o with
  | Some (_ :: _) => true
  | _ => false
  end.

(** Modelled from the spec: the [ByteArray] class is not under src/.
    [ByteArray(v)] of an integer is its shortest big-endian byte string,
    a single zero byte for 0 (the byte layouts of section 6 of the
    specification are big-endian unless marked little-endian). *)
Fixpoint be_digits (fuel : nat) (v : Z) (acc : bytes) : bytes :=
  match fuel with
  | O => acc
  | S f => if v <? 256 then v :: acc
           else be_digits f (v / 256) (v mod 256 :: acc)
  end.

Definition of_int (v : Z) : bytes := be_digits (Z.to_nat (Z.log2 v) + 1) v [].

(** Modelled from the spec: [ByteArray(v, length=n)], the [n]-byte
    big-endian field holding [v]; the signature-hash layout commits
    amounts "as uint64", so a cleared amount of -1 wraps to [n] bytes of
    0xff. *)
Fixpoint be_fixed (n : nat) (v : Z) : bytes :=
  match n with
  | O => []
  | S m => be_fixed m (v / 256) ++ [v mod 256]
  end.

Definition of_int_len (v : Z) (n : nat) : bytes := be_fixed n v.

Definition littleEndian (b : bytes) : bytes := rev b.

Definition zeros (n : nat) : bytes := repeat 0 n.

(** [buf[off] = src]: overwrite [buf] from offset [off] with [src]. *)
Definition write (off : nat) (src buf : bytes) : bytes :=
  firstn off buf ++ src ++ skipn (off + List.length src) buf.

End BA.

(** ** Opcodes *)

Module opcode.

(** Modelled from the spec: the opcode table (module [crypto.opcode]) is
    not under src/.  Values are those of the standard table, which the
    script literals of the repository's tests spell out. *)
Definition OP_0 := 0.
Definition OP_DATA_1 := 1.
Definition OP_DATA_20 := 20.
Definition OP_DATA_33 := 33.
Definition OP_DATA_65 := 65.
Definition OP_DATA_75 := 75.
Definition OP_PUSHDATA1 := 76.
Definition OP_PUSHDATA2 := 77.
Definition OP_PUSHDATA4 := 78.
Definition OP_1NEGATE := 79.
Definition OP_1 := 81.
Definition OP_16 := 96.
Definition OP_DUP := 118.
Definition OP_EQUAL := 135.
Definition OP_EQUALVERIFY := 136.
Definition OP_HASH160 := 169.
Definition OP_CHECKSIG := 172.
Definition OP_CHECKMULTISIG := 174.
Definition OP_SSTX := 186.
Definition OP_SSGEN := 187.
Definition OP_SSRTX := 188.
Definition OP_SSTXCHANGE := 189.

Record t := { value : Z; length : Z }.

(** Modelled from the spec: an entry's [length] is 1 for an opcode
    without payload, [n + 1] for OP_DATA_n, and -1, -2, -4 for
    OP_PUSHDATA1, 2, 4 (section 4.4). *)
Definition opcodeArray (b : Z) : t :=
  {| value := b;
     length := if (OP_DATA_1 <=? b) && (b <=? OP_DATA_75) then b + 1
               else if b =? OP_PUSHDATA1 then -1
               else if b =? OP_PUSHDATA2 then -2
               else if b =? OP_PUSHDATA4 then -4
               else 1 |}.

End opcode.

(** ** ScriptTokenizer *)

Module Tokenizer.

Record ScriptTokenizer := {
  script : bytes;
  version : Z;
  offset : nat;
  op : option opcode.t;
  d : option bytes;
  err : option string
}.

Definition init (version : Z) (script : bytes) : ScriptTokenizer :=
  {| script := script; version := version; offset := 0%nat;
     op := None; d := None; err := None |}.

Definition is_some {A} (o : option A) : bool :=
  match o with Some _ => true | None => false end.

Definition done (t : ScriptTokenizer) : bool :=
  is_some (err t) || (List.length (script t) <=? offset t)%nat.

Definition set_err (t : ScriptTokenizer) (m : string) : ScriptTokenizer :=
  {| script := script t; version := version t; offset := offset t;
     op := op t; d := d t; err := Some m |}.

Definition advance (t : ScriptTokenizer) (n : nat) (o : opcode.t)
    (data : bytes) : ScriptTokenizer :=
  {| script := script t; version := version t; offset := (offset t + n)%nat;
     op := Some o; d := Some data; err := err t |}.

(** [next]: the returned boolean together with the tokenizer after the
    call; [Raise] is the final [raise Exception("unreachable")]. *)
Definition next (t : ScriptTokenizer) : result (bool * ScriptTokenizer) :=
  if done t then Ok (false, t)
  else
    let o := opcode.opcodeArray (BA.at_ (offset t) (script t)) in
    let len := opcode.length o in
    if len =? 1 then
      Ok (true, advance t 1 o [])
    else if 1 <? len then
      let s := BA.from (offset t) (script t) in
      if Z.of_nat (List.length s) <? len then
        Ok (false, set_err t "opcode requires more bytes than remain")
      else
        Ok (true, advance t (Z.to_nat len) o (BA.slice 1 (Z.to_nat len) s))
    else if len <? 0 then
      let s := BA.from (offset t + 1) (script t) in
      if Z.of_nat (List.length s) <? - len then
        Ok (false, set_err t "opcode requires more bytes than remain")
      else
        let dataLen :=
          if len =? -1 then Some (BA.at_ 0 s)
          else if len =? -2 then Some (BA.unLittle_int (BA.upto 2 s))
          else if len =? -4 then Some (BA.unLittle_int (BA.upto 4 s))
          else None in
        match dataLen with
        | None => Ok (false, set_err t "invalid opcode length")
        | Some dataLen =>
            let s' := BA.from (Z.to_nat (- len)) s in
            if (Z.of_nat (List.length s') <? dataLen) || (dataLen <? 0) then
              Ok (false, set_err t "opcode pushes more bytes than remain")
            else
              Ok (false,
                  advance t (Z.to_nat (1 - len + dataLen)) o
                    (BA.upto (Z.to_nat dataLen) s'))
        end
    else Raise "unreachable".

Definition opcode_ (t : ScriptTokenizer) : option Z :=
  option_map opcode.value (op t).
Definition data (t : ScriptTokenizer) : option bytes := d t.
Definition byteIndex (t : ScriptTokenizer) : nat := offset t.

(** A token as the caller of [next] sees it after a true return: the
    opcode, its data, the byte index after it, and the number of script
    bytes it spans. *)
Record token := {
  tok_op : option Z;
  tok_data : option bytes;
  tok_index : nat;
  tok_len : nat
}.

(** [while tokenizer.next(): <record the token>], with the fuel standing
    for the number of iterations still allowed. *)
Fixpoint run (fuel : nat) (t : ScriptTokenizer) (acc : list token)
    : option (result (ScriptTokenizer * list token)) :=
  match fuel with
  | O => None
  | S f =>
      match next t with
      | Raise m => Some (Raise m)
      | Ok (false, t') => Some (Ok (t', acc))
      | Ok (true, t') =>
          run f t'
            (acc ++ [{| tok_op := opcode_ t'; tok_data := data t';
                        tok_index := byteIndex t';
                        tok_len := (offset t' - offset t)%nat |}])
      end
  end.

Definition tokenize (version : Z) (s : bytes)
    : option (result (ScriptTokenizer * list token)) :=
  run (S (List.length s)) (init version s) [].

Definition sum_lengths (l : list token) : nat :=
  fold_right (fun k n => (tok_len k + n)%nat) 0%nat l.

(** [checkScriptParses]: the error left in the tokenizer after the loop. *)
Definition checkScriptParses (version : Z) (s : bytes)
    : option (result (option string)) :=
  match tokenize version s with
  | Some (Ok (t, _)) => Some (Ok (err t))
  | Some (Raise m) => Some (Raise m)
  | None => None
  end.

(** *** Properties of [next] *)

Lemma opcode_length_cases (b : Z) :
  let l := opcode.length (opcode.opcodeArray b) in
  l = 1 \/ 2 <= l \/ l = -1 \/ l = -2 \/ l = -4.
Proof.
  unfold opcode.opcodeArray, opcode.OP_DATA_1, opcode.OP_DATA_75; simpl.
  destruct ((1 <=? b) && (b <=? 75)) eqn:E.
  - apply andb_true_iff in E as [E1 E2].
    apply Z.leb_le in E1. right; left; lia.
  - destruct (b =? opcode.OP_PUSHDATA1); [tauto|].
    destruct (b =? opcode.OP_PUSHDATA2); [tauto|].
    destruct (b =? opcode.OP_PUSHDATA4); tauto.
Qed.

(** The state a tokenizer is in between two calls of the loop: no error,
    the offset within the script, and the last parsed opcode (if any) one
    that [next] answered with [True]. *)
Definition live (s : bytes) (t : ScriptTokenizer) : Prop :=
  script t = s /\ (offset t <= List.length s)%nat /\ err t = None /\
  (forall o, op t = Some o -> 0 < opcode.length o).

Ltac split_if :=
  match goal with
  | |- context [if ?c then _ else _] => destruct c eqn:?
  | H : context [if ?c then _ else _] |- _ => destruct c eqn:?
  end.

Lemma next_never_raises (t : ScriptTokenizer) :
  exists b t', next t = Ok (b, t').
Proof.
  unfold next.
  destruct (done t); [eauto|].
  pose proof (opcode_length_cases (BA.at_ (offset t) (script t))) as C.
  cbv zeta in C.
  set (l := opcode.length _) in *.
  destruct (l =? 1) eqn:E1; [eauto|].
  destruct (1 <? l) eqn:E2; [split_if; eauto|].
  destruct (l <? 0) eqn:E3.
  - split_if; [eauto|].
    destruct (l =? -1); [split_if; eauto|].
    destruct (l =? -2); [split_if; eauto|].
    destruct (l =? -4); [split_if; eauto|eauto].
  - apply Z.eqb_neq in E1. apply Z.ltb_ge in E2, E3. lia.
Qed.

Lemma next_true (s : bytes) (t t' : ScriptTokenizer) :
  live s t -> next t = Ok (true, t') ->
  live s t' /\ (offset t < offset t')%nat.
Proof.
  intros (Hs & Ho & He & Hop) H. unfold next in H.
  destruct (done t) eqn:D; [discriminate|].
  unfold done in D. apply orb_false_iff in D as [_ D].
  apply Nat.leb_gt in D. subst s.
  remember (opcode.opcodeArray _) as o eqn:Eo. clear Eo.
  destruct (opcode.length o =? 1) eqn:E1.
  { inversion H; subst t'; clear H. apply Z.eqb_eq in E1.
    split; [|simpl; lia].
    unfold live; simpl. split; [reflexivity|]. split; [lia|].
    split; [assumption|]. intros o' Ho'. inversion Ho'; subst. lia. }
  destruct (1 <? opcode.length o) eqn:E2.
  { apply Z.ltb_lt in E2.
    destruct (Z.of_nat _ <? opcode.length o) eqn:E4; [discriminate|].
    inversion H; subst t'; clear H. apply Z.ltb_ge in E4.
    unfold BA.from in E4. rewrite length_skipn in E4.
    unfold live, advance; cbn [script offset err op].
    split; [|lia].
    split; [reflexivity|]. split; [lia|].
    split; [assumption|]. intros o' Ho'. inversion Ho'; subst. lia. }
  destruct (opcode.length o <? 0); [|discriminate].
  repeat (split_if; try discriminate).
Qed.

(** A false return leaves the tokenizer at the end of the script, or with
    an error, or (the push-data case) with the token parsed and the
    offset moved past it. *)
Lemma next_false (s : bytes) (t t' : ScriptTokenizer) :
  live s t -> next t = Ok (false, t') ->
  (t' = t /\ offset t = List.length s) \/
  (exists m, err t' = Some m) \/
  (exists o, op t' = Some o /\ opcode.length o < 0).
Proof.
  intros (Hs & Ho & He & Hop) H. unfold next in H. subst s.
  destruct (done t) eqn:D.
  { inversion H; subst t'. left. split; [reflexivity|].
    unfold done in D. rewrite He in D. simpl in D.
    apply Nat.leb_le in D. lia. }
  remember (opcode.opcodeArray _) as o eqn:Eo. clear Eo.
  destruct (opcode.length o =? 1); [discriminate|].
  destruct (1 <? opcode.length o).
  { split_if; [|discriminate]. inversion H; subst t'.
    right; left. simpl. eauto. }
  destruct (opcode.length o <? 0) eqn:E3; [|discriminate].
  apply Z.ltb_lt in E3.
  repeat (split_if; try discriminate);
    inversion H; subst t'; simpl;
    solve [ right; left; eauto | right; right; eauto ].
Qed.

Lemma sum_lengths_app (a b : list token) :
  sum_lengths (a ++ b) = (sum_lengths a + sum_lengths b)%nat.
Proof.
  unfold sum_lengths. induction a as [|x a IH]; simpl; [reflexivity|].
  rewrite IH. lia.
Qed.

Lemma run_spec (s : bytes) :
  forall fuel t acc,
    live s t -> (List.length s - offset t < fuel)%nat ->
    sum_lengths acc = offset t ->
    exists t' toks,
      run fuel t acc = Some (Ok (t', toks)) /\
      (err t' = None ->
       (forall o, op t' = Some o -> 0 < opcode.length o) ->
       offset t' = List.length s /\ sum_lengths toks = List.length s).
Proof.
  induction fuel as [|f IH]; intros t acc L F S; [lia|].
  simpl. destruct (next_never_raises t) as (b & t' & N). rewrite N.
  destruct b.
  - destruct (next_true _ _ _ L N) as [L' Hlt].
    apply IH; [assumption | destruct L' as (_ & ? & _); lia |].
    rewrite sum_lengths_app. simpl. lia.
  - exists t', acc. split; [reflexivity|]. intros E P.
    destruct (next_false _ _ _ L N) as [[-> Hend] | [[m Hm] | [o [Ho Hneg]]]].
    + split; congruence.
    + congruence.
    + specialize (P _ Ho). lia.
Qed.

(** The loop over [next] always ends, and never in an exception. *)
Lemma tokenize_total (v : Z) (s : bytes) :
  exists t toks, tokenize v s = Some (Ok (t, toks)).
Proof.
  destruct (run_spec s (S (List.length s)) (init v s) []) as (t & toks & H & _).
  - unfold live, init; simpl. split; [reflexivity|]. split; [lia|].
    split; [reflexivity|]. discriminate.
  - simpl. lia.
  - reflexivity.
  - eauto.
Qed.

(** When the loop ends without an error and the last opcode parsed is
    not a push-data opcode, the whole script has been tokenized. *)
Lemma tokenize_covers_script (v : Z) (s : bytes) t toks :
  tokenize v s = Some (Ok (t, toks)) ->
  err t = None ->
  (forall o, op t = Some o -> 0 < opcode.length o) ->
  byteIndex t = List.length s /\ sum_lengths toks = List.length s.
Proof.
  intros H E P.
  destruct (run_spec s (S (List.length s)) (init v s) []) as (t' & toks' & H' & K).
  - unfold live, init; simpl. split; [reflexivity|]. split; [lia|].
    split; [reflexivity|]. discriminate.
  - simpl. lia.
  - reflexivity.
  - unfold tokenize in H. rewrite H' in H. inversion H; subst. auto.
Qed.

(** A call of [next] positioned at a push-data opcode never returns
    [True], whether the push parses or not. *)
Lemma next_at_pushdata_is_false (t : ScriptTokenizer) :
  opcode.length (opcode.opcodeArray (BA.at_ (offset t) (script t))) < 0 ->
  exists t', next t = Ok (false, t').
Proof.
  intros H. unfold next.
  destruct (done t); [eauto|].
  remember (opcode.opcodeArray _) as o eqn:Eo. clear Eo.
  destruct (opcode.length o =? 1) eqn:E1; [apply Z.eqb_eq in E1; lia|].
  destruct (1 <? opcode.length o) eqn:E2; [apply Z.ltb_lt in E2; lia|].
  destruct (opcode.length o <? 0) eqn:E3; [|apply Z.ltb_ge in E3; lia].
  repeat split_if; eauto.
Qed.

(** The "pay-to-pubkey-hash" and "OP_PUSHDATA1" rows of the table in
    [test_script_tokenizer]: opcode and byte index of each token the loop
    delivers, then the final byte index and error. *)
Definition outline (s : bytes)
    : option (list (option Z * nat) * nat * option string) :=
  match tokenize 0 s with
  | Some (Ok (t, toks)) =>
      Some (map (fun k => (tok_op k, tok_index k)) toks, byteIndex t, err t)
  | _ => None
  end.

Example tokenizer_p2pkh_row :
  outline ([opcode.OP_DUP; opcode.OP_HASH160; opcode.OP_DATA_20] ++
           repeat 1 20 ++ [opcode.OP_EQUAL; opcode.OP_CHECKSIG]) =
  Some ([(Some 118, 1%nat); (Some 169, 2%nat); (Some 20, 23%nat);
         (Some 135, 24%nat); (Some 172, 25%nat)], 25%nat, None).
Proof. reflexivity. Qed.

Example tokenizer_short_data_row :
  outline ([opcode.OP_DUP; opcode.OP_HASH160; opcode.OP_DATA_20] ++
           repeat 1 17 ++ [opcode.OP_EQUAL; opcode.OP_CHECKSIG]) =
  Some ([(Some 118, 1%nat); (Some 169, 2%nat)], 2%nat,
        Some "opcode requires more bytes than remain"%string).
Proof. reflexivity. Qed.

Example tokenizer_pushdata1_row :
  outline ([opcode.OP_PUSHDATA1; 76] ++ repeat 1 76) = Some ([], 78%nat, None).
Proof. reflexivity. Qed.

(** C1. A script that tokenizes without a parse error is claimed to be
    covered by the tokens of the loop over [next], with [byteIndex] at
    the script length.  On the script OP_PUSHDATA1 <1 byte> OP_DUP the
    loop ends after the push-data opcode, whose successful parse returns
    [False]: no error is recorded, no token was delivered, and
    [byteIndex] is 3 of 4 bytes. *)
Theorem pushdata_return_false_ends_loop :
  exists t,
    tokenize 0 [opcode.OP_PUSHDATA1; 1; 170; opcode.OP_DUP] = Some (Ok (t, [])) /\
    err t = None /\
    byteIndex t = 3%nat /\
    byteIndex t <> List.length [opcode.OP_PUSHDATA1; 1; 170; opcode.OP_DUP] /\
    sum_lengths [] <> List.length [opcode.OP_PUSHDATA1; 1; 170; opcode.OP_DUP].
Proof.
  eexists. split; [vm_compute; reflexivity|].
  simpl. repeat split; discriminate.
Qed.

End Tokenizer.

(** ** ScriptClassifier *)

Module Classifier.

Definition NonStandardTy := 0.
Definition PubKeyTy := 1.
Definition PubKeyHashTy := 2.
Definition ScriptHashTy := 3.
Definition MultiSigTy := 4.
Definition NullDataTy := 5.
Definition StakeSubmissionTy := 6.
Definition StakeGenTy := 7.
Definition StakeRevocationTy := 8.
Definition StakeSubChangeTy := 9.

Definition len (b : bytes) : Z := Z.of_nat (List.length b).

Definition extractPubKeyHash (script : bytes) : option bytes :=
  if (len script =? 25) &&
     (BA.at_ 0 script =? opcode.OP_DUP) &&
     (BA.at_ 1 script =? opcode.OP_HASH160) &&
     (BA.at_ 2 script =? opcode.OP_DATA_20) &&
     (BA.at_ 23 script =? opcode.OP_EQUALVERIFY) &&
     (BA.at_ 24 script =? opcode.OP_CHECKSIG)
  then Some (BA.slice 3 23 script)
  else None.

Definition extractScriptHash (pkScript : bytes) : option bytes :=
  if (len pkScript =? 23) &&
     (BA.at_ 0 pkScript =? opcode.OP_HASH160) &&
     (BA.at_ 1 pkScript =? opcode.OP_DATA_20) &&
     (BA.at_ 22 pkScript =? opcode.OP_EQUAL)
  then Some (BA.slice 2 22 pkScript)
  else None.

Definition extractCompressedPubKey (script : bytes) : option bytes :=
  if (len script =? 35) &&
     (BA.at_ 34 script =? opcode.OP_CHECKSIG) &&
     (BA.at_ 0 script =? opcode.OP_DATA_33) &&
     ((BA.at_ 1 script =? 2) || (BA.at_ 1 script =? 3))
  then Some (BA.slice 1 34 script)
  else None.

Definition extractUncompressedPubKey (script : bytes) : option bytes :=
  if (len script =? 67) &&
     (BA.at_ 66 script =? opcode.OP_CHECKSIG) &&
     (BA.at_ 0 script =? opcode.OP_DATA_65) &&
     (BA.at_ 1 script =? 4)
  then Some (BA.slice 1 66 script)
  else None.

Definition extractPubKey (script : bytes) : option bytes :=
  let pubkey := extractCompressedPubKey script in
  if BA.truthy pubkey then pubkey else extractUncompressedPubKey script.

Definition extractStakeScriptHash (script : bytes) (stakeOpcode : Z)
    : option bytes :=
  if (len script =? 24) &&
     (BA.at_ 0 script =? stakeOpcode) &&
     (BA.at_ 1 script =? opcode.OP_HASH160) &&
     (BA.at_ 2 script =? opcode.OP_DATA_20) &&
     (BA.at_ 23 script =? opcode.OP_EQUAL)
  then Some (BA.slice 3 23 script)
  else None.

Definition extractStakePubKeyHash (script : bytes) (stakeOpcode : Z)
    : option bytes :=
  if (len script <? 1) || negb (BA.at_ 0 script =? stakeOpcode) then None
  else extractPubKeyHash (BA.from 1 script).

Definition asSmallInt (op : Z) : Z :=
  if op =? opcode.OP_0 then 0 else op - (opcode.OP_1 - 1).

Definition isSmallInt (op : Z) : bool :=
  (op =? opcode.OP_0) || ((opcode.OP_1 <=? op) && (op <=? opcode.OP_16)).

Definition isStrictPubKeyEncoding (pubKey : bytes) : bool :=
  if (len pubKey =? 33) && ((BA.at_ 0 pubKey =? 2) || (BA.at_ 0 pubKey =? 3))
  then true
  else if (len pubKey =? 65) && (BA.at_ 0 pubKey =? 4) then true
  else false.

(** [requiredSigs] is [None] for the empty list that [invalidMSDetails]
    stores in that field. *)
Record multiSigDetails := {
  requiredSigs : option Z;
  numPubKeys : Z;
  pubKeys : list bytes;
  valid : bool
}.

Definition invalidMSDetails : multiSigDetails :=
  {| requiredSigs := None; numPubKeys := 0; pubKeys := []; valid := false |}.

(** The loop collecting public keys; it returns the tokenizer and the
    counters at the [break] or at the false return of [next]. *)
Fixpoint pubkey_loop (fuel : nat) (extractPubKeys : bool)
    (t : Tokenizer.ScriptTokenizer) (numPubkeys : Z) (pubkeys : list bytes)
    : option (result (Tokenizer.ScriptTokenizer * Z * list bytes)) :=
  match fuel with
  | O => None
  | S f =>
      match Tokenizer.next t with
      | Raise m => Some (Raise m)
      | Ok (false, t') => Some (Ok (t', numPubkeys, pubkeys))
      | Ok (true, t') =>
          match Tokenizer.data t' with
          | None => Some (Raise "TypeError")
          | Some data =>
              if negb (isStrictPubKeyEncoding data)
              then Some (Ok (t', numPubkeys, pubkeys))
              else pubkey_loop f extractPubKeys t' (numPubkeys + 1)
                     (if extractPubKeys then pubkeys ++ [data] else pubkeys)
          end
      end
  end.

Definition extractMultisigScriptDetails (scriptVersion : Z) (script : bytes)
    (extractPubKeys : bool) : option (result multiSigDetails) :=
  if negb (scriptVersion =? 0) then Some (Ok invalidMSDetails)
  else if (len script <? 3) ||
          negb (BA.at_ (List.length script - 1) script =? opcode.OP_CHECKMULTISIG)
  then Some (Ok invalidMSDetails)
  else
    match Tokenizer.next (Tokenizer.init scriptVersion script) with
    | Raise m => Some (Raise m)
    | Ok (false, _) => Some (Ok invalidMSDetails)
    | Ok (true, t1) =>
        match Tokenizer.opcode_ t1 with
        | None => Some (Raise "TypeError")
        | Some op1 =>
            if negb (isSmallInt op1) then Some (Ok invalidMSDetails)
            else
              match pubkey_loop (S (List.length script)) extractPubKeys t1 0 [] with
              | None => None
              | Some (Raise m) => Some (Raise m)
              | Some (Ok (t2, numPubkeys, pubkeys)) =>
                  if Tokenizer.done t2 then Some (Ok invalidMSDetails)
                  else
                    match Tokenizer.opcode_ t2 with
                    | None => Some (Raise "TypeError")
                    | Some op =>
                        if negb (isSmallInt op) ||
                           negb (asSmallInt op =? numPubkeys)
                        then Some (Ok invalidMSDetails)
                        else if negb (len (Tokenizer.script t2)
                                      - Z.of_nat (Tokenizer.byteIndex t2) =? 1)
                        then Some (Ok invalidMSDetails)
                        else Some (Ok {| requiredSigs := Some (asSmallInt op1);
                                         numPubKeys := numPubkeys;
                                         pubKeys := pubkeys;
                                         valid := true |})
                    end
              end
        end
    end.

(** What the code hands to an address constructor: a byte string, or the
    Python builtin function [hash], which is what the name [hash] denotes
    in [txscript.py] (the module binds no variable of that name). *)
Inductive pyarg :=
| ArgBytes (b : bytes)
| ArgBuiltinHash.

Section Addresses.

(** The address constructors of module [crypto] and the curve's public
    key parser are collaborators outside src/. *)
Variable address : Type.
Variable chainParams : Type.
Variable newAddressPubKeyHash : pyarg -> chainParams -> result address.
Variable newAddressScriptHashFromHash : pyarg -> chainParams -> result address.
(** [AddressSecpPubKey(Curve.parsePubKey(data).serializeCompressed(), params)] *)
Variable secpPubKeyAddress : bytes -> chainParams -> result address.

Definition pubKeyHashToAddrs (pkHash : pyarg) (params : chainParams)
    : result (list address) :=
  a <- newAddressPubKeyHash pkHash params ;; Ok [a].

Definition scriptHashToAddrs (scriptHash : pyarg) (params : chainParams)
    : result (list address) :=
  a <- newAddressScriptHashFromHash scriptHash params ;; Ok [a].

Fixpoint pubkeys_to_addrs (pks : list bytes) (params : chainParams)
    : result (list address) :=
  match pks with
  | [] => Ok []
  | pk :: r =>
      a <- secpPubKeyAddress pk params ;;
      l <- pubkeys_to_addrs r params ;;
      Ok (a :: l)
  end.

Definition ret3 (cls : Z) (addrs : result (list address)) (n : option Z)
    : option (result (Z * list address * option Z)) :=
  Some (l <- addrs ;; Ok (cls, l, n)).

Definition arg (o : option bytes) : pyarg :=
  match o with Some b => ArgBytes b | None => ArgBytes [] end.

(** The stake-tagged tail of [extractPkScriptAddrs]: generation,
    revocation and change scripts. *)
Definition extractStakeTail (pkScript : bytes) (params : chainParams)
    : option (result (Z * list address * option Z)) :=
  let pkHash := extractStakePubKeyHash pkScript opcode.OP_SSGEN in
  if BA.truthy pkHash then
    ret3 StakeGenTy (pubKeyHashToAddrs (arg pkHash) params) (Some 1)
  else
  let scriptHash := extractStakeScriptHash pkScript opcode.OP_SSGEN in
  if BA.truthy scriptHash then
    ret3 StakeGenTy (scriptHashToAddrs (arg scriptHash) params) (Some 1)
  else
  let pkHash := extractStakePubKeyHash pkScript opcode.OP_SSRTX in
  if BA.truthy pkHash then
    ret3 StakeRevocationTy (pubKeyHashToAddrs (arg pkHash) params) (Some 1)
  else
  let scriptHash := extractStakeScriptHash pkScript opcode.OP_SSRTX in
  if BA.truthy scriptHash then
    ret3 StakeRevocationTy (scriptHashToAddrs (arg scriptHash) params) (Some 1)
  else
  let pkHash := extractStakePubKeyHash pkScript opcode.OP_SSTXCHANGE in
  if BA.truthy pkHash then
    ret3 StakeSubChangeTy (pubKeyHashToAddrs (arg pkHash) params) (Some 1)
  else
  let scriptHash := extractStakeScriptHash pkScript opcode.OP_SSTXCHANGE in
  if BA.truthy scriptHash then
    ret3 StakeSubChangeTy (scriptHashToAddrs (arg scriptHash) params) (Some 1)
  else Some (Raise "unsupported script").

Definition extractPkScriptAddrs (version : Z) (pkScript : bytes)
    (params : chainParams) : option (result (Z * list address * option Z)) :=
  if negb (version =? 0) then Some (Raise "invalid script version") else
  let pkHash := extractPubKeyHash pkScript in
  if BA.truthy pkHash then
    ret3 PubKeyHashTy (pubKeyHashToAddrs (arg pkHash) params) (Some 1)
  else
  let scriptHash := extractScriptHash pkScript in
  if BA.truthy scriptHash then
    ret3 ScriptHashTy (scriptHashToAddrs (arg scriptHash) params) (Some 1)
  else
  let data := extractPubKey pkScript in
  if BA.truthy data then
    ret3 PubKeyTy
      (a <- secpPubKeyAddress (match data with Some b => b | None => [] end)
              params ;; Ok [a])
      (Some 1)
  else
  match extractMultisigScriptDetails version pkScript true with
  | None => None
  | Some (Raise m) => Some (Raise m)
  | Some (Ok details) =>
      if valid details then
        ret3 MultiSigTy (pubkeys_to_addrs (pubKeys details) params)
          (requiredSigs details)
      else
      let pkHash := extractStakePubKeyHash pkScript opcode.OP_SSTX in
      if BA.truthy pkHash then
        ret3 StakeSubmissionTy (pubKeyHashToAddrs ArgBuiltinHash params) (Some 1)
      else
      let scriptHash := extractStakeScriptHash pkScript opcode.OP_SSTX in
      if BA.truthy scriptHash then
        ret3 StakeSubmissionTy (scriptHashToAddrs ArgBuiltinHash params) (Some 1)
      else extractStakeTail pkScript params
  end.

End Addresses.

(** The stake-tagged script forms. *)
Definition payToPubKeyHash (h : bytes) : bytes :=
  [opcode.OP_DUP; opcode.OP_HASH160; opcode.OP_DATA_20] ++ h ++
  [opcode.OP_EQUALVERIFY; opcode.OP_CHECKSIG].

Definition payToScriptHash (h : bytes) : bytes :=
  [opcode.OP_HASH160; opcode.OP_DATA_20] ++ h ++ [opcode.OP_EQUAL].

Definition stakeTagged (stakeOpcode : Z) (s : bytes) : bytes := stakeOpcode :: s.

Ltac twenty_bytes h H :=
  do 20 (destruct h as [|? h]; [discriminate H|]);
  destruct h; [clear H|discriminate H].

Section AddressFacts.

Variable address : Type.
Variable chainParams : Type.
Variable newAddressPubKeyHash : pyarg -> chainParams -> result address.
Variable newAddressScriptHashFromHash : pyarg -> chainParams -> result address.
Variable secpPubKeyAddress : bytes -> chainParams -> result address.

Let extract :=
  extractPkScriptAddrs address chainParams newAddressPubKeyHash
    newAddressScriptHashFromHash secpPubKeyAddress.

(** The sibling path: a stake-generation-tagged script yields the
    address of the hash embedded in the script. *)
Lemma stake_generation_uses_extracted_hash (params : chainParams) (h : bytes) :
  List.length h = 20%nat ->
  extract 0 (stakeTagged opcode.OP_SSGEN (payToPubKeyHash h)) params =
    Some (l <- pubKeyHashToAddrs address chainParams newAddressPubKeyHash
                 (ArgBytes h) params ;;
          Ok (StakeGenTy, l, Some 1)) /\
  extract 0 (stakeTagged opcode.OP_SSGEN (payToScriptHash h)) params =
    Some (l <- scriptHashToAddrs address chainParams
                 newAddressScriptHashFromHash (ArgBytes h) params ;;
          Ok (StakeGenTy, l, Some 1)).
Proof.
  intros H. twenty_bytes h H. split; reflexivity.
Qed.

(** C2. A stake-submission-tagged pay-to-pubkey-hash (or
    pay-to-script-hash) script at version 0 is claimed to yield the
    address constructed from the 20-byte hash of the script.  The code
    passes the name [hash], the Python builtin, to the address
    constructor instead of the extracted hash: the result is what the
    constructor makes of that builtin, whatever hash the script
    embeds. *)
Theorem stake_submission_passes_builtin_hash (params : chainParams) (h : bytes) :
  List.length h = 20%nat ->
  extract 0 (stakeTagged opcode.OP_SSTX (payToPubKeyHash h)) params =
    Some (l <- pubKeyHashToAddrs address chainParams newAddressPubKeyHash
                 ArgBuiltinHash params ;;
          Ok (StakeSubmissionTy, l, Some 1)) /\
  extract 0 (stakeTagged opcode.OP_SSTX (payToScriptHash h)) params =
    Some (l <- scriptHashToAddrs address chainParams
                 newAddressScriptHashFromHash ArgBuiltinHash params ;;
          Ok (StakeSubmissionTy, l, Some 1)).
Proof.
  intros H. twenty_bytes h H. split; reflexivity.
Qed.

End AddressFacts.

(** Modelled from the spec: the address constructors are not under src/.
    A hash address holds a 20-byte hash (section 6); anything else is
    refused, the builtin [hash] with a type error. *)
Inductive address :=
| AddressPubKeyHash (pkHash : bytes)
| AddressScriptHash (scriptHash : bytes)
| AddressSecpPubKey (pubKey : bytes).

Definition newHashAddress (mk : bytes -> address) (a : pyarg) (_ : unit)
    : result address :=
  match a with
  | ArgBytes b => if len b =? 20 then Ok (mk b) else Raise "wrong hash length"
  | ArgBuiltinHash => Raise "TypeError"
  end.

Definition hash01 : bytes := repeat 1 20.

Definition extract_sample (s : bytes) :=
  extractPkScriptAddrs address unit (newHashAddress AddressPubKeyHash)
    (newHashAddress AddressScriptHash) (fun b _ => Ok (AddressSecpPubKey b))
    0 s tt.

(** Rows "standard p2pkh" and "standard p2sh" of
    [test_extract_script_addrs], and the stake-generation sibling. *)
Example extract_standard_p2pkh :
  extract_sample (BA.of_int 0x76a914ad06dd6ddee55cbca9a9e3713bd7587509a3056488ac) =
  Some (Ok (PubKeyHashTy,
            [AddressPubKeyHash
               (BA.of_int 0xad06dd6ddee55cbca9a9e3713bd7587509a30564)],
            Some 1)).
Proof. vm_compute. reflexivity. Qed.

Example extract_standard_p2sh :
  extract_sample (BA.of_int 0xa91463bcc565f9e68ee0189dd5cc67f1b0e5f02f45cb87) =
  Some (Ok (ScriptHashTy,
            [AddressScriptHash
               (BA.of_int 0x63bcc565f9e68ee0189dd5cc67f1b0e5f02f45cb)],
            Some 1)).
Proof. vm_compute. reflexivity. Qed.

Example extract_stake_generation :
  extract_sample (stakeTagged opcode.OP_SSGEN (payToPubKeyHash hash01)) =
  Some (Ok (StakeGenTy, [AddressPubKeyHash hash01], Some 1)).
Proof. vm_compute. reflexivity. Qed.

Example extract_empty_script :
  extract_sample [] = Some (Raise "unsupported script").
Proof. vm_compute. reflexivity. Qed.

Lemma stake_submission_passes_builtin_hash_witness :
  List.length hash01 = 20%nat /\
  extractPkScriptAddrs address unit (newHashAddress AddressPubKeyHash)
    (newHashAddress AddressScriptHash) (fun b _ => Ok (AddressSecpPubKey b))
    0 (stakeTagged opcode.OP_SSTX (payToPubKeyHash hash01)) tt =
  Some (Raise "TypeError").
Proof.
  split; [reflexivity|].
  exact (proj1 (stake_submission_passes_builtin_hash address unit
                  (newHashAddress AddressPubKeyHash)
                  (newHashAddress AddressScriptHash)
                  (fun b _ => Ok (AddressSecpPubKey b)) tt hash01 eq_refl)).
Defined.

End Classifier.

(** ** Signature serialization *)

Module Curve.

(** Modelled from the spec: the curve (module [crypto.secp256k1.curve]) is
    not under src/.  [N] is the order of secp256k1, the one curve
    implemented; [accounts.py] spells the same number out as
    [MAX_SECRET_INT]. *)
Definition N : Z :=
  115792089237316195423570985008687907852837564279074904382605163141518161494337.

End Curve.

Module Sig.

Record Signature := { r : Z; s : Z }.

(** Modelled from the spec: [a | b] of the absent [ByteArray] class, the
    bytewise OR of two byte strings aligned at their last byte. *)
Definition pad_left (n : nat) (b : bytes) : bytes :=
  BA.zeros (n - List.length b) ++ b.

Fixpoint map2_lor (a b : bytes) : bytes :=
  match a, b with
  | x :: a', y :: b' => Z.lor x y :: map2_lor a' b'
  | _, _ => []
  end.

Definition bor (a b : bytes) : bytes :=
  let n := Nat.max (List.length a) (List.length b) in
  map2_lor (pad_left n a) (pad_left n b).

Definition canonicalizeInt (val : Z) : bytes :=
  let b := BA.of_int val in
  let b := if (List.length b =? 0)%nat then BA.of_int_len 0 1 else b in
  if negb (Z.land (BA.at_ 0 b) 128 =? 0)
  then bor (BA.of_int_len 0 (List.length b + 1)) b
  else b.

(** The low-S value that [serialize] encodes. *)
Definition lowS (sigS : Z) : Z :=
  let order := Curve.N in
  let halforder := Z.shiftr order 1 in
  if sigS >? halforder then order - sigS else sigS.

Definition serialize (sig : Signature) : bytes :=
  let sigS := lowS (s sig) in
  let rb := canonicalizeInt (r sig) in
  let sb := canonicalizeInt sigS in
  let length := (6 + List.length rb + List.length sb)%nat in
  let b := BA.of_int_len 0 length in
  let b := BA.write 0 [48] b in
  let b := BA.write 1 (BA.of_int_len (Z.of_nat length - 2) 1) b in
  let b := BA.write 2 [2] b in
  let b := BA.write 3 (BA.of_int_len (Z.of_nat (List.length rb)) 1) b in
  let offset := 4%nat in
  let b := BA.write offset rb b in
  let offset := (offset + List.length rb)%nat in
  let b := BA.write offset [2] b in
  let offset := (offset + 1)%nat in
  let b := BA.write offset (BA.of_int_len (Z.of_nat (List.length sb)) 1) b in
  let offset := (offset + 1)%nat in
  let b := BA.write offset sb b in
  b.

(** The most significant bit of a byte string is clear: it cannot be read
    as a negative big-endian integer. *)
Definition msb_clear (b : bytes) : Prop :=
  match b with
  | [] => False
  | x :: _ => Z.land x 128 = 0
  end.

(** *** The integer encodings *)

Lemma int_acc_app (a : Z) (x y : bytes) :
  BA.int_acc a (x ++ y) = BA.int_acc (BA.int_acc a x) y.
Proof.
  revert a. induction x as [|b x IH]; intros a; simpl; [reflexivity|apply IH].
Qed.

Lemma be_digits_spec :
  forall f v acc,
    0 <= v < 256 ^ Z.of_nat (S f) ->
    exists ds,
      BA.be_digits (S f) v acc = ds ++ acc /\
      BA.int ds = v /\ Forall is_byte ds /\ ds <> [] /\
      (forall n, (1 <= n)%nat -> v < 256 ^ Z.of_nat n ->
                 (List.length ds <= n)%nat).
Proof.
  induction f as [|f IH]; intros v acc Hv.
  - change (256 ^ Z.of_nat 1) with 256 in Hv.
    simpl. destruct (v <? 256) eqn:E; [|apply Z.ltb_ge in E; lia].
    exists [v]. repeat split.
    + constructor; [unfold is_byte; lia|constructor].
    + discriminate.
    + intros n Hn _. simpl. lia.
  - change (BA.be_digits (S (S f)) v acc)
      with (if v <? 256 then v :: acc
            else BA.be_digits (S f) (v / 256) (v mod 256 :: acc)).
    destruct (v <? 256) eqn:E.
    + apply Z.ltb_lt in E. exists [v]. repeat split.
      * constructor; [unfold is_byte; lia|constructor].
      * discriminate.
      * intros n Hn _. simpl. lia.
    + apply Z.ltb_ge in E.
      assert (Hq : 0 <= v / 256 < 256 ^ Z.of_nat (S f)).
      { split; [apply Z.div_pos; lia|].
        apply Z.div_lt_upper_bound; [lia|].
        replace (Z.of_nat (S (S f))) with (1 + Z.of_nat (S f)) in Hv by lia.
        rewrite Z.pow_add_r in Hv by lia. lia. }
      destruct (IH (v / 256) (v mod 256 :: acc) Hq)
        as (ds & Hds & Hint & Hb & Hne & Hlen).
      exists (ds ++ [v mod 256]). split; [|split; [|split; [|split]]].
      * rewrite Hds, <- app_assoc. reflexivity.
      * unfold BA.int in *. rewrite int_acc_app, Hint. simpl.
        pose proof (Z.div_mod v 256). lia.
      * apply Forall_app. split; [assumption|].
        constructor; [|constructor].
        unfold is_byte. apply Z.mod_pos_bound. lia.
      * destruct ds; discriminate.
      * intros n Hn Hvn. rewrite length_app. simpl.
        destruct n as [|[|n]]; [lia| |].
        { change (256 ^ Z.of_nat 1) with 256 in Hvn. lia. }
        assert (List.length ds <= S n)%nat; [|lia].
        apply Hlen; [lia|].
        apply Z.div_lt_upper_bound; [lia|].
        replace (Z.of_nat (S (S n))) with (1 + Z.of_nat (S n)) in Hvn by lia.
        rewrite Z.pow_add_r in Hvn by lia. lia.
Qed.

Lemma of_int_spec (v : Z) :
  0 <= v ->
  BA.int (BA.of_int v) = v /\ Forall is_byte (BA.of_int v) /\
  BA.of_int v <> [] /\
  (forall n, (1 <= n)%nat -> v < 256 ^ Z.of_nat n ->
             (List.length (BA.of_int v) <= n)%nat).
Proof.
  intros Hv. unfold BA.of_int.
  replace (Z.to_nat (Z.log2 v) + 1)%nat with (S (Z.to_nat (Z.log2 v))) by lia.
  destruct (be_digits_spec (Z.to_nat (Z.log2 v)) v []) as (ds & H & R).
  - split; [assumption|].
    assert (L : 0 <= Z.log2 v) by apply Z.log2_nonneg.
    assert (v < 2 ^ Z.succ (Z.log2 v)).
    { destruct (Z.eq_dec v 0) as [->|]; [reflexivity|].
      apply Z.log2_spec. lia. }
    assert (2 ^ Z.succ (Z.log2 v) <= 256 ^ Z.succ (Z.log2 v)).
    { apply Z.pow_le_mono_l. lia. }
    replace (Z.of_nat (S (Z.to_nat (Z.log2 v)))) with (Z.succ (Z.log2 v)) by lia.
    lia.
  - rewrite H, app_nil_r. exact R.
Qed.

Lemma be_fixed_zero (n : nat) : BA.be_fixed n 0 = BA.zeros n.
Proof.
  induction n as [|n IH]; [reflexivity|].
  cbn [BA.be_fixed]. change (0 / 256) with 0. change (0 mod 256) with 0.
  rewrite IH. unfold BA.zeros.
  change [0] with (repeat 0 1). rewrite <- repeat_app.
  f_equal. lia.
Qed.

Lemma be_fixed_one (v : Z) : 0 <= v < 256 -> BA.of_int_len v 1 = [v].
Proof.
  intros H. unfold BA.of_int_len. simpl. rewrite Z.mod_small by lia. reflexivity.
Qed.

Lemma map2_lor_zeros (b : bytes) :
  map2_lor (BA.zeros (List.length b)) b = b.
Proof.
  induction b as [|x b IH]; [reflexivity|].
  cbn [List.length BA.zeros repeat map2_lor]. rewrite Z.lor_0_l.
  f_equal. exact IH.
Qed.

Lemma bor_zeros (b : bytes) :
  bor (BA.of_int_len 0 (List.length b + 1)) b = 0 :: b.
Proof.
  unfold bor, BA.of_int_len. rewrite be_fixed_zero.
  unfold pad_left, BA.zeros. rewrite repeat_length.
  replace (Nat.max (List.length b + 1) (List.length b))
    with (List.length b + 1)%nat by lia.
  replace (List.length b + 1 - (List.length b + 1))%nat with 0%nat by lia.
  replace (List.length b + 1 - List.length b)%nat with 1%nat by lia.
  replace (List.length b + 1)%nat with (S (List.length b)) by lia.
  simpl. f_equal. apply map2_lor_zeros.
Qed.

(** A zero byte is put in front exactly when the shortest encoding has its
    most significant bit set. *)
Definition padded_when_needed (v : Z) (b : bytes) : Prop :=
  (msb_clear (BA.of_int v) /\ b = BA.of_int v) \/
  (~ msb_clear (BA.of_int v) /\ b = 0 :: BA.of_int v).

Lemma canonicalizeInt_spec (v : Z) :
  0 <= v ->
  BA.int (canonicalizeInt v) = v /\
  msb_clear (canonicalizeInt v) /\
  Forall is_byte (canonicalizeInt v) /\
  padded_when_needed v (canonicalizeInt v) /\
  (forall n, (1 <= n)%nat -> v < 256 ^ Z.of_nat n ->
             (List.length (canonicalizeInt v) <= n + 1)%nat).
Proof.
  intros Hv. destruct (of_int_spec v Hv) as (Hint & Hb & Hne & Hlen).
  unfold canonicalizeInt, padded_when_needed.
  destruct (BA.of_int v) as [|x b] eqn:E; [congruence|].
  cbn [List.length Nat.eqb BA.at_ nth].
  destruct (Z.land x 128 =? 0) eqn:M; cbn [negb].
  - apply Z.eqb_eq in M.
    split; [assumption|]. split; [exact M|]. split; [assumption|].
    split; [left; split; [exact M|reflexivity]|].
    intros n Hn Hvn. specialize (Hlen n Hn Hvn). simpl in *. lia.
  - apply Z.eqb_neq in M.
    change (S (List.length b)) with (List.length (x :: b)).
    rewrite bor_zeros.
    split; [exact Hint|]. split; [reflexivity|].
    split; [constructor; [unfold is_byte; lia|assumption]|].
    split; [right; split; [exact M|reflexivity]|].
    intros n Hn Hvn. specialize (Hlen n Hn Hvn). simpl in *. lia.
Qed.

(** *** The low-S rule *)

Lemma lowS_spec (sigS : Z) :
  0 <= sigS < Curve.N ->
  0 <= lowS sigS <= Curve.N / 2 /\
  (sigS > Curve.N / 2 -> lowS sigS = Curve.N - sigS) /\
  (sigS <= Curve.N / 2 -> lowS sigS = sigS).
Proof.
  intros H. unfold lowS. rewrite Z.shiftr_div_pow2 by lia.
  change (2 ^ 1) with 2.
  destruct (sigS >? Curve.N / 2) eqn:E.
  - assert (sigS > Curve.N / 2) by (apply Z.gtb_lt in E; lia).
    pose proof (Z.div_mod Curve.N 2).
    pose proof (Z.mod_pos_bound Curve.N 2).
    repeat split; lia.
  - assert (sigS <= Curve.N / 2).
    { destruct (Z.gtb_spec sigS (Curve.N / 2)); [discriminate|lia]. }
    repeat split; lia.
Qed.

(** *** The DER layout *)

Lemma skipn_zeros (k m : nat) : skipn k (BA.zeros m) = BA.zeros (m - k).
Proof.
  revert m. induction k as [|k IH]; intros m.
  - rewrite Nat.sub_0_r. reflexivity.
  - destruct m as [|m]; [reflexivity|]. simpl. apply IH.
Qed.

Lemma write_at (off : nat) (a src : bytes) (m : nat) :
  off = List.length a /\ (List.length src <= m)%nat ->
  BA.write off src (a ++ BA.zeros m) =
  (a ++ src) ++ BA.zeros (m - List.length src).
Proof.
  intros [-> H]. unfold BA.write.
  rewrite firstn_app, firstn_all, Nat.sub_diag, firstn_O, app_nil_r.
  rewrite skipn_app, skipn_all2 by lia.
  replace (List.length a + List.length src - List.length a)%nat
    with (List.length src) by lia.
  rewrite skipn_zeros, <- app_assoc. reflexivity.
Qed.

Lemma curve_order_bound : Curve.N < 256 ^ Z.of_nat 32.
Proof. reflexivity. Qed.

(** C5. For [r] and [s] in [0, curveOrder), [serialize] lays out
    0x30 len 0x02 len(r) r 0x02 len(s) s where the encoded s is the low-S
    value, at most curveOrder/2 (it is curveOrder - s when s exceeds
    curveOrder/2), and the big-endian encodings of r and s get a leading
    zero byte exactly when their most significant bit would be set, so the
    first byte of each has its top bit clear. *)
Theorem serialize_low_s_canonical (sig : Signature) :
  0 <= r sig < Curve.N ->
  0 <= s sig < Curve.N ->
  let rb := canonicalizeInt (r sig) in
  let sb := canonicalizeInt (lowS (s sig)) in
  serialize sig =
    [48; Z.of_nat (4 + List.length rb + List.length sb); 2;
     Z.of_nat (List.length rb)] ++ rb ++
    [2; Z.of_nat (List.length sb)] ++ sb /\
  BA.int sb <= Curve.N / 2 /\
  (s sig > Curve.N / 2 -> BA.int sb = Curve.N - s sig) /\
  (s sig <= Curve.N / 2 -> BA.int sb = s sig) /\
  BA.int rb = r sig /\
  msb_clear rb /\ msb_clear sb /\
  padded_when_needed (r sig) rb /\
  padded_when_needed (lowS (s sig)) sb /\
  Forall is_byte rb /\ Forall is_byte sb.
Proof.
  intros Hr Hs rb sb.
  destruct (lowS_spec (s sig) Hs) as (Hlow & Hhi & Hlo).
  destruct (canonicalizeInt_spec (r sig) (proj1 Hr))
    as (Ri & Rm & Rb & Rp & Rl).
  destruct (canonicalizeInt_spec (lowS (s sig)) (proj1 Hlow))
    as (Si & Sm & Sb & Sp & Sl).
  fold rb in Ri, Rm, Rb, Rp, Rl. fold sb in Si, Sm, Sb, Sp, Sl.
  pose proof curve_order_bound as B.
  assert (Lr : (List.length rb <= 33)%nat) by (apply (Rl 32%nat); lia).
  assert (Ls : (List.length sb <= 33)%nat).
  { apply (Sl 32%nat); [lia|].
    pose proof (Z.div_mod Curve.N 2). pose proof (Z.mod_pos_bound Curve.N 2).
    lia. }
  split.
  - unfold serialize. fold rb sb. cbv zeta.
    change (BA.of_int_len 0) with (fun k => BA.be_fixed k 0). cbv beta.
    rewrite be_fixed_zero.
    rewrite !be_fixed_one by lia.
    change (BA.zeros (6 + List.length rb + List.length sb))
      with ([] ++ BA.zeros (6 + List.length rb + List.length sb)).
    do 8 (rewrite write_at by (rewrite ?length_app; cbn [List.length]; lia)).
    match goal with
    | |- _ ++ BA.zeros ?k = _ =>
        replace k with 0%nat by (cbn [List.length]; lia)
    end.
    replace (Z.of_nat (6 + List.length rb + List.length sb) - 2)
      with (Z.of_nat (4 + List.length rb + List.length sb)) by lia.
    cbn [BA.zeros repeat]. rewrite app_nil_r, <- !app_assoc.
    reflexivity.
  - rewrite Si. repeat split; try assumption; try lia.
Qed.

(** The DER signature inside the third signature script that
    [test_sign_tx] expects: [r] has its top bit set and gets the zero byte,
    [s] is already low. *)
Example serialize_test_sign_tx_third :
  serialize
    {| r := 0xd71babc95de02df7be1e7b14c0f68fb5dcab500c8ef7cf8172b2ea8ad6275333;
       s := 0x2968ddc3b2f9ff07d3a736b04e74fa39663f028035b6d175de6a4ef90838b797 |} =
  BA.of_int
    0x3045022100d71babc95de02df7be1e7b14c0f68fb5dcab500c8ef7cf8172b2ea8ad627533302202968ddc3b2f9ff07d3a736b04e74fa39663f028035b6d175de6a4ef90838b797.
Proof. vm_compute. reflexivity. Qed.

Definition sig_sample : Signature :=
  {| r := 128; s := Curve.N - 1 |}.

Lemma serialize_low_s_canonical_witness :
  serialize sig_sample = [48; 7; 2; 2; 0; 128; 2; 1; 1] /\
  BA.int (canonicalizeInt (lowS (s sig_sample))) <= Curve.N / 2.
Proof.
  assert (Hr : 0 <= r sig_sample < Curve.N) by (vm_compute; split; congruence).
  assert (Hs : 0 <= s sig_sample < Curve.N) by (vm_compute; split; congruence).
  pose proof (serialize_low_s_canonical sig_sample Hr Hs) as H.
  cbv zeta in H. destruct H as (H1 & H2 & _).
  split; [rewrite H1; reflexivity|exact H2].
Defined.

End Sig.

(** ** KeyDeriver: the master key *)

Module KeyDeriver.

(** [b"Bitcoin seed"] *)
Definition MASTER_KEY : bytes :=
  [66; 105; 116; 99; 111; 105; 110; 32; 115; 101; 101; 100].

Definition MAX_SECRET_INT : Z :=
  115792089237316195423570985008687907852837564279074904382605163141518161494337.

Record Network := { HDPrivateKeyID : bytes; HDPublicKeyID : bytes }.

(** The fields [crypto.ExtendedKey] is constructed with. *)
Record ExtendedKey := {
  privVer : bytes;
  pubVer : bytes;
  key : bytes;
  pubKey : bytes;
  chainCode : bytes;
  parentFP : bytes;
  depth : Z;
  childNum : Z;
  isPrivate : bool
}.

Definition AssertionError : string := "AssertionError".
Definition KeyLengthException : string :=
  "KeyLengthException: generated key was outside acceptable range".

Section NewMaster.

(** [crypto.hmacDigest] (HMAC-SHA512) and the seed length bounds of the
    constants module are collaborators outside src/. *)
Variable hmacDigest : bytes -> bytes -> bytes.
Variables MinSeedBytes MaxSeedBytes : Z.

(** The integer [newMaster] range-checks: the first half of the digest. *)
Definition secretInt (seed : bytes) : Z :=
  let lr := hmacDigest MASTER_KEY seed in
  let lrLen := (List.length lr / 2)%nat in
  BA.int (BA.upto lrLen lr).

Definition newMaster (seed : bytes) (network : Network) : result ExtendedKey :=
  let seedLen := Z.of_nat (List.length seed) in
  if negb ((MinSeedBytes <=? seedLen) && (seedLen <=? MaxSeedBytes))
  then Raise AssertionError
  else
    let lr := hmacDigest MASTER_KEY seed in
    let lrLen := (List.length lr / 2)%nat in
    let secretKey := BA.upto lrLen lr in
    let chainCode := BA.from lrLen lr in
    let secretInt := BA.int secretKey in
    if (secretInt >? MAX_SECRET_INT) || (secretInt <=? 0)
    then Raise KeyLengthException
    else
      let parentFp := [0; 0; 0; 0] in
      Ok {| privVer := HDPrivateKeyID network;
            pubVer := HDPublicKeyID network;
            key := secretKey;
            pubKey := [];
            chainCode := chainCode;
            parentFP := parentFp;
            depth := 0;
            childNum := 0;
            isPrivate := true |}.

Definition seed_in_range (seed : bytes) : Prop :=
  MinSeedBytes <= Z.of_nat (List.length seed) <= MaxSeedBytes.

Lemma max_secret_int_is_curve_order : MAX_SECRET_INT = Curve.N.
Proof. reflexivity. Qed.

(** What the range check of the code accepts and refuses. *)
Lemma newMaster_range_check (seed : bytes) (network : Network) :
  seed_in_range seed ->
  (newMaster seed network = Raise KeyLengthException <->
   secretInt seed <= 0 \/ secretInt seed > Curve.N) /\
  (~ (secretInt seed <= 0 \/ secretInt seed > Curve.N) ->
   exists k, newMaster seed network = Ok k /\
     isPrivate k = true /\ depth k = 0 /\ childNum k = 0 /\
     parentFP k = [0; 0; 0; 0] /\ BA.int (key k) = secretInt seed).
Proof.
  intros [H1 H2]. unfold newMaster, secretInt.
  rewrite <- max_secret_int_is_curve_order.
  destruct ((MinSeedBytes <=? _) && (_ <=? MaxSeedBytes)) eqn:E.
  2:{ apply andb_false_iff in E as [E|E]; apply Z.leb_gt in E; lia. }
  cbn [negb]. cbv zeta.
  set (n := BA.int _).
  destruct ((n >? MAX_SECRET_INT) || (n <=? 0)) eqn:C.
  - apply orb_true_iff in C.
    assert (n <= 0 \/ n > MAX_SECRET_INT).
    { destruct C as [C|C]; [right; apply Z.gtb_lt in C; lia|
                            left; apply Z.leb_le in C; lia]. }
    split; [tauto|]. intros N; tauto.
  - apply orb_false_iff in C as [C1 C2].
    assert (~ (n <= 0 \/ n > MAX_SECRET_INT)).
    { apply Z.leb_gt in C2.
      destruct (Z.gtb_spec n MAX_SECRET_INT); [discriminate|lia]. }
    split; [split; [discriminate|tauto]|].
    intros _. eexists. split; [reflexivity|]. simpl. tauto.
Qed.

(** C4. [newMaster] is claimed to fail with a key-range error whenever the
    secret integer is 0 or at least the curve order.  The code compares
    with [secretInt > MAX_SECRET_INT] where [MAX_SECRET_INT] is the curve
    order itself: a secret equal to the curve order passes the check and
    a private master key holding it is returned. *)
Theorem newMaster_accepts_curve_order (seed : bytes) (network : Network) :
  seed_in_range seed ->
  secretInt seed = Curve.N ->
  exists k,
    newMaster seed network = Ok k /\
    isPrivate k = true /\ depth k = 0 /\ childNum k = 0 /\
    parentFP k = [0; 0; 0; 0] /\ BA.int (key k) = Curve.N.
Proof.
  intros R E.
  destruct (newMaster_range_check seed network R) as [_ H].
  destruct H as (k & Hk & P).
  - rewrite E. unfold Curve.N. lia.
  - exists k. rewrite <- E. tauto.
Qed.

End NewMaster.

(** A digest function whose left half is the curve order, standing in
    for a seed on which HMAC-SHA512 produces that value. *)
Definition digest_of_order (_ seed : bytes) : bytes :=
  BA.of_int_len Curve.N 32 ++ BA.of_int_len 0 32.

Definition seed16 : bytes := repeat 1 16.

Definition net0 : Network := {| HDPrivateKeyID := [2; 253; 164; 232];
                                HDPublicKeyID := [2; 253; 169; 38] |}.

Lemma newMaster_accepts_curve_order_witness :
  seed_in_range 16 64 seed16 /\
  secretInt digest_of_order seed16 = Curve.N /\
  exists k, newMaster digest_of_order 16 64 seed16 net0 = Ok k /\
            BA.int (key k) = Curve.N.
Proof.
  assert (R : seed_in_range 16 64 seed16) by (vm_compute; split; congruence).
  assert (E : secretInt digest_of_order seed16 = Curve.N) by (vm_compute; reflexivity).
  split; [exact R|]. split; [exact E|].
  destruct (newMaster_accepts_curve_order digest_of_order 16 64 seed16 net0 R E)
    as (k & Hk & _ & _ & _ & _ & Hkey).
  exists k. split; assumption.
Defined.

End KeyDeriver.

(** ** SigHashCalculator *)

Module SigHash.

Definition HASH_SIZE : nat := 32.

Definition SigHashAll := 1.
Definition SigHashNone := 2.
Definition SigHashSingle := 3.
Definition SigHashAnyOneCanPay := 128.
Definition sigHashMask := 31.
Definition SigHashSerializePrefix := 1.
Definition SigHashSerializeWitness := 3.

(** from chaincfg *)
Definition SigHashOptimization : bool := false.

Record OutPoint := { hash : bytes; index : Z; tree : Z }.
Record TxIn := { previousOutPoint : OutPoint; sequence : Z }.
Record TxOut := { value : Z; version : Z; pkScript : bytes }.
Record MsgTx := {
  tx_version : Z;
  txIn : list TxIn;
  txOut : list TxOut;
  lockTime : Z;
  expiry : Z
}.

Definition MaxUint16 := 65535.
Definition MaxUint32 := 4294967295.

(** Modelled from the spec: [wire.varIntSerializeSize] is not under src/;
    the sizes are those [test_var_int_serialize] of [txscript.py] lists. *)
Definition varIntSerializeSize (val : Z) : Z :=
  if val <? 253 then 1
  else if val <=? MaxUint16 then 3
  else if val <=? MaxUint32 then 5
  else 9.

Definition putVarInt (val : Z) : bytes :=
  if val <? 253 then BA.of_int_len val 1
  else if val <=? MaxUint16 then
    Sig.bor (rev (BA.of_int_len 253 3)) (BA.littleEndian (BA.of_int_len val 2))
  else if val <=? MaxUint32 then
    Sig.bor (rev (BA.of_int_len 254 5)) (BA.littleEndian (BA.of_int_len val 4))
  else
    Sig.bor (rev (BA.of_int_len 255 9)) (BA.littleEndian (BA.of_int_len val 8)).

(** The rows of [test_var_int_serialize]. *)
Example varIntSerializeSize_rows :
  map varIntSerializeSize
    [0; 0xfc; 0xfd; 0xffff; 0x10000; 0xffffffff; 0x100000000; 0xffffffffffffffff]
  = [1; 1; 3; 3; 5; 5; 9; 9].
Proof. reflexivity. Qed.

Example putVarInt_rows :
  map putVarInt [0x4c; 0xfd; 0x1234; 0x12345678] =
  [[0x4c]; [0xfd; 0xfd; 0]; [0xfd; 0x34; 0x12]; [0xfe; 0x78; 0x56; 0x34; 0x12]].
Proof. vm_compute. reflexivity. Qed.

Definition len (b : bytes) : Z := Z.of_nat (List.length b).

(** The list slice [l[i:j]]. *)
Definition slice {A} (i j : nat) (l : list A) : list A :=
  firstn (j - i) (skipn i l).

Definition le (v : Z) (n : nat) : bytes := BA.littleEndian (BA.of_int_len v n).

Definition isSingle (hashType : Z) : bool :=
  Z.land hashType sigHashMask =? SigHashSingle.

Definition isNone (hashType : Z) : bool :=
  Z.land hashType sigHashMask =? SigHashNone.

(** The loop of [sigHashPrefixSerializeSize] over [enumerate(txOuts)],
    from output index [i] on. *)
Fixpoint prefix_out_sizes (hashType : Z) (signIdx i : nat) (txOuts : list TxOut) : Z :=
  match txOuts with
  | [] => 0
  | o :: rest =>
      let pk := if isSingle hashType && negb (i =? signIdx)%nat
                then [] else pkScript o in
      varIntSerializeSize (len pk) + len pk +
      prefix_out_sizes hashType signIdx (S i) rest
  end.

Definition sigHashPrefixSerializeSize (hashType : Z) (txIns : list TxIn)
    (txOuts : list TxOut) (signIdx : nat) : Z :=
  let numTxIns := Z.of_nat (List.length txIns) in
  let numTxOuts := Z.of_nat (List.length txOuts) in
  4 + varIntSerializeSize numTxIns +
  numTxIns * (Z.of_nat HASH_SIZE + 4 + 1 + 4) +
  varIntSerializeSize numTxOuts + numTxOuts * (8 + 2) + 4 + 4 +
  prefix_out_sizes hashType signIdx 0 txOuts.

Definition sigHashWitnessSerializeSize (txIns : list TxIn) (signScript : bytes) : Z :=
  let numTxIns := Z.of_nat (List.length txIns) in
  4 + varIntSerializeSize numTxIns + (numTxIns - 1) +
  varIntSerializeSize (len signScript) + len signScript.

(** The loop committing to the inputs, from input index [i] on. *)
Fixpoint commit_ins (hashType : Z) (signTxInIdx i : nat) (txIns : list TxIn) : bytes :=
  match txIns with
  | [] => []
  | t :: rest =>
      let prevOut := previousOutPoint t in
      let seq := if (isNone hashType || isSingle hashType) &&
                    negb (i =? signTxInIdx)%nat
                 then 0 else sequence t in
      hash prevOut ++ le (index prevOut) 4 ++ BA.of_int_len (tree prevOut) 1 ++
      le seq 4 ++ commit_ins hashType signTxInIdx (S i) rest
  end.

(** The loop committing to the outputs, from output index [i] on. *)
Fixpoint commit_outs (hashType : Z) (idx i : nat) (txOuts : list TxOut) : bytes :=
  match txOuts with
  | [] => []
  | o :: rest =>
      let cleared := isSingle hashType && negb (i =? idx)%nat in
      let v := if cleared then -1 else value o in
      let pk := if cleared then [] else pkScript o in
      le v 8 ++ le (version o) 2 ++ putVarInt (len pk) ++ pk ++
      commit_outs hashType idx (S i) rest
  end.

(** The witness loop over [range(len(txIns))], [n] inputs from index [i]. *)
Fixpoint commit_scripts (script : bytes) (signTxInIdx i n : nat) : bytes :=
  match n with
  | O => []
  | S m =>
      let commitScript := if negb (i =? signTxInIdx)%nat then [] else script in
      putVarInt (len commitScript) ++ commitScript ++
      commit_scripts script signTxInIdx (S i) m
  end.

Section WithHash.

(** [crypto.hashH], the block hash function, is a collaborator outside
    src/. *)
Variable hashH : bytes -> bytes.

(** The test [SigHashOptimization and not cachedPrefix is None and ...]:
    the last conjunct calls [.iszero()] on an [int], which has no such
    method. *)
Definition reuse_prefix (hashType : Z) (cachedPrefix : option bytes) : result bool :=
  if SigHashOptimization then
    match cachedPrefix with
    | None => Ok false
    | Some _ =>
        if Z.land hashType sigHashMask =? SigHashAll
        then Raise "AttributeError: 'int' object has no attribute 'iszero'"
        else Ok false
    end
  else Ok false.

Definition prefix_hash (hashType : Z) (tx : MsgTx) (idx : nat)
    (txIns : list TxIn) (signTxInIdx : nat) : result bytes :=
  let requiredSigs := Z.land hashType sigHashMask in
  let txOuts :=
    if requiredSigs =? SigHashNone then []
    else if requiredSigs =? SigHashSingle then slice 0 (idx + 1) (txOut tx)
    else txOut tx in
  let expectedSize := sigHashPrefixSerializeSize hashType txIns txOuts idx in
  let prefixBuf :=
    le (Z.lor (tx_version tx) (Z.shiftl SigHashSerializePrefix 16)) 4 ++
    putVarInt (Z.of_nat (List.length txIns)) ++
    commit_ins hashType signTxInIdx 0 txIns ++
    putVarInt (Z.of_nat (List.length txOuts)) ++
    commit_outs hashType idx 0 txOuts ++
    le (lockTime tx) 4 ++ le (expiry tx) 4 in
  if negb (len prefixBuf =? expectedSize)
  then Raise "incorrect prefix serialization size"
  else Ok (hashH prefixBuf).

Definition witness_hash (script : bytes) (tx : MsgTx) (txIns : list TxIn)
    (signTxInIdx : nat) : result bytes :=
  let expectedSize := sigHashWitnessSerializeSize txIns script in
  let version :=
    Sig.bor (BA.of_int_len (tx_version tx) 4)
            (BA.of_int (Z.shiftl SigHashSerializeWitness 16)) in
  let witnessBuf :=
    BA.littleEndian version ++
    putVarInt (Z.of_nat (List.length txIns)) ++
    commit_scripts script signTxInIdx 0 (List.length txIns) in
  if negb (len witnessBuf =? expectedSize)
  then Raise "incorrect witness serialization size"
  else Ok (hashH witnessBuf).

(** [idx], the index of the input being signed, is a natural number;
    [None] stands for the loop of [checkScriptParses] running out of
    fuel, which [checkScriptParses_total] excludes. *)
Definition calcSignatureHash (script : bytes) (hashType : Z) (tx : MsgTx)
    (idx : nat) (cachedPrefix : option bytes) : option (result bytes) :=
  let scriptVersion := 0 in
  match Tokenizer.checkScriptParses scriptVersion script with
  | None => None
  | Some (Raise m) => Some (Raise m)
  | Some (Ok _) =>
      Some (
        if isSingle hashType && (List.length (txOut tx) <=? idx)%nat
        then Raise "attempt to sign single input at index >= outputs"
        else
          let anyone := negb (Z.land hashType SigHashAnyOneCanPay =? 0) in
          let txIns := if anyone then slice idx (idx + 1) (txIn tx)
                       else txIn tx in
          let signTxInIdx := if anyone then 0%nat else idx in
          reuse <- reuse_prefix hashType cachedPrefix ;;
          prefixHash <-
            (if reuse
             then Ok (match cachedPrefix with Some p => p | None => [] end)
             else prefix_hash hashType tx idx txIns signTxInIdx) ;;
          witnessHash <- witness_hash script tx txIns signTxInIdx ;;
          let sigHashBuf := BA.of_int_len 0 (HASH_SIZE * 2 + 4) in
          let sigHashBuf := BA.write 0 (le hashType 4) sigHashBuf in
          let sigHashBuf := BA.write 4 prefixHash sigHashBuf in
          let sigHashBuf := BA.write (4 + HASH_SIZE) witnessHash sigHashBuf in
          Ok (hashH sigHashBuf))
  end.

(** Well-formed call: every field fits its width in the serialization,
    outpoint hashes are [HASH_SIZE] bytes, and [idx] names an input. *)
Definition fits (v : Z) (nbytes : nat) : bool :=
  (0 <=? v) && (v <? 256 ^ Z.of_nat nbytes).

Definition wf_in (t : TxIn) : bool :=
  (List.length (hash (previousOutPoint t)) =? HASH_SIZE)%nat &&
  fits (index (previousOutPoint t)) 4 && fits (tree (previousOutPoint t)) 1 &&
  fits (sequence t) 4.



(** *** Sizes of the serialized parts *)

Lemma be_fixed_length (n : nat) (v : Z) : List.length (BA.be_fixed n v) = n.
Proof.
  revert v. induction n as [|n IH]; intros v; [reflexivity|].
  cbn [BA.be_fixed]. rewrite length_app, IH. simpl. lia.
Qed.

Lemma le_length (v : Z) (n : nat) : List.length (le v n) = n.
Proof.
  unfold le, BA.littleEndian, BA.of_int_len.
  rewrite length_rev. apply be_fixed_length.
Qed.

Lemma map2_lor_length (a b : bytes) :
  List.length (Sig.map2_lor a b) = Nat.min (List.length a) (List.length b).
Proof.
  revert b. induction a as [|x a IH]; intros [|y b]; simpl; try reflexivity.
  rewrite IH. reflexivity.
Qed.

Lemma bor_length (a b : bytes) :
  List.length (Sig.bor a b) = Nat.max (List.length a) (List.length b).
Proof.
  unfold Sig.bor, Sig.pad_left.
  rewrite map2_lor_length, !length_app.
  unfold BA.zeros. rewrite !repeat_length. lia.
Qed.

Lemma putVarInt_length (v : Z) : len (putVarInt v) = varIntSerializeSize v.
Proof.
  unfold putVarInt, varIntSerializeSize, len.
  destruct (v <? 253).
  - unfold BA.of_int_len. rewrite be_fixed_length. reflexivity.
  - destruct (v <=? MaxUint16); [|destruct (v <=? MaxUint32)];
      rewrite bor_length, length_rev;
      unfold BA.littleEndian, BA.of_int_len;
      rewrite length_rev, !be_fixed_length; reflexivity.
Qed.

Lemma len_app (a b : bytes) : len (a ++ b) = len a + len b.
Proof. unfold len. rewrite length_app. lia. Qed.

Lemma len_le (v : Z) (n : nat) : len (le v n) = Z.of_nat n.
Proof. unfold len. rewrite le_length. reflexivity. Qed.

Lemma commit_ins_length (hashType : Z) (sign : nat) (txIns : list TxIn) :
  forallb wf_in txIns = true ->
  forall i,
    len (commit_ins hashType sign i txIns) =
    Z.of_nat (List.length txIns) * (Z.of_nat HASH_SIZE + 4 + 1 + 4).
Proof.
  induction txIns as [|t rest IH]; intros W i; [reflexivity|].
  simpl in W. apply andb_true_iff in W as [Wt Wr].
  unfold wf_in in Wt. repeat (apply andb_true_iff in Wt as [Wt _]).
  apply Nat.eqb_eq in Wt.
  cbn [commit_ins]. cbv zeta.
  rewrite !len_app, !len_le, (IH Wr).
  unfold len at 1. rewrite Wt.
  unfold len, BA.of_int_len. rewrite be_fixed_length.
  cbn [List.length]. lia.
Qed.

Lemma commit_outs_length (hashType : Z) (idx : nat) (txOuts : list TxOut) :
  forall i,
    len (commit_outs hashType idx i txOuts) =
    Z.of_nat (List.length txOuts) * (8 + 2) +
    prefix_out_sizes hashType idx i txOuts.
Proof.
  induction txOuts as [|o rest IH]; intros i; [reflexivity|].
  cbn [commit_outs prefix_out_sizes]. cbv zeta.
  rewrite !len_app, !len_le, putVarInt_length, IH.
  cbn [List.length]. lia.
Qed.

Lemma commit_scripts_length (script : bytes) (sign : nat) :
  forall n i,
    len (commit_scripts script sign i n) =
    if (i <=? sign)%nat && (sign <? i + n)%nat
    then Z.of_nat n - 1 + varIntSerializeSize (len script) + len script
    else Z.of_nat n.
Proof.
  induction n as [|n IH]; intros i.
  - simpl.
    destruct (Nat.leb_spec i sign); destruct (Nat.ltb_spec sign (i + 0));
      simpl; try reflexivity; lia.
  - cbn [commit_scripts]. cbv zeta.
    rewrite !len_app, putVarInt_length, IH.
    destruct (Nat.eqb_spec i sign) as [->|Hne]; cbn [negb].
    + destruct (Nat.leb_spec (S sign) sign); [lia|].
      destruct (Nat.leb_spec sign sign); [|lia].
      destruct (Nat.ltb_spec sign (sign + S n)); [|lia].
      simpl andb; cbv iota. lia.
    + change (len []) with 0. change (varIntSerializeSize 0) with 1.
      destruct (Nat.leb_spec (S i) sign); destruct (Nat.leb_spec i sign);
        destruct (Nat.ltb_spec sign (S i + n));
        destruct (Nat.ltb_spec sign (i + S n));
        simpl andb; cbv iota; lia.
Qed.

Lemma prefix_hash_ok (hashType : Z) (tx : MsgTx) (idx : nat)
    (txIns : list TxIn) (sign : nat) :
  forallb wf_in txIns = true ->
  exists buf, prefix_hash hashType tx idx txIns sign = Ok (hashH buf).
Proof.
  intros W. unfold prefix_hash. cbv zeta.
  set (outs := if Z.land hashType sigHashMask =? SigHashNone then _ else _).
  match goal with
  | |- context [negb (?a =? ?b)] => replace (a =? b) with true
  end.
  - eexists. reflexivity.
  - symmetry. apply Z.eqb_eq.
    rewrite !len_app, !len_le, !putVarInt_length.
    rewrite (commit_ins_length _ _ _ W), commit_outs_length.
    unfold sigHashPrefixSerializeSize. lia.
Qed.

Lemma witness_version_length (v : Z) :
  List.length
    (BA.littleEndian
       (Sig.bor (BA.of_int_len v 4)
          (BA.of_int (Z.shiftl SigHashSerializeWitness 16)))) = 4%nat.
Proof.
  unfold BA.littleEndian. rewrite length_rev, bor_length.
  unfold BA.of_int_len. rewrite be_fixed_length. reflexivity.
Qed.


Lemma checkScriptParses_total (v : Z) (script : bytes) :
  exists e, Tokenizer.checkScriptParses v script = Some (Ok e).
Proof.
  unfold Tokenizer.checkScriptParses.
  destruct (Tokenizer.tokenize_total v script) as (t & toks & ->).
  eauto.
Qed.

Lemma forallb_firstn {A} (f : A -> bool) (n : nat) (l : list A) :
  forallb f l = true -> forallb f (firstn n l) = true.
Proof.
  revert l. induction n as [|n IH]; intros [|x l] H; try reflexivity.
  simpl in *. apply andb_true_iff in H as [Hx Hl].
  rewrite Hx. simpl. apply IH, Hl.
Qed.

Lemma forallb_skipn {A} (f : A -> bool) (n : nat) (l : list A) :
  forallb f l = true -> forallb f (skipn n l) = true.
Proof.
  revert l. induction n as [|n IH]; intros [|x l] H; try assumption.
  simpl in *. apply andb_true_iff in H as [_ Hl]. apply IH, Hl.
Qed.



(** C10. The value of [calcSignatureHash] does not depend on the
    [cachedPrefix] argument: with [SigHashOptimization] false the branch
    that would reuse it is never taken. *)
Theorem calcSignatureHash_ignores_cachedPrefix
    (script : bytes) (hashType : Z) (tx : MsgTx) (idx : nat) (p : option bytes) :
  calcSignatureHash script hashType tx idx p =
  calcSignatureHash script hashType tx idx None.
Proof.
  unfold calcSignatureHash, reuse_prefix.
  destruct (Tokenizer.checkScriptParses 0 script) as [[e|m]|]; reflexivity.
Qed.

End WithHash.

(** A stand-in block hash for running the definitions: 32 bytes derived
    from the input. *)
Definition toy_hash (b : bytes) : bytes := BA.of_int_len (BA.int b + 1) 32.


Definition sample_in (i : Z) : TxIn :=
  {| previousOutPoint := {| hash := repeat i 32; index := i; tree := 0 |};
     sequence := 4294967295 |}.

Definition sample_out : TxOut :=
  {| value := 280379743338240; version := 0; pkScript := [81] |}.

(** The transaction of [test_calc_signature_hash]: three inputs, two
    outputs. *)
Definition sample_tx : MsgTx :=
  {| tx_version := 1;
     txIn := [sample_in 0; sample_in 1; sample_in 2];
     txOut := [sample_out; sample_out];
     lockTime := 0; expiry := 0 |}.


End SigHash.

(** ** Account: address cursor and UTXO ledger *)

Module Account.

Definition CrazyAddress : string := "CRAZYADDRESS".

(** Modelled from the spec: the [UTXO] class (module [api]) is not under
    src/; these are the fields of section 3 that the account code reads. *)
Record UTXO := {
  address : string;
  txid : string;
  vout : Z;
  satoshis : Z;
  height : option Z;
  maturity : option Z
}.

(** Modelled from the spec: [UTXO.isSpendable] is not under src/.
    Spendable iff the block height is set and the output is not
    coinbase-derived (no maturity height), or the current height has
    reached the maturity height. *)
Definition isSpendable (u : UTXO) (tipHeight : Z) : bool :=
  match maturity u with
  | Some m => m <=? tipHeight
  | None => match height u with Some _ => true | None => false end
  end.

Record Balance := { total : Z; available : Z }.

Section WithKeys.

(** The extended public keys of the two branches and their child address
    derivation belong to module [crypto], outside src/.
    [deriveChildAddress] answers [None] where the code catches
    [ParameterRangeError]. *)
Variable ExtendedKey : Type.
Variable deriveChildAddress : ExtendedKey -> Z -> option string.

Record Account := {
  name : string;
  lastExternalIndex : Z;
  lastInternalIndex : Z;
  externalAddresses : list string;
  internalAddresses : list string;
  cursor : Z;
  balance : Balance;
  (** address -> list of txid, in insertion order *)
  txs : list (string * list string);
  (** "txid#vout" -> UTXO, in insertion order *)
  utxos : list (string * UTXO);
  extPub : option ExtendedKey;
  intPub : option ExtendedKey
}.

(** The state [Account.__init__] leaves. *)
Definition new_account (name : string) : Account :=
  {| name := name;
     lastExternalIndex := -1; lastInternalIndex := -1;
     externalAddresses := []; internalAddresses := [];
     cursor := 0; balance := {| total := 0; available := 0 |};
     txs := []; utxos := []; extPub := None; intPub := None |}.

(** [open] and [close], as far as the branch public keys go. *)
Definition open (ext int : ExtendedKey) (a : Account) : Account :=
  {| name := name a;
     lastExternalIndex := lastExternalIndex a;
     lastInternalIndex := lastInternalIndex a;
     externalAddresses := externalAddresses a;
     internalAddresses := internalAddresses a;
     cursor := cursor a; balance := balance a; txs := txs a; utxos := utxos a;
     extPub := Some ext; intPub := Some int |}.

Definition close (a : Account) : Account :=
  {| name := name a;
     lastExternalIndex := lastExternalIndex a;
     lastInternalIndex := lastInternalIndex a;
     externalAddresses := externalAddresses a;
     internalAddresses := internalAddresses a;
     cursor := cursor a; balance := balance a; txs := txs a; utxos := utxos a;
     extPub := None; intPub := None |}.

Definition set_external (a : Account) (addrs : list string) (last : Z) : Account :=
  {| name := name a;
     lastExternalIndex := last;
     lastInternalIndex := lastInternalIndex a;
     externalAddresses := addrs;
     internalAddresses := internalAddresses a;
     cursor := cursor a; balance := balance a; txs := txs a; utxos := utxos a;
     extPub := extPub a; intPub := intPub a |}.

Definition set_internal (a : Account) (addrs : list string) (last : Z) : Account :=
  {| name := name a;
     lastExternalIndex := lastExternalIndex a;
     lastInternalIndex := last;
     externalAddresses := externalAddresses a;
     internalAddresses := addrs;
     cursor := cursor a; balance := balance a; txs := txs a; utxos := utxos a;
     extPub := extPub a; intPub := intPub a |}.

Definition set_cursor (a : Account) (c : Z) : Account :=
  {| name := name a;
     lastExternalIndex := lastExternalIndex a;
     lastInternalIndex := lastInternalIndex a;
     externalAddresses := externalAddresses a;
     internalAddresses := internalAddresses a;
     cursor := c; balance := balance a; txs := txs a; utxos := utxos a;
     extPub := extPub a; intPub := intPub a |}.

Definition set_balance (a : Account) (b : Balance) : Account :=
  {| name := name a;
     lastExternalIndex := lastExternalIndex a;
     lastInternalIndex := lastInternalIndex a;
     externalAddresses := externalAddresses a;
     internalAddresses := internalAddresses a;
     cursor := cursor a; balance := b; txs := txs a; utxos := utxos a;
     extPub := extPub a; intPub := intPub a |}.

Definition zlen {A} (l : list A) : Z := Z.of_nat (List.length l).

(** A method call: its outcome and the account it leaves behind.  A call
    that raises keeps the mutations made before the exception. *)
Definition call (A : Type) : Type := result A * Account.

Definition generateNextPaymentAddress (a : Account) : call string :=
  if negb (zlen (externalAddresses a) =? lastExternalIndex a + 1)
  then (Raise "index-address length mismatch", a)
  else
    let idx := lastExternalIndex a + 1 in
    match extPub a with
    | None => (Raise "AttributeError: 'NoneType' object has no attribute 'deriveChildAddress'", a)
    | Some k =>
        let addr := match deriveChildAddress k idx with
                    | Some s => s
                    | None => CrazyAddress
                    end in
        (Ok addr, set_external a (externalAddresses a ++ [addr]) idx)
    end.

(** [while cond(self): self.generateNextPaymentAddress()], the shape of
    the loops of [getNextPaymentAddress] and [generateGapAddresses]. *)
Fixpoint generate_while (fuel : nat) (cond : Account -> bool) (a : Account)
    : option (call unit) :=
  if cond a then
    match fuel with
    | O => None
    | S f =>
        match generateNextPaymentAddress a with
        | (Raise m, a') => Some (Raise m, a')
        | (Ok _, a') => generate_while f cond a'
        end
    end
  else Some (Ok tt, a).

(** [l[i]] with Python's negative indices and [IndexError]. *)
Definition py_index (l : list string) (i : Z) : result string :=
  if (0 <=? i) && (i <? zlen l) then Ok (nth (Z.to_nat i) l EmptyString)
  else if (- zlen l <=? i) && (i <? 0)
       then Ok (nth (Z.to_nat (zlen l + i)) l EmptyString)
       else Raise "IndexError".

(** Iterations that the loops can need: one per missing address. *)
Definition missing (bound : Z) (a : Account) : nat :=
  Z.to_nat (bound - zlen (externalAddresses a)).

Definition getNextPaymentAddress (a : Account) : option (call string) :=
  let a := set_cursor a (cursor a + 1) in
  match generate_while (missing (cursor a + 1) a)
          (fun s => cursor s >=? zlen (externalAddresses s)) a with
  | None => None
  | Some (Raise m, a') => Some (Raise m, a')
  | Some (Ok _, a') => Some (py_index (externalAddresses a') (cursor a'), a')
  end.

(** [list.index]: position of the first occurrence, if any. *)
Fixpoint index_of (addr : string) (l : list string) : option Z :=
  match l with
  | [] => None
  | x :: r => if String.eqb x addr then Some 0
              else option_map Z.succ (index_of addr r)
  end.

(** The loop [for addr in self.txs] of [generateGapAddresses]. *)
Fixpoint highest_index (ext : list string) (keys : list string) (highest : Z) : Z :=
  match keys with
  | [] => highest
  | addr :: r =>
      match index_of addr ext with
      | Some i => highest_index ext r (Z.max highest i)
      | None => highest_index ext r highest
      end
  end.

Definition generateGapAddresses (gap : Z) (a : Account) : option (call unit) :=
  (* if self.extPub is None: log.warning(...) -- the call goes on *)
  let highest := highest_index (externalAddresses a) (map fst (txs a)) 0 in
  let tip := highest + gap in
  generate_while (missing tip a)
    (fun s => zlen (externalAddresses s) <? tip) a.

Definition getChangeAddress (a : Account) : call string :=
  if negb (zlen (internalAddresses a) =? lastInternalIndex a + 1)
  then (Raise "index-address length mismatch while generating change address", a)
  else
    let idx := lastInternalIndex a + 1 in
    match intPub a with
    | None => (Raise "AttributeError: 'NoneType' object has no attribute 'deriveChildAddress'", a)
    | Some k =>
        let addr := match deriveChildAddress k idx with
                    | Some s => s
                    | None => CrazyAddress
                    end in
        (Ok addr, set_internal a (internalAddresses a ++ [addr]) idx)
    end.

(** *** The UTXO ledger *)

Definition utxoscan (a : Account) : list UTXO := map snd (utxos a).

(** The loop of [calcBalance]. *)
Fixpoint balance_loop (tipHeight : Z) (l : list UTXO) (tot avail : Z) : Z * Z :=
  match l with
  | [] => (tot, avail)
  | u :: r =>
      let tot := tot + satoshis u in
      if negb (isSpendable u tipHeight) then balance_loop tipHeight r tot avail
      else balance_loop tipHeight r tot (avail + satoshis u)
  end.

(** [calcBalance] stores the sums in the account's balance object and
    returns that object. *)
Definition calcBalance (tipHeight : Z) (a : Account) : Balance * Account :=
  let '(tot, avail) := balance_loop tipHeight (utxoscan a) 0 0 in
  let b := {| total := tot; available := avail |} in
  (b, set_balance a b).

(** [sorted(pairs, key=lambda p: p[0])]: a stable sort by value. *)
Fixpoint insert_by_value (u : UTXO) (l : list UTXO) : list UTXO :=
  match l with
  | [] => [u]
  | v :: r => if satoshis u <=? satoshis v then u :: l
              else v :: insert_by_value u r
  end.

Fixpoint sorted_by_value (l : list UTXO) : list UTXO :=
  match l with
  | [] => []
  | u :: r => insert_by_value u (sorted_by_value r)
  end.

(** [approve and not approve(utxo)] *)
Definition rejected (approve : option (UTXO -> bool)) (u : UTXO) : bool :=
  match approve with
  | None => false
  | Some f => negb (f u)
  end.

(** The selection loop of [getUTXOs], with its [continue] and [break]. *)
Fixpoint select_loop (requested : Z) (approve : option (UTXO -> bool))
    (l : list UTXO) (matches : list UTXO) (collected : Z) : list UTXO * Z :=
  match l with
  | [] => (matches, collected)
  | u :: r =>
      if rejected approve u then select_loop requested approve r matches collected
      else
        let matches := matches ++ [u] in
        let collected := collected + satoshis u in
        if collected >=? requested then (matches, collected)
        else select_loop requested approve r matches collected
  end.

Definition getUTXOs (requested : Z) (approve : option (UTXO -> bool))
    (a : Account) : list UTXO * bool :=
  let '(matches, collected) :=
    select_loop requested approve (sorted_by_value (utxoscan a)) [] 0 in
  (matches, collected >=? requested).

Definition sum_values (l : list UTXO) : Z :=
  fold_right (fun u acc => satoshis u + acc) 0 l.

(** *** The address lists and their index counters *)

Definition index_invariant (a : Account) : Prop :=
  zlen (externalAddresses a) = lastExternalIndex a + 1 /\
  zlen (internalAddresses a) = lastInternalIndex a + 1.

(** The calls of claim C6; [step] gives the account a call leaves,
    whether it returned or raised. *)
Inductive method := GetNextPaymentAddress | GetChangeAddress.

Definition step (m : method) (a : Account) : option Account :=
  match m with
  | GetNextPaymentAddress => option_map snd (getNextPaymentAddress a)
  | GetChangeAddress => Some (snd (getChangeAddress a))
  end.

Fixpoint run (ms : list method) (a : Account) : option Account :=
  match ms with
  | [] => Some a
  | m :: r => match step m a with
              | None => None
              | Some a' => run r a'
              end
  end.

Lemma zlen_snoc {A} (l : list A) (x : A) : zlen (l ++ [x]) = zlen l + 1.
Proof. unfold zlen. rewrite length_app. simpl. lia. Qed.

(** What a returning [generateNextPaymentAddress] has done. *)
Lemma generateNext_ok (a a' : Account) (x : string) :
  generateNextPaymentAddress a = (Ok x, a') ->
  externalAddresses a' = externalAddresses a ++ [x] /\
  lastExternalIndex a' = lastExternalIndex a + 1 /\
  zlen (externalAddresses a) = lastExternalIndex a + 1 /\
  cursor a' = cursor a /\ internalAddresses a' = internalAddresses a /\
  lastInternalIndex a' = lastInternalIndex a /\ extPub a' = extPub a.
Proof.
  unfold generateNextPaymentAddress.
  destruct (zlen (externalAddresses a) =? lastExternalIndex a + 1) eqn:E;
    cbn [negb]; [|discriminate].
  apply Z.eqb_eq in E.
  destruct (extPub a) as [k|] eqn:K; [|discriminate].
  intros H. inversion H; subst; clear H. cbn. rewrite K. tauto.
Qed.

(** A raising [generateNextPaymentAddress] has changed nothing. *)
Lemma generateNext_raise (a a' : Account) (m : string) :
  generateNextPaymentAddress a = (Raise m, a') -> a' = a.
Proof.
  unfold generateNextPaymentAddress.
  destruct (negb _); [intros H; inversion H; reflexivity|].
  destruct (extPub a); intros H; inversion H; reflexivity.
Qed.

Lemma generateNext_invariant (a : Account) :
  index_invariant a -> index_invariant (snd (generateNextPaymentAddress a)).
Proof.
  intros I. destruct (generateNextPaymentAddress a) as [[x|m] a'] eqn:G.
  - apply generateNext_ok in G as (E1 & E2 & _ & _ & E3 & E4 & _).
    unfold index_invariant in *. cbn [snd].
    rewrite E1, E2, E3, E4, zlen_snoc. lia.
  - apply generateNext_raise in G. subst. exact I.
Qed.

Lemma generate_while_invariant (cond : Account -> bool) :
  forall fuel a c,
    index_invariant a -> generate_while fuel cond a = Some c ->
    index_invariant (snd c).
Proof.
  induction fuel as [|f IH]; intros a c I H; simpl in H.
  - destruct (cond a); [discriminate|]. inversion H; subst. exact I.
  - destruct (cond a); [|inversion H; subst; exact I].
    pose proof (generateNext_invariant a I) as I'.
    destruct (generateNextPaymentAddress a) as [[x|m] a'].
    + eapply IH; eassumption.
    + inversion H; subst. exact I'.
Qed.

(** The loops end: each round that returns adds one address, and a round
    is only entered while fewer than [bound] addresses exist. *)
Lemma generate_while_total (cond : Account -> bool) (bound : Z)
    (P : Account -> Prop) :
  (forall s, P s -> cond s = true -> zlen (externalAddresses s) < bound) ->
  (forall s x s', P s -> generateNextPaymentAddress s = (Ok x, s') -> P s') ->
  forall fuel a,
    P a -> (missing bound a <= fuel)%nat ->
    exists c, generate_while fuel cond a = Some c.
Proof.
  intros Hc Hp. induction fuel as [|f IH]; intros a Pa F; simpl.
  - destruct (cond a) eqn:C; [|eauto].
    specialize (Hc a Pa C). unfold missing in F. lia.
  - destruct (cond a) eqn:C; [|eauto].
    destruct (generateNextPaymentAddress a) as [[x|m] a'] eqn:G; [|eauto].
    apply IH; [eapply Hp; eassumption|].
    specialize (Hc a Pa C).
    apply generateNext_ok in G as (E1 & _).
    unfold missing in *. rewrite E1, zlen_snoc. lia.
Qed.

(** Fields the loops leave alone, and the loop condition on return. *)
Lemma generate_while_frame (cond : Account -> bool) :
  forall fuel a r a',
    generate_while fuel cond a = Some (r, a') ->
    cursor a' = cursor a /\ extPub a' = extPub a /\
    (zlen (externalAddresses a) <= zlen (externalAddresses a')) /\
    (r = Ok tt -> cond a' = false).
Proof.
  induction fuel as [|f IH]; intros a r a' H; simpl in H.
  - destruct (cond a) eqn:C; [discriminate|].
    inversion H; subst. repeat split; auto; lia.
  - destruct (cond a) eqn:C.
    + destruct (generateNextPaymentAddress a) as [[x|m] a1] eqn:G.
      * apply generateNext_ok in G as (E1 & _ & _ & E2 & _ & _ & E3).
        destruct (IH _ _ _ H) as (H1 & H2 & H3 & H4).
        rewrite E1, zlen_snoc in H3.
        repeat split; try congruence; try lia. exact H4.
      * apply generateNext_raise in G. inversion H; subst.
        repeat split; try lia. discriminate.
    + inversion H; subst. repeat split; auto; lia.
Qed.

Lemma getNextPaymentAddress_total (a : Account) :
  exists c, getNextPaymentAddress a = Some c.
Proof.
  unfold getNextPaymentAddress.
  set (a1 := set_cursor a (cursor a + 1)).
  destruct (generate_while_total
              (fun s => cursor s >=? zlen (externalAddresses s))
              (cursor a1 + 1) (fun s => cursor s = cursor a1))
    with (fuel := missing (cursor a1 + 1) a1) (a := a1) as [[r a'] H].
  - intros s Ps C. rewrite <- Ps.
    destruct (Z.geb_spec (cursor s) (zlen (externalAddresses s)));
      [lia|discriminate].
  - intros s x s' Ps G. apply generateNext_ok in G. destruct G as (_ & _ & _ & E & _).
    congruence.
  - reflexivity.
  - lia.
  - rewrite H. destruct r; eauto.
Qed.

Lemma step_invariant (m : method) (a : Account) :
  index_invariant a -> exists a', step m a = Some a' /\ index_invariant a'.
Proof.
  intros I. destruct m; cbn [step].
  - destruct (getNextPaymentAddress_total a) as [c H]. rewrite H.
    exists (snd c). split; [reflexivity|].
    unfold getNextPaymentAddress in H.
    destruct (generate_while _ _ _) as [[r a']|] eqn:W; [|discriminate].
    assert (I' : index_invariant a').
    { apply (generate_while_invariant _ _ _ (r, a')
               (I : index_invariant (set_cursor a (cursor a + 1))) W). }
    destruct r; inversion H; exact I'.
  - eexists. split; [reflexivity|].
    unfold getChangeAddress, index_invariant in *.
    destruct (zlen (internalAddresses a) =? lastInternalIndex a + 1);
      cbn [negb snd]; [|exact I].
    destruct (intPub a); cbn [snd]; [|exact I].
    cbn. rewrite zlen_snoc. lia.
Qed.

Lemma run_invariant (ms : list method) :
  forall a, index_invariant a ->
            exists a', run ms a = Some a' /\ index_invariant a'.
Proof.
  induction ms as [|m r IH]; intros a I; cbn [run]; [eauto|].
  destruct (step_invariant m a I) as (a1 & -> & I1). apply IH, I1.
Qed.

(** C6. The lists of external and internal addresses are one longer than
    their index counters in every new account, open or closed, and after
    any sequence of [getNextPaymentAddress] and [getChangeAddress] calls
    on an account where that holds, whether the calls return or raise. *)
Theorem address_lists_match_indices :
  (forall nm, index_invariant (new_account nm)) /\
  (forall nm e i, index_invariant (open e i (new_account nm))) /\
  (forall a ms,
     index_invariant a ->
     exists a', run ms a = Some a' /\
       zlen (externalAddresses a') = lastExternalIndex a' + 1 /\
       zlen (internalAddresses a') = lastInternalIndex a' + 1).
Proof.
  split; [|split].
  - intros nm. split; reflexivity.
  - intros nm e i. split; reflexivity.
  - intros a ms I. apply run_invariant, I.
Qed.

(** On an open account whose list and counter agree no round raises. *)
Lemma generate_while_open (cond : Account -> bool) (k : ExtendedKey) :
  forall fuel a r a',
    index_invariant a -> extPub a = Some k ->
    generate_while fuel cond a = Some (r, a') -> r = Ok tt.
Proof.
  induction fuel as [|f IH]; intros b r b' I K H; simpl in H.
  - destruct (cond b); [discriminate|]. inversion H; reflexivity.
  - destruct (cond b); [|inversion H; reflexivity].
    unfold generateNextPaymentAddress in H.
    destruct I as [I1 I2]. rewrite I1, Z.eqb_refl, K in H. cbn [negb] in H.
    eapply IH; [| |exact H].
    + split; cbn; [rewrite zlen_snoc; lia|exact I2].
    + exact K.
Qed.

(** What [generateGapAddresses] does on an open account: it fills the
    list up to [highest + gap] and leaves the cursor alone. *)
Lemma generateGapAddresses_reaches_tip (gap : Z) (a : Account) (k : ExtendedKey) :
  index_invariant a -> extPub a = Some k ->
  exists a',
    generateGapAddresses gap a = Some (Ok tt, a') /\
    cursor a' = cursor a /\
    highest_index (externalAddresses a) (map fst (txs a)) 0 + gap
      <= zlen (externalAddresses a').
Proof.
  intros I K. unfold generateGapAddresses.
  set (tip := highest_index _ _ _ + gap).
  destruct (generate_while_total
              (fun s => zlen (externalAddresses s) <? tip) tip (fun _ => True))
    with (fuel := missing tip a) (a := a) as [[r a'] H]; auto.
  - intros s _ C. apply Z.ltb_lt in C. exact C.
  - rewrite H.
    destruct (generate_while_frame _ _ _ _ _ H) as (Hc & Hk & _ & Hpost).
    assert (r = Ok tt) as -> by (eapply generate_while_open; eassumption).
    exists a'. split; [reflexivity|]. split; [exact Hc|].
    specialize (Hpost eq_refl). apply Z.ltb_ge in Hpost. exact Hpost.
Qed.

(** *** Balance *)

Definition spendable_at (tipHeight : Z) (l : list UTXO) : list UTXO :=
  filter (fun u => isSpendable u tipHeight) l.

Lemma balance_loop_sums (tipHeight : Z) (l : list UTXO) :
  forall tot avail,
    balance_loop tipHeight l tot avail =
    (tot + sum_values l, avail + sum_values (spendable_at tipHeight l)).
Proof.
  induction l as [|u r IH]; intros tot avail; simpl.
  - f_equal; lia.
  - destruct (isSpendable u tipHeight); cbn [negb]; rewrite IH; simpl;
      f_equal; lia.
Qed.

Lemma spendable_sum_le (tipHeight : Z) (l : list UTXO) :
  Forall (fun u => 0 <= satoshis u) l ->
  sum_values (spendable_at tipHeight l) <= sum_values l.
Proof.
  induction 1 as [|u r Hu _ IH]; simpl; [lia|].
  destruct (isSpendable u tipHeight); simpl; lia.
Qed.

(** C7, as the code has it.  A second [calcBalance] at the same tip height
    returns the same total and available and leaves the same account; total
    is the sum of all known UTXO values and available the sum over the
    spendable ones; available is at most total whenever no known UTXO has
    a negative value. *)
Theorem calcBalance_idempotent_and_bounded (tipHeight : Z) (a : Account) :
  let first := calcBalance tipHeight a in
  let second := calcBalance tipHeight (snd first) in
  fst second = fst first /\ snd second = snd first /\
  total (fst first) = sum_values (utxoscan a) /\
  available (fst first) = sum_values (spendable_at tipHeight (utxoscan a)) /\
  (Forall (fun u => 0 <= satoshis u) (utxoscan a) ->
   available (fst first) <= total (fst first)).
Proof.
  unfold calcBalance, utxoscan.
  rewrite balance_loop_sums. cbv beta iota zeta.
  cbn [fst snd]. unfold set_balance at 1. cbn [utxos].
  rewrite balance_loop_sums. cbv beta iota zeta.
  cbn [fst snd total available].
  split; [reflexivity|]. split; [reflexivity|].
  split; [lia|]. split; [lia|].
  intros H. pose proof (spendable_sum_le tipHeight _ H). lia.
Qed.

(** *** UTXO selection *)









Lemma firstn_subset {A} (k : nat) (l : list A) (x : A) :
  In x (firstn k l) -> In x l.
Proof.
  revert l. induction k as [|k IH]; intros [|y l]; simpl; try tauto.
  intros [E|H]; [left; exact E|right; apply IH, H].
Qed.


Lemma sum_values_app (x y : list UTXO) :
  sum_values (x ++ y) = sum_values x + sum_values y.
Proof.
  unfold sum_values. induction x as [|u r IH]; simpl; [reflexivity|].
  rewrite IH. lia.
Qed.



End WithKeys.

Arguments new_account {ExtendedKey} name.
Arguments open {ExtendedKey} ext int a.
Arguments externalAddresses {ExtendedKey} a.
Arguments internalAddresses {ExtendedKey} a.
Arguments lastExternalIndex {ExtendedKey} a.
Arguments lastInternalIndex {ExtendedKey} a.
Arguments cursor {ExtendedKey} a.
Arguments run {ExtendedKey} deriveChildAddress ms a.
Arguments generateGapAddresses {ExtendedKey} deriveChildAddress gap a.
Arguments calcBalance {ExtendedKey} tipHeight a.
Arguments getUTXOs {ExtendedKey} requested approve a.
Arguments utxoscan {ExtendedKey} a.

(** Accounts for running the ledger code: [with_utxos l] is a new account
    after [addUTXO] of each element of [l]. *)
Definition with_utxos (l : list (string * UTXO)) : Account unit :=
  {| name := "default"; lastExternalIndex := -1; lastInternalIndex := -1;
     externalAddresses := []; internalAddresses := []; cursor := 0;
     balance := {| total := 0; available := 0 |}; txs := [];
     utxos := l; extPub := None; intPub := None |}.

Definition utxo (id : string) (v : Z) (h m : option Z) : string * UTXO :=
  (id, {| address := "Dsaddr"; txid := id; vout := 0; satoshis := v;
          height := h; maturity := m |}).

Definition ledger_sample : Account unit :=
  with_utxos [utxo "aa#0" 500000000 (Some 1) (Some 1);
              utxo "bb#0" 7 None None; utxo "cc#0" 3 (Some 2) None].

Definition ledger_negative : Account unit :=
  with_utxos [utxo "aa#0" (-5) None None].

(** The balance figures of [test_accounts]: one UTXO of 5e8 atoms with
    maturity height 1 is available at tip 1 and not at tip 0. *)
Example calcBalance_test_accounts :
  let a := with_utxos [utxo "abcdefghijkl#2" 500000000 None (Some 1)] in
  fst (calcBalance 1 a) = {| total := 500000000; available := 500000000 |} /\
  fst (calcBalance 0 a) = {| total := 500000000; available := 0 |}.
Proof. split; reflexivity. Qed.

Example getUTXOs_smallest_first :
  let picked := getUTXOs 9 None ledger_sample in
  map satoshis (fst picked) = [3; 7] /\ snd picked = true.
Proof. split; reflexivity. Qed.

Example getUTXOs_filtered_short :
  let picked :=
    getUTXOs 500000011 (Some (fun u => isSpendable u 0)) ledger_sample in
  map satoshis (fst picked) = [3] /\ snd picked = false.
Proof. split; reflexivity. Qed.


Lemma calcBalance_idempotent_and_bounded_witness :
  Forall (fun u => 0 <= satoshis u) (utxoscan ledger_sample) /\
  total (fst (calcBalance 1 ledger_sample)) = 500000010 /\
  available (fst (calcBalance 1 ledger_sample)) <=
    total (fst (calcBalance 1 ledger_sample)).
Proof.
  assert (H : Forall (fun u => 0 <= satoshis u) (utxoscan ledger_sample)).
  { repeat constructor; simpl; lia. }
  split; [exact H|]. split; [reflexivity|].
  exact (proj2 (proj2 (proj2 (proj2
           (calcBalance_idempotent_and_bounded unit 1 ledger_sample)))) H).
Defined.

(** With a known UTXO of negative value that is not spendable, available
    exceeds total. *)
Lemma calcBalance_available_above_total :
  total (fst (calcBalance 0 ledger_negative)) = -5 /\
  available (fst (calcBalance 0 ledger_negative)) = 0 /\
  ~ (available (fst (calcBalance 0 ledger_negative)) <=
     total (fst (calcBalance 0 ledger_negative))).
Proof.
  split; [reflexivity|]. split; [reflexivity|].
  vm_compute. intros H. apply H. reflexivity.
Qed.

(** A stand-in for the branch keys: the child address of index [i] is
    the one-letter string with code 65 + i, and index 7 is the invalid
    child. *)
Definition toy_derive (_ : unit) (i : Z) : option string :=
  if i =? 7 then None
  else Some (String (Ascii.ascii_of_nat (65 + Z.to_nat i)) EmptyString).

Definition fresh_open : Account unit := open tt tt (new_account "default").

Lemma address_lists_match_indices_witness :
  exists a',
    run toy_derive
      [GetNextPaymentAddress; GetChangeAddress; GetNextPaymentAddress]
      fresh_open = Some a' /\
    zlen (externalAddresses a') = lastExternalIndex a' + 1 /\
    zlen (internalAddresses a') = lastInternalIndex a' + 1.
Proof.
  apply (proj2 (proj2 (address_lists_match_indices unit toy_derive))).
  apply (proj1 (proj2 (address_lists_match_indices unit toy_derive))).
Defined.

(** C3. [generateGapAddresses(gap)] is claimed to leave an open account
    with at least [cursor + gap] external addresses, and to be a no-op on
    a closed one.  The code fills the list up to [highest + gap], where
    [highest] is the highest index of an address with known transactions:
    after four [getNextPaymentAddress] calls on a new open account (cursor
    4, five addresses, no transactions), [generateGapAddresses(3)]
    generates nothing and 5 < 4 + 3.  On a closed account the warning is
    not followed by a return, and the first address to generate raises. *)
Theorem generateGapAddresses_fills_from_highest_index :
  exists a4,
    run toy_derive
      [GetNextPaymentAddress; GetNextPaymentAddress;
       GetNextPaymentAddress; GetNextPaymentAddress] fresh_open = Some a4 /\
    cursor a4 = 4 /\
    generateGapAddresses toy_derive 3 a4 = Some (Ok tt, a4) /\
    zlen (externalAddresses a4) = 5 /\
    zlen (externalAddresses a4) < cursor a4 + 3 /\
    generateGapAddresses toy_derive 1 (new_account "default") =
      Some (Raise "AttributeError: 'NoneType' object has no attribute 'deriveChildAddress'",
            new_account "default").
Proof.
  eexists. split; [vm_compute; reflexivity|].
  repeat split; vm_compute; reflexivity.
Qed.

End Account.

(** * Further properties of the code *)

(** ** ScriptTokenizer: bounds, errors, and scripts without push-data *)

Module TokenizerProps.

Import Tokenizer.

(** [n] calls of [next] in a row, each on the tokenizer the previous one
    left. *)
Fixpoint calls (n : nat) (t : ScriptTokenizer) : ScriptTokenizer :=
  match n with
  | O => t
  | S k => match next t with
           | Ok (_, t') => calls k t'
           | Raise _ => t
           end
  end.

Lemma offset_advance t n o data : offset (advance t n o data) = (offset t + n)%nat.
Proof. reflexivity. Qed.

Lemma script_advance t n o data : script (advance t n o data) = script t.
Proof. reflexivity. Qed.

Lemma next_keeps_bounds (t t' : ScriptTokenizer) (b : bool) :
  (offset t <= List.length (script t))%nat ->
  next t = Ok (b, t') ->
  script t' = script t /\
  (offset t <= offset t')%nat /\
  (offset t' <= List.length (script t'))%nat.
Proof.
  intros B H. unfold next in H.
  destruct (done t) eqn:D.
  { inversion H; subst. repeat split; auto. }
  unfold done in D. apply orb_false_iff in D as [_ D].
  apply Nat.leb_gt in D.
  remember (opcode.opcodeArray _) as o eqn:Eo. clear Eo.
  destruct (opcode.length o =? 1) eqn:E1.
  { inversion H; subst; cbn. repeat split; lia. }
  destruct (1 <? opcode.length o) eqn:E2.
  { apply Z.ltb_lt in E2.
    destruct (Z.of_nat _ <? opcode.length o) eqn:E4.
    - inversion H; subst; cbn. repeat split; lia.
    - apply Z.ltb_ge in E4. unfold BA.from in E4.
      rewrite length_skipn in E4.
      inversion H; subst; cbn. repeat split; lia. }
  destruct (opcode.length o <? 0) eqn:E3; [|discriminate].
  apply Z.ltb_lt in E3.
  destruct (Z.of_nat _ <? - opcode.length o) eqn:E4.
  { inversion H; subst; cbn. repeat split; lia. }
  apply Z.ltb_ge in E4. unfold BA.from in E4. rewrite length_skipn in E4.
  match type of H with
  | match ?dl with _ => _ end = _ => destruct dl as [dataLen|]
  end.
  2:{ inversion H; subst; cbn. repeat split; lia. }
  destruct ((Z.of_nat _ <? dataLen) || (dataLen <? 0)) eqn:E5.
  { inversion H; subst; cbn. repeat split; lia. }
  apply orb_false_iff in E5 as [E5 E6].
  apply Z.ltb_ge in E5, E6. unfold BA.from in E5.
  rewrite !length_skipn in E5.
  match type of H with
  | Ok (_, ?x) = _ => assert (Ht : t' = x) by congruence
  end.
  rewrite Ht, script_advance, offset_advance. repeat split; lia.
Qed.

Lemma calls_keep_bounds (n : nat) :
  forall t,
    (offset t <= List.length (script t))%nat ->
    script (calls n t) = script t /\
    (offset t <= offset (calls n t))%nat /\
    (offset (calls n t) <= List.length (script t))%nat.
Proof.
  induction n as [|n IH]; intros t B; cbn [calls].
  - repeat split; lia.
  - destruct (next t) as [[b t']|m] eqn:N; [|repeat split; lia].
    destruct (next_keeps_bounds _ _ _ B N) as (S1 & O1 & B1).
    destruct (IH t' B1) as (S2 & O2 & B2).
    rewrite S1 in *. repeat split; [congruence|lia|lia].
Qed.

(** X1. However often [next] is called on a new tokenizer and whatever the
    script holds, [byteIndex] stays within the script, never moves
    backward, and the script itself is left alone. *)
Theorem byteIndex_stays_in_script (v : Z) (s : bytes) (n m : nat) :
  let t := calls n (init v s) in
  let t' := calls m t in
  script t' = s /\
  (byteIndex t <= byteIndex t')%nat /\
  (byteIndex t' <= List.length s)%nat.
Proof.
  cbv zeta.
  destruct (calls_keep_bounds n (init v s)) as (S1 & _ & B1);
    [cbn; lia|].
  cbn [init script] in S1, B1.
  destruct (calls_keep_bounds m (calls n (init v s))) as (S2 & O2 & B2);
    [rewrite S1; exact B1|].
  rewrite S1 in *. unfold byteIndex. auto.
Qed.

(** X2. A data push cut short by the end of the script (OP_DATA_n with
    fewer than [n] bytes behind it, OP_PUSHDATA1 without its length byte or
    with a declared length that exceeds what remains) makes [next] return
    [False] with an error recorded, the offset where it was and the last
    parsed opcode and data kept; [done] is then true, and a further [next]
    returns [False] and changes nothing. *)
Theorem truncated_push_is_an_error (t : ScriptTokenizer) :
  done t = false ->
  let b := BA.at_ (offset t) (script t) in
  let remaining := Z.of_nat (List.length (script t) - offset t - 1) in
  (1 <= b <= 75 /\ remaining < b) \/
  (b = opcode.OP_PUSHDATA1 /\
   (remaining = 0 \/ remaining - 1 < BA.at_ (offset t + 1) (script t))) ->
  exists t' m,
    next t = Ok (false, t') /\
    err t' = Some m /\ offset t' = offset t /\
    op t' = op t /\ d t' = d t /\
    done t' = true /\ next t' = Ok (false, t').
Proof.
  intros D b remaining H.
  assert (Hset : forall m, done (set_err t m) = true /\
                           next (set_err t m) = Ok (false, set_err t m)).
  { intros m. assert (done (set_err t m) = true) by reflexivity.
    split; [assumption|]. unfold next. rewrite H0. reflexivity. }
  pose proof D as D'. unfold done in D'.
  apply orb_false_iff in D' as [_ D']. apply Nat.leb_gt in D'.
  unfold next. rewrite D. fold b.
  destruct H as [[Hb Hr]|[Hb Hr]].
  - assert (L : opcode.length (opcode.opcodeArray b) = b + 1).
    { unfold opcode.opcodeArray, opcode.OP_DATA_1, opcode.OP_DATA_75. cbn.
      destruct (Z.leb_spec 1 b); [|lia].
      destruct (Z.leb_spec b 75); [|lia]. reflexivity. }
    rewrite L.
    destruct (Z.eqb_spec (b + 1) 1); [lia|].
    destruct (Z.ltb_spec 1 (b + 1)); [|lia].
    unfold BA.from. rewrite length_skipn.
    destruct (Z.ltb_spec (Z.of_nat (List.length (script t) - offset t)) (b + 1));
      [|unfold remaining in Hr; lia].
    eexists _, _. split; [reflexivity|].
    destruct (Hset "opcode requires more bytes than remain"%string).
    cbn [set_err err offset op d]. auto 10.
  - assert (L : opcode.length (opcode.opcodeArray b) = -1)
      by (rewrite Hb; reflexivity).
    rewrite L.
    change (-1 =? 1) with false. change (1 <? -1) with false.
    change (-1 <? 0) with true. change (- -1) with 1.
    change (-1 =? -1) with true. cbv iota.
    unfold BA.from. rewrite length_skipn.
    destruct (Z.ltb_spec (Z.of_nat (List.length (script t) - (offset t + 1))) 1).
    + eexists _, _. split; [reflexivity|].
      destruct (Hset "opcode requires more bytes than remain"%string).
      cbn [set_err err offset op d]. auto 10.
    + destruct Hr as [Hr|Hr]; [unfold remaining in Hr; lia|].
      assert (A : BA.at_ 0 (skipn (offset t + 1) (script t)) =
                  BA.at_ (offset t + 1) (script t)).
      { unfold BA.at_. rewrite nth_skipn, Nat.add_0_r. reflexivity. }
      rewrite A. rewrite length_skipn, length_skipn.
      change (Z.to_nat 1) with 1%nat.
      match goal with
      | |- context [(?x <? ?y) || ?z] =>
          replace ((x <? y) || z) with true
      end.
      2:{ symmetry. apply orb_true_iff. left. apply Z.ltb_lt.
          unfold remaining in Hr. lia. }
      eexists _, _. split; [reflexivity|].
      destruct (Hset "opcode pushes more bytes than remain"%string).
      cbn [set_err err offset op d]. auto 10.
Qed.

Lemma truncated_push_is_an_error_witness :
  exists t' m,
    next (init 0 [20; 1; 2]) = Ok (false, t') /\
    err t' = Some m /\ offset t' = 0%nat /\ done t' = true.
Proof.
  destruct (truncated_push_is_an_error (init 0 [20; 1; 2]))
    as (t' & m & N & E & O & _ & _ & D & _).
  - reflexivity.
  - left. vm_compute. split; [split; discriminate|reflexivity].
  - exists t', m. auto.
Defined.

End TokenizerProps.

(** ** Scripts of plain opcodes and direct data pushes *)

Module TokenizerRoundTrip.

Import Tokenizer.

(** A token as it is written into a script: the opcode byte, then its
    data. *)
Definition item : Type := Z * bytes.

Fixpoint encode (items : list item) : bytes :=
  match items with
  | [] => []
  | (o, data) :: r => o :: data ++ encode r
  end.

(** An opcode without payload, or OP_DATA_n with its [n] bytes. *)
Definition item_ok (it : item) : bool :=
  let '(o, data) := it in
  ((opcode.length (opcode.opcodeArray o) =? 1) &&
   (List.length data =? 0)%nat) ||
  ((1 <=? o) && (o <=? 75) && (Z.of_nat (List.length data) =? o)).

(** The tokens the loop should deliver for [items] written from byte
    [start] on. *)
Fixpoint tokens_from (start : nat) (items : list item) : list token :=
  match items with
  | [] => []
  | (o, data) :: r =>
      {| tok_op := Some o; tok_data := Some data;
         tok_index := (start + (1 + List.length data))%nat;
         tok_len := (1 + List.length data)%nat |}
      :: tokens_from (start + (1 + List.length data)) r
  end.

Lemma opcode_length_data (o : Z) :
  1 <= o <= 75 -> opcode.length (opcode.opcodeArray o) = o + 1.
Proof.
  intros H. unfold opcode.opcodeArray, opcode.OP_DATA_1, opcode.OP_DATA_75.
  cbn. destruct (Z.leb_spec 1 o); [|lia].
  destruct (Z.leb_spec o 75); [|lia]. reflexivity.
Qed.

Lemma skipn_prefix {A} (pre x : list A) : skipn (List.length pre) (pre ++ x) = x.
Proof.
  rewrite skipn_app, skipn_all, Nat.sub_diag. reflexivity.
Qed.

Lemma next_on_item (pre rest : bytes) (o : Z) (data : bytes) (t : ScriptTokenizer) :
  script t = pre ++ o :: data ++ rest ->
  offset t = List.length pre ->
  err t = None ->
  item_ok (o, data) = true ->
  next t = Ok (true, advance t (1 + List.length data) (opcode.opcodeArray o) data).
Proof.
  intros Hs Ho He Hok. unfold next, done.
  rewrite He, Hs, Ho. cbn [is_some orb].
  rewrite length_app. cbn [List.length].
  destruct (Nat.leb_spec (List.length pre + S (List.length (data ++ rest)))
              (List.length pre)); [lia|].
  unfold BA.at_. rewrite nth_middle.
  unfold item_ok in Hok. apply orb_true_iff in Hok as [Hok|Hok].
  - apply andb_true_iff in Hok as [H1 H2]. rewrite H1.
    apply Nat.eqb_eq in H2. destruct data; [|discriminate]. reflexivity.
  - apply andb_true_iff in Hok as [Hok H3].
    apply andb_true_iff in Hok as [H1 H2].
    apply Z.leb_le in H1, H2. apply Z.eqb_eq in H3.
    rewrite (opcode_length_data o) by lia.
    destruct (Z.eqb_spec (o + 1) 1); [lia|].
    destruct (Z.ltb_spec 1 (o + 1)); [|lia].
    unfold BA.from. rewrite skipn_prefix.
    cbn [List.length]. rewrite length_app.
    destruct (Z.ltb_spec
                (Z.of_nat (S (List.length data + List.length rest))) (o + 1));
      [lia|].
    replace (Z.to_nat (o + 1)) with (1 + List.length data)%nat by lia.
    unfold BA.slice. cbn [skipn Nat.add Nat.sub].
    rewrite Nat.sub_0_r, firstn_app, firstn_all, Nat.sub_diag, firstn_O,
      app_nil_r.
    reflexivity.
Qed.

Lemma run_on_items :
  forall items fuel pre t acc,
    script t = pre ++ encode items ->
    offset t = List.length pre ->
    err t = None ->
    forallb item_ok items = true ->
    (List.length items < fuel)%nat ->
    exists t',
      run fuel t acc = Some (Ok (t', acc ++ tokens_from (List.length pre) items)) /\
      script t' = script t /\ offset t' = List.length (script t) /\
      err t' = None.
Proof.
  induction items as [|[o data] r IH]; intros fuel pre t acc Hs Ho He Hok F.
  - destruct fuel as [|f]; [cbn in F; lia|].
    cbn [encode] in Hs. rewrite app_nil_r in Hs.
    cbn [run]. unfold next, done. rewrite He, Hs, Ho, Nat.leb_refl.
    cbn. rewrite app_nil_r. exists t. rewrite Hs. auto.
  - destruct fuel as [|f]; [cbn in F; lia|].
    cbn [forallb] in Hok. apply andb_true_iff in Hok as [Hit Hr].
    cbn [encode] in Hs.
    cbn [run]. rewrite (next_on_item pre (encode r) o data t Hs Ho He Hit).
    set (t1 := advance t (1 + List.length data) (opcode.opcodeArray o) data).
    destruct (IH f (pre ++ o :: data) t1
                (acc ++ [{| tok_op := opcode_ t1; tok_data := Tokenizer.data t1;
                            tok_index := byteIndex t1;
                            tok_len := (offset t1 - offset t)%nat |}]))
      as (t' & Hrun & Hs' & Ho' & He').
    + cbn [t1 advance script]. rewrite Hs, <- app_assoc. reflexivity.
    + cbn [t1 advance offset]. rewrite Ho, length_app. cbn [List.length]. lia.
    + exact He.
    + exact Hr.
    + cbn [List.length] in F. lia.
    + exists t'. split; [|auto].
      rewrite Hrun, <- app_assoc. do 3 f_equal.
      cbn [tokens_from app].
      * cbn [t1 advance opcode_ op option_map opcode.opcodeArray opcode.value
                Tokenizer.data d byteIndex offset].
        rewrite Ho.
        replace (List.length pre + (1 + List.length data) - List.length pre)%nat
          with (1 + List.length data)%nat by lia.
        replace (List.length (pre ++ o :: data))
          with (List.length pre + (1 + List.length data))%nat
          by (rewrite length_app; cbn [List.length]; lia).
        reflexivity.
Qed.

Lemma encode_length (items : list item) :
  (List.length items <= List.length (encode items))%nat.
Proof.
  induction items as [|[o data] r IH]; cbn [encode List.length]; [lia|].
  rewrite length_app. lia.
Qed.

Lemma sum_tokens_from (items : list item) :
  forall start,
    sum_lengths (tokens_from start items) = List.length (encode items).
Proof.
  induction items as [|[o data] r IH]; intros start; [reflexivity|].
  cbn [tokens_from encode List.length].
  change (sum_lengths (?k :: ?l)) with (tok_len k + sum_lengths l)%nat.
  rewrite IH, length_app. cbn [tok_len]. lia.
Qed.

Lemma tokens_from_items (items : list item) :
  forall start,
    map (fun k => (tok_op k, tok_data k)) (tokens_from start items) =
    map (fun it => (Some (fst it), Some (snd it))) items.
Proof.
  induction items as [|[o data] r IH]; intros start; [reflexivity|].
  cbn [tokens_from map tok_op tok_data fst snd]. f_equal. apply IH.
Qed.

(** X3. A script written as a sequence of opcodes without payload and
    OP_DATA_n pushes, each with its [n] bytes, is tokenized back into
    exactly those opcodes and data, with no error, [byteIndex] at the
    script length and token lengths that add up to it. *)
Theorem tokenize_encode (v : Z) (items : list item) :
  forallb item_ok items = true ->
  exists t,
    tokenize v (encode items) = Some (Ok (t, tokens_from 0 items)) /\
    map (fun k => (tok_op k, tok_data k)) (tokens_from 0 items) =
      map (fun it => (Some (fst it), Some (snd it))) items /\
    err t = None /\
    byteIndex t = List.length (encode items) /\
    sum_lengths (tokens_from 0 items) = List.length (encode items).
Proof.
  intros Hok.
  destruct (run_on_items items (S (List.length (encode items))) []
              (init v (encode items)) [])
    as (t & Hrun & Hs & Ho & He); try reflexivity; try assumption.
  - pose proof (encode_length items). lia.
  - exists t. split; [exact Hrun|].
    split; [apply tokens_from_items|].
    split; [exact He|split; [exact Ho|apply sum_tokens_from]].
Qed.

Definition p2pkh_items : list item :=
  [(opcode.OP_DUP, []); (opcode.OP_HASH160, []);
   (opcode.OP_DATA_20, repeat 7 20);
   (opcode.OP_EQUALVERIFY, []); (opcode.OP_CHECKSIG, [])].

Lemma tokenize_encode_witness :
  exists t,
    tokenize 0 (encode p2pkh_items) = Some (Ok (t, tokens_from 0 p2pkh_items)) /\
    err t = None /\ byteIndex t = 25%nat.
Proof.
  destruct (tokenize_encode 0 p2pkh_items eq_refl) as (t & H1 & _ & H2 & H3 & _).
  exists t. auto.
Defined.

End TokenizerRoundTrip.

(** ** Building scripts: [addData] and the pay-to scripts *)

Module ScriptBuild.

Import Tokenizer.

Definition len (b : bytes) : Z := Z.of_nat (List.length b).

(** [b += v] of a byte string and an integer appends [ByteArray(v)]. *)
Definition addData (data : bytes) : bytes :=
  let dataLen := len data in
  if (dataLen =? 0) || ((dataLen =? 1) && (BA.at_ 0 data =? 0))
  then BA.of_int opcode.OP_0
  else if (dataLen =? 1) && (BA.at_ 0 data <=? 16)
  then BA.of_int (opcode.OP_1 - 1 + BA.at_ 0 data)
  else if (dataLen =? 1) && (BA.at_ 0 data =? 129)
  then BA.of_int opcode.OP_1NEGATE
  else
    (if dataLen <? opcode.OP_PUSHDATA1
     then BA.of_int ((opcode.OP_DATA_1 - 1) + dataLen)
     else if dataLen <=? 255
     then BA.of_int opcode.OP_PUSHDATA1 ++ BA.of_int dataLen
     else if dataLen <=? 65535
     then BA.of_int opcode.OP_PUSHDATA2 ++ BA.littleEndian (BA.of_int dataLen)
     else BA.of_int opcode.OP_PUSHDATA4 ++
          BA.littleEndian (BA.of_int_len dataLen 4))
    ++ data.

Definition payToPubKeyHashScript (pkHash : bytes) : result bytes :=
  if negb (len pkHash =? 20)
  then Raise "cannot create script with pubkey hash length other than 20"
  else
    Ok (BA.of_int opcode.OP_DUP ++ BA.of_int opcode.OP_HASH160 ++
        addData pkHash ++
        BA.of_int opcode.OP_EQUALVERIFY ++ BA.of_int opcode.OP_CHECKSIG).

Definition payToScriptHashScript (scriptHash : bytes) : bytes :=
  BA.of_int opcode.OP_HASH160 ++ addData scriptHash ++
  BA.of_int opcode.OP_EQUAL.

Definition payToPubKeyScript (serializedPubKey : bytes) : bytes :=
  addData serializedPubKey ++ BA.of_int opcode.OP_CHECKSIG.

(** *** The length prefix of [addData] *)

Lemma of_int_small (v : Z) : 0 <= v < 256 -> BA.of_int v = [v].
Proof.
  intros H. destruct (Sig.of_int_spec v (proj1 H)) as (Hi & Hb & Hne & Hl).
  specialize (Hl 1%nat (le_n 1) (proj2 H)).
  destruct (BA.of_int v) as [|x [|y r]]; [congruence| |cbn in Hl; lia].
  unfold BA.int in Hi. cbn in Hi. congruence.
Qed.

Lemma of_int_two (v : Z) :
  256 <= v <= 65535 ->
  List.length (BA.of_int v) = 2%nat /\ BA.int (BA.of_int v) = v.
Proof.
  intros H. destruct (Sig.of_int_spec v) as (Hi & Hb & Hne & Hl); [lia|].
  split; [|exact Hi].
  assert (L2 : (List.length (BA.of_int v) <= 2)%nat).
  { apply Hl; [lia|]. change (256 ^ Z.of_nat 2) with 65536. lia. }
  destruct (BA.of_int v) as [|x [|y [|z r]]]; [congruence| |reflexivity|
                                                 cbn in L2; lia].
  unfold BA.int in Hi. cbn in Hi.
  inversion Hb as [|? ? Hx _]; subst. unfold is_byte in Hx. lia.
Qed.

Lemma int_be_fixed (n : nat) :
  forall v, BA.int (BA.be_fixed n v) = v mod 256 ^ Z.of_nat n.
Proof.
  unfold BA.int. induction n as [|n IH]; intros v.
  - cbn. rewrite Z.mod_1_r. reflexivity.
  - cbn [BA.be_fixed]. rewrite Sig.int_acc_app, IH. cbn [BA.int_acc].
    replace (Z.of_nat (S n)) with (1 + Z.of_nat n) by lia.
    rewrite Z.pow_add_r by lia. change (256 ^ 1) with 256.
    rewrite Z.rem_mul_r by (try apply Z.pow_nonzero; lia).
    lia.
Qed.

(** *** One call of [next] on a push-data opcode *)

Lemma next_on_pushdata (pre lenbytes data rest : bytes) (opc : Z) (k : nat)
    (t : ScriptTokenizer) :
  script t = pre ++ opc :: lenbytes ++ data ++ rest ->
  offset t = List.length pre ->
  err t = None ->
  (opc = opcode.OP_PUSHDATA1 /\ k = 1%nat) \/
  (opc = opcode.OP_PUSHDATA2 /\ k = 2%nat) \/
  (opc = opcode.OP_PUSHDATA4 /\ k = 4%nat) ->
  List.length lenbytes = k ->
  BA.unLittle_int lenbytes = len data ->
  next t =
  Ok (false,
      advance t (1 + k + List.length data) (opcode.opcodeArray opc) data).
Proof.
  intros Hs Ho He Hop Hk Hv. unfold next, done.
  rewrite He, Hs, Ho. cbn [is_some orb].
  rewrite length_app. cbn [List.length].
  destruct (Nat.leb_spec
              (List.length pre + S (List.length (lenbytes ++ data ++ rest)))
              (List.length pre)); [lia|].
  unfold BA.at_. rewrite nth_middle.
  assert (L : opcode.length (opcode.opcodeArray opc) = - Z.of_nat k).
  { destruct Hop as [[-> ->]|[[-> ->]|[-> ->]]]; reflexivity. }
  rewrite L.
  assert (K : (1 <= k <= 4)%nat) by (destruct Hop as [[_ ->]|[[_ ->]|[_ ->]]]; lia).
  destruct (Z.eqb_spec (- Z.of_nat k) 1); [lia|].
  destruct (Z.ltb_spec 1 (- Z.of_nat k)); [lia|].
  destruct (Z.ltb_spec (- Z.of_nat k) 0); [|lia].
  unfold BA.from.
  replace (List.length pre + 1)%nat with (List.length (pre ++ [opc]))
    by (rewrite length_app; reflexivity).
  replace (pre ++ opc :: lenbytes ++ data ++ rest)
    with ((pre ++ [opc]) ++ lenbytes ++ data ++ rest)
    by (rewrite <- app_assoc; reflexivity).
  rewrite TokenizerRoundTrip.skipn_prefix.
  rewrite Z.opp_involutive, Nat2Z.id.
  rewrite !length_app, Hk.
  destruct (Z.ltb_spec
              (Z.of_nat (k + (List.length data + List.length rest)))
              (Z.of_nat k)); [lia|].
  assert (Hd : (if - Z.of_nat k =? -1
                then Some (nth 0 (lenbytes ++ data ++ rest) 0)
                else if - Z.of_nat k =? -2
                then Some (BA.unLittle_int
                             (BA.upto 2 (lenbytes ++ data ++ rest)))
                else if - Z.of_nat k =? -4
                then Some (BA.unLittle_int
                             (BA.upto 4 (lenbytes ++ data ++ rest)))
                else None) = Some (len data)).
  { rewrite <- Hv. unfold BA.upto.
    destruct Hop as [[_ ->]|[[_ ->]|[_ ->]]]; cbn [Z.of_nat Z.opp Z.eqb
      Pos.of_succ_nat Pos.succ Pos.eqb].
    - destruct lenbytes as [|x [|? ?]]; try discriminate.
      unfold BA.unLittle_int, BA.int. cbn. reflexivity.
    - rewrite <- Hk at 1.
      rewrite firstn_app, firstn_all, Nat.sub_diag, firstn_O, app_nil_r.
      reflexivity.
    - rewrite <- Hk at 1.
      rewrite firstn_app, firstn_all, Nat.sub_diag, firstn_O, app_nil_r.
      reflexivity. }
  rewrite Hd.
  replace (skipn k (lenbytes ++ data ++ rest)) with (data ++ rest)
    by (rewrite <- Hk, TokenizerRoundTrip.skipn_prefix; reflexivity).
  rewrite length_app. unfold len.
  destruct (Z.ltb_spec (Z.of_nat (List.length data + List.length rest))
              (Z.of_nat (List.length data))); [lia|].
  destruct (Z.ltb_spec (Z.of_nat (List.length data)) 0); [lia|].
  cbn [orb]. rewrite Nat2Z.id.
  unfold BA.upto.
  rewrite firstn_app, firstn_all, Nat.sub_diag, firstn_O, app_nil_r.
  replace (Z.to_nat (1 - - Z.of_nat k + Z.of_nat (List.length data)))
    with (1 + k + List.length data)%nat by lia.
  reflexivity.
Qed.

(** Data that [addData] replaces by a small-integer opcode instead of
    pushing it. *)
Definition small_int_data (data : bytes) : bool :=
  (len data =? 0) ||
  ((len data =? 1) &&
   ((BA.at_ 0 data =? 0) || (BA.at_ 0 data <=? 16) || (BA.at_ 0 data =? 129))).

Lemma addData_pushed (data : bytes) :
  small_int_data data = false ->
  addData data =
    (if len data <? opcode.OP_PUSHDATA1
     then BA.of_int ((opcode.OP_DATA_1 - 1) + len data)
     else if len data <=? 255
     then BA.of_int opcode.OP_PUSHDATA1 ++ BA.of_int (len data)
     else if len data <=? 65535
     then BA.of_int opcode.OP_PUSHDATA2 ++ BA.littleEndian (BA.of_int (len data))
     else BA.of_int opcode.OP_PUSHDATA4 ++
          BA.littleEndian (BA.of_int_len (len data) 4))
    ++ data.
Proof.
  unfold small_int_data, addData. cbv zeta. intros H.
  apply orb_false_iff in H as [H0 H1]. rewrite H0. cbn [orb].
  destruct (len data =? 1); cbn [andb] in *; [|reflexivity].
  apply orb_false_iff in H1 as [H1 H3].
  apply orb_false_iff in H1 as [H1 H2].
  rewrite H1, H2, H3. reflexivity.
Qed.

(** X4. [addData] and the tokenizer agree on every push: after one call
    of [next] on the script [addData(data)], for data that is not turned
    into a small-integer opcode and is shorter than 2^32 bytes, [data()]
    is the data that was added, [byteIndex] is at the end of the script
    and no error is recorded.  The call returns [True] only for the direct
    pushes of fewer than 76 bytes; for the OP_PUSHDATA forms it returns
    [False]. *)
Theorem addData_then_next (v : Z) (data : bytes) :
  small_int_data data = false ->
  len data < 2 ^ 32 ->
  exists b t',
    next (init v (addData data)) = Ok (b, t') /\
    Tokenizer.data t' = Some data /\
    byteIndex t' = List.length (addData data) /\
    err t' = None /\
    (b = true <-> len data < 76).
Proof.
  intros Hs Hlt. rewrite (addData_pushed data Hs).
  assert (Hpos : 1 <= len data).
  { unfold small_int_data in Hs. apply orb_false_iff in Hs as [H0 _].
    apply Z.eqb_neq in H0. unfold len in *. lia. }
  change opcode.OP_PUSHDATA1 with 76. change (opcode.OP_DATA_1 - 1) with 0.
  change opcode.OP_PUSHDATA2 with 77. change opcode.OP_PUSHDATA4 with 78.
  rewrite Z.add_0_l.
  destruct (Z.ltb_spec (len data) 76) as [H76|H76].
  - rewrite of_int_small by lia.
    set (t := init v ([len data] ++ data)).
    pose proof (TokenizerRoundTrip.next_on_item [] [] (len data) data t) as N.
    rewrite N.
    + eexists _, _. split; [reflexivity|].
      cbn [advance Tokenizer.data d byteIndex offset err t init].
      repeat split; try reflexivity; auto.
    + cbn. rewrite app_nil_r. reflexivity.
    + reflexivity.
    + reflexivity.
    + unfold TokenizerRoundTrip.item_ok. apply orb_true_iff. right.
      unfold len in *.
      destruct (Z.leb_spec 1 (Z.of_nat (List.length data))); [|lia].
      destruct (Z.leb_spec (Z.of_nat (List.length data)) 75); [|lia].
      rewrite Z.eqb_refl. reflexivity.
  - assert (Hfin : forall lenbytes opc k,
              (opc = opcode.OP_PUSHDATA1 /\ k = 1%nat) \/
              (opc = opcode.OP_PUSHDATA2 /\ k = 2%nat) \/
              (opc = opcode.OP_PUSHDATA4 /\ k = 4%nat) ->
              List.length lenbytes = k ->
              BA.unLittle_int lenbytes = len data ->
              exists b t',
                next (init v (([opc] ++ lenbytes) ++ data)) = Ok (b, t') /\
                Tokenizer.data t' = Some data /\
                byteIndex t' = List.length (([opc] ++ lenbytes) ++ data) /\
                err t' = None /\ (b = true <-> len data < 76)).
    { intros lenbytes opc k Hop Hk Hv.
      set (t := init v (([opc] ++ lenbytes) ++ data)).
      pose proof (next_on_pushdata [] lenbytes data [] opc k t) as N.
      rewrite N; try assumption; try reflexivity.
      2:{ cbn. rewrite app_nil_r. reflexivity. }
      eexists _, _. split; [reflexivity|].
      cbn [advance Tokenizer.data d byteIndex offset err t init].
      split; [reflexivity|]. split.
      - rewrite !length_app, Hk. cbn [List.length]. lia.
      - split; [reflexivity|]. split; [discriminate|lia]. }
    destruct (Z.leb_spec (len data) 255) as [H255|H255].
    + rewrite (of_int_small 76) by lia. rewrite of_int_small by lia.
      apply (Hfin [len data] 76 1%nat); auto.
    + destruct (Z.leb_spec (len data) 65535) as [H16|H16].
      * rewrite (of_int_small 77) by lia.
        destruct (of_int_two (len data)) as [L2 I2]; [lia|].
        apply (Hfin (BA.littleEndian (BA.of_int (len data))) 77 2%nat);
          [auto| |].
        -- unfold BA.littleEndian. rewrite length_rev. exact L2.
        -- unfold BA.unLittle_int, BA.littleEndian. rewrite rev_involutive.
           exact I2.
      * rewrite (of_int_small 78) by lia.
        apply (Hfin (BA.littleEndian (BA.of_int_len (len data) 4)) 78 4%nat);
          [auto 6| |].
        -- unfold BA.littleEndian, BA.of_int_len.
           rewrite length_rev. apply SigHash.be_fixed_length.
        -- unfold BA.unLittle_int, BA.littleEndian, BA.of_int_len.
           rewrite rev_involutive, int_be_fixed.
           apply Z.mod_small. change (256 ^ Z.of_nat 4) with (2 ^ 32). lia.
Qed.

Lemma addData_then_next_witness :
  exists b t',
    next (init 0 (addData (repeat 5 80))) = Ok (b, t') /\
    Tokenizer.data t' = Some (repeat 5 80) /\
    byteIndex t' = 82%nat /\ b = false.
Proof.
  destruct (addData_then_next 0 (repeat 5 80)) as (b & t' & N & D & I & _ & B).
  - reflexivity.
  - reflexivity.
  - exists b, t'. split; [exact N|]. split; [exact D|]. split; [exact I|].
    destruct b; [|reflexivity].
    exfalso. assert (H : len (repeat 5 80) < 76) by (apply B; reflexivity).
    vm_compute in H. discriminate H.
Defined.

(** X5. [payToPubKeyHashScript] refuses every hash that is not 20 bytes
    long; for a 20-byte hash it builds the 25-byte pay-to-pubkey-hash
    script, from which [extractPubKeyHash] returns the same hash. *)
Theorem payToPubKeyHashScript_round_trip (h : bytes) :
  (List.length h = 20%nat ->
   payToPubKeyHashScript h = Ok (Classifier.payToPubKeyHash h) /\
   List.length (Classifier.payToPubKeyHash h) = 25%nat /\
   Classifier.extractPubKeyHash (Classifier.payToPubKeyHash h) = Some h) /\
  (List.length h <> 20%nat ->
   exists m, payToPubKeyHashScript h = Raise m).
Proof.
  split.
  - intros H. Classifier.twenty_bytes h H. repeat split; reflexivity.
  - intros H. unfold payToPubKeyHashScript, len.
    destruct (Z.eqb_spec (Z.of_nat (List.length h)) 20); [lia|].
    cbn [negb]. eauto.
Qed.

Lemma payToPubKeyHashScript_round_trip_witness :
  payToPubKeyHashScript (repeat 9 20) =
    Ok (Classifier.payToPubKeyHash (repeat 9 20)) /\
  exists m, payToPubKeyHashScript (repeat 9 19) = Raise m.
Proof.
  split.
  - apply (proj1 (payToPubKeyHashScript_round_trip (repeat 9 20))). reflexivity.
  - apply (proj2 (payToPubKeyHashScript_round_trip (repeat 9 19))).
    cbn. lia.
Defined.

Lemma addData_length (data : bytes) :
  List.length (addData data) = 21%nat -> List.length data = 20%nat.
Proof.
  destruct (small_int_data data) eqn:Hsm.
  - unfold small_int_data in Hsm. unfold addData. cbv zeta.
    destruct (len data =? 0) eqn:E0; cbn [orb andb] in *;
      [intros H; discriminate H|].
    destruct (len data =? 1) eqn:E1; cbn [andb] in *; [|discriminate Hsm].
    destruct (BA.at_ 0 data =? 0) eqn:A0; cbn [orb] in *;
      [intros H; discriminate H|].
    destruct (BA.at_ 0 data <=? 16) eqn:A1; cbn [orb] in *.
    + apply Z.leb_le in A1. unfold BA.of_int.
      replace (Z.to_nat (Z.log2 (opcode.OP_1 - 1 + BA.at_ 0 data)) + 1)%nat
        with (S (Z.to_nat (Z.log2 (opcode.OP_1 - 1 + BA.at_ 0 data)))) by lia.
      cbn [BA.be_digits].
      destruct (Z.ltb_spec (opcode.OP_1 - 1 + BA.at_ 0 data) 256) as [Hlt|Hge];
        [intros E; discriminate E|].
      unfold opcode.OP_1 in *. lia.
    + rewrite Hsm. intros E; discriminate E.
  - rewrite (addData_pushed data Hsm). change opcode.OP_PUSHDATA1 with 76.
    change (opcode.OP_DATA_1 - 1) with 0. rewrite Z.add_0_l.
    assert (Hpos : 1 <= len data).
    { unfold small_int_data in Hsm. apply orb_false_iff in Hsm as [H0 _].
      apply Z.eqb_neq in H0. unfold len in *. lia. }
    rewrite !length_app.
    destruct (Z.ltb_spec (len data) 76).
    + rewrite of_int_small by lia. cbn [List.length]. lia.
    + unfold len in *. intros; lia.
Qed.

(** X6. [payToScriptHashScript] builds a script for a hash of any length
    without complaint, and [extractScriptHash] recognizes the script (and
    returns the hash) exactly when the hash has 20 bytes. *)
Theorem payToScriptHashScript_recognized_iff_20 (h : bytes) :
  Classifier.extractScriptHash (payToScriptHashScript h) =
  if (List.length h =? 20)%nat then Some h else None.
Proof.
  destruct (Nat.eqb_spec (List.length h) 20) as [H|H].
  - Classifier.twenty_bytes h H. reflexivity.
  - unfold Classifier.extractScriptHash, payToScriptHashScript.
    replace (Classifier.len _ =? 23) with false; [reflexivity|].
    symmetry. apply Z.eqb_neq. unfold Classifier.len.
    rewrite !length_app. cbn [List.length BA.of_int].
    intros E. apply H, addData_length.
    change (List.length (BA.of_int opcode.OP_HASH160)) with 1%nat in E.
    change (List.length (BA.of_int opcode.OP_EQUAL)) with 1%nat in E.
    lia.
Qed.

Ltac one_byte k H := destruct k as [|? k]; [discriminate H|].

(** X7. [payToPubKeyScript] of a compressed public key (33 bytes starting
    0x02 or 0x03) or an uncompressed one (65 bytes starting 0x04) is a
    script from which [extractPubKey] returns that key. *)
Theorem payToPubKeyScript_round_trip (k : bytes) :
  (List.length k = 33%nat /\ (BA.at_ 0 k = 2 \/ BA.at_ 0 k = 3)) \/
  (List.length k = 65%nat /\ BA.at_ 0 k = 4) ->
  Classifier.extractPubKey (payToPubKeyScript k) = Some k.
Proof.
  intros [[H A]|[H A]].
  - do 33 (one_byte k H). destruct k; [clear H|discriminate H].
    cbn [BA.at_ nth] in A.
    destruct A as [-> | ->]; reflexivity.
  - do 65 (one_byte k H). destruct k; [clear H|discriminate H].
    cbn [BA.at_ nth] in A. subst. reflexivity.
Qed.

Lemma payToPubKeyScript_round_trip_witness :
  Classifier.extractPubKey (payToPubKeyScript (3 :: repeat 8 32)) =
  Some (3 :: repeat 8 32).
Proof.
  apply payToPubKeyScript_round_trip. left. split; [reflexivity|].
  right. reflexivity.
Defined.

End ScriptBuild.

(** ** ScriptClassifier: templates and classes *)

Module ClassifierProps.

Import Classifier.

Definition isPubKeyHashScript (script : bytes) : bool :=
  match extractPubKeyHash script with Some _ => true | None => false end.

Definition typeOfScript (scriptVersion : Z) (script : bytes) : Z :=
  if negb (scriptVersion =? 0) then NonStandardTy
  else if isPubKeyHashScript script then PubKeyHashTy
  else NonStandardTy.

Definition getScriptClass (version : Z) (script : bytes) : Z :=
  if negb (version =? 0) then NonStandardTy
  else typeOfScript version script.

Lemma length_25 (s : bytes) :
  List.length s = 25%nat ->
  exists a b c h x y,
    s = [a; b; c] ++ h ++ [x; y] /\ List.length h = 20%nat.
Proof.
  intros H.
  destruct s as [|a [|b [|c s]]]; try discriminate H.
  exists a, b, c, (firstn 20 s), (nth 20 s 0), (nth 21 s 0).
  do 22 (destruct s as [|? s]; [discriminate H|]).
  destruct s; [|discriminate H]. split; reflexivity.
Qed.

Lemma length_23 (s : bytes) :
  List.length s = 23%nat ->
  exists a b h x, s = [a; b] ++ h ++ [x] /\ List.length h = 20%nat.
Proof.
  intros H.
  destruct s as [|a [|b s]]; try discriminate H.
  exists a, b, (firstn 20 s), (nth 20 s 0).
  do 21 (destruct s as [|? s]; [discriminate H|]).
  destruct s; [|discriminate H]. split; reflexivity.
Qed.

Lemma extract_hash_iff (s h : bytes) :
  (extractPubKeyHash s = Some h <->
   s = payToPubKeyHash h /\ List.length h = 20%nat) /\
  (extractScriptHash s = Some h <->
   s = payToScriptHash h /\ List.length h = 20%nat).
Proof.
  split; split.
  - unfold extractPubKeyHash. intros H.
    destruct (len s =? 25) eqn:L; [|discriminate H].
    apply Z.eqb_eq in L. unfold len in L.
    destruct (length_25 s) as (a & b & c & h' & x & y & -> & Lh); [lia|].
    twenty_bytes h' Lh. cbn in H.
    match type of H with
    | (if ?c then _ else _) = _ => destruct c eqn:E; [|discriminate H]
    end.
    repeat match type of E with
           | _ && _ = true =>
               let E' := fresh in
               apply andb_true_iff in E as [E E']; apply Z.eqb_eq in E'
           end.
    apply Z.eqb_eq in E.
    inversion H; subst. split; reflexivity.
  - intros [-> L]. twenty_bytes h L. reflexivity.
  - unfold extractScriptHash. intros H.
    destruct (len s =? 23) eqn:L; [|discriminate H].
    apply Z.eqb_eq in L. unfold len in L.
    destruct (length_23 s) as (a & b & h' & x & -> & Lh); [lia|].
    twenty_bytes h' Lh. cbn in H.
    match type of H with
    | (if ?c then _ else _) = _ => destruct c eqn:E; [|discriminate H]
    end.
    repeat match type of E with
           | _ && _ = true =>
               let E' := fresh in
               apply andb_true_iff in E as [E E']; apply Z.eqb_eq in E'
           end.
    apply Z.eqb_eq in E.
    inversion H; subst. split; reflexivity.
  - intros [-> L]. twenty_bytes h L. reflexivity.
Qed.

(** X8. [extractPubKeyHash] returns a hash exactly for the 25-byte script
    OP_DUP OP_HASH160 OP_DATA_20 <20 bytes> OP_EQUALVERIFY OP_CHECKSIG, and
    [extractScriptHash] exactly for the 23-byte script
    OP_HASH160 OP_DATA_20 <20 bytes> OP_EQUAL; the hash returned is those
    20 bytes. *)
Theorem hash_templates_exact (s h : bytes) :
  (extractPubKeyHash s = Some h <->
   s = payToPubKeyHash h /\ List.length h = 20%nat) /\
  (extractScriptHash s = Some h <->
   s = payToScriptHash h /\ List.length h = 20%nat).
Proof. exact (extract_hash_iff s h). Qed.

(** X9. [getScriptClass] knows two classes only: it answers PubKeyHashTy
    exactly for a version-0 pay-to-pubkey-hash script and NonStandardTy
    for everything else, a pay-to-script-hash script included. *)
Theorem getScriptClass_two_classes (version : Z) (s : bytes) :
  (getScriptClass version s = PubKeyHashTy <->
   version = 0 /\
   exists h, List.length h = 20%nat /\ s = payToPubKeyHash h) /\
  (getScriptClass version s <> PubKeyHashTy ->
   getScriptClass version s = NonStandardTy) /\
  (forall h, List.length h = 20%nat ->
             getScriptClass version (payToScriptHash h) = NonStandardTy).
Proof.
  unfold getScriptClass, typeOfScript, isPubKeyHashScript.
  destruct (Z.eqb_spec version 0) as [->|Hv]; cbn [negb].
  - destruct (extractPubKeyHash s) as [h|] eqn:E.
    + apply (proj1 (extract_hash_iff s h)) in E as [-> L].
      split; [|split].
      * split; [intros _; split; [reflexivity|eauto]|reflexivity].
      * intros N. exfalso. apply N. reflexivity.
      * intros h' L'. twenty_bytes h' L'. reflexivity.
    + split; [|split].
      * split; [discriminate|].
        intros [_ (h & L & ->)].
        assert (extractPubKeyHash (payToPubKeyHash h) = Some h)
          by (apply extract_hash_iff; auto).
        congruence.
      * reflexivity.
      * intros h' L'. twenty_bytes h' L'. reflexivity.
  - split; [|split].
    + split; [discriminate|intros [E _]; contradiction].
    + reflexivity.
    + reflexivity.
Qed.

Lemma getScriptClass_two_classes_witness :
  getScriptClass 0 (payToPubKeyHash (repeat 1 20)) = PubKeyHashTy /\
  getScriptClass 0 (payToScriptHash (repeat 1 20)) = NonStandardTy.
Proof.
  split.
  - apply (proj1 (getScriptClass_two_classes 0 _)). split; [reflexivity|].
    exists (repeat 1 20). split; reflexivity.
  - apply (proj2 (proj2 (getScriptClass_two_classes 0 []))). reflexivity.
Defined.

Lemma hash_templates_exact_witness :
  extractPubKeyHash (payToPubKeyHash (repeat 1 20)) = Some (repeat 1 20).
Proof.
  apply (proj1 (hash_templates_exact _ _)). split; reflexivity.
Defined.

End ClassifierProps.

(** ** ScriptClassifier: multisig scripts and address extraction *)

Module ClassifierMore.

Import Classifier.

(** A direct push of a public key, and the standard multisig script
    <required> <keys...> <number of keys> OP_CHECKMULTISIG. *)
Definition push (pk : bytes) : bytes := Z.of_nat (List.length pk) :: pk.

Definition small_int_opcode (n : nat) : Z :=
  match n with
  | O => opcode.OP_0
  | _ => opcode.OP_1 - 1 + Z.of_nat n
  end.

Definition multisig_script (required : Z) (pks : list bytes) : bytes :=
  required :: List.concat (map push pks) ++
  [small_int_opcode (List.length pks); opcode.OP_CHECKMULTISIG].

Lemma strict_item (pk : bytes) :
  isStrictPubKeyEncoding pk = true ->
  TokenizerRoundTrip.item_ok (Z.of_nat (List.length pk), pk) = true.
Proof.
  unfold isStrictPubKeyEncoding, len, TokenizerRoundTrip.item_ok. intros H.
  apply orb_true_iff. right. rewrite Z.eqb_refl.
  destruct (Z.eqb_spec (Z.of_nat (List.length pk)) 33) as [->|_]; [reflexivity|].
  destruct (Z.eqb_spec (Z.of_nat (List.length pk)) 65) as [->|_]; [reflexivity|].
  cbn in H. discriminate H.
Qed.

Lemma small_item (m : Z) :
  isSmallInt m = true -> TokenizerRoundTrip.item_ok (m, []) = true.
Proof.
  unfold isSmallInt, TokenizerRoundTrip.item_ok, opcode.opcodeArray,
    opcode.OP_0, opcode.OP_1, opcode.OP_16, opcode.OP_DATA_1,
    opcode.OP_DATA_75, opcode.OP_PUSHDATA1, opcode.OP_PUSHDATA2,
    opcode.OP_PUSHDATA4.
  intros H. apply orb_true_iff. left. cbn [opcode.length List.length Nat.eqb].
  rewrite andb_true_r.
  apply orb_true_iff in H as [H|H].
  - apply Z.eqb_eq in H. subst. reflexivity.
  - apply andb_true_iff in H as [H1 H2]. apply Z.leb_le in H1, H2.
    destruct (Z.leb_spec 1 m); [|lia].
    destruct (Z.leb_spec m 75); [lia|]. cbn [andb].
    destruct (Z.eqb_spec m 76); [lia|].
    destruct (Z.eqb_spec m 77); [lia|].
    destruct (Z.eqb_spec m 78); [lia|]. reflexivity.
Qed.

Lemma small_int_opcode_ok (n : nat) :
  (n <= 16)%nat ->
  isSmallInt (small_int_opcode n) = true /\
  asSmallInt (small_int_opcode n) = Z.of_nat n.
Proof.
  intros H. destruct n as [|n]; [split; reflexivity|].
  unfold small_int_opcode, isSmallInt, asSmallInt, opcode.OP_0, opcode.OP_1,
    opcode.OP_16.
  destruct (Z.eqb_spec (81 - 1 + Z.of_nat (S n)) 0); [lia|].
  destruct (Z.leb_spec 81 (81 - 1 + Z.of_nat (S n))); [|lia].
  destruct (Z.leb_spec (81 - 1 + Z.of_nat (S n)) 96); [|lia].
  split; [reflexivity|lia].
Qed.

Lemma opcode_advance t n o data :
  Tokenizer.opcode_ (Tokenizer.advance t n (opcode.opcodeArray o) data) = Some o.
Proof. reflexivity. Qed.

Lemma pubkey_loop_keys (extractPubKeys : bool) (nb : Z) :
  TokenizerRoundTrip.item_ok (nb, []) = true ->
  forall pks fuel pre t num acc,
    Tokenizer.script t = pre ++ List.concat (map push pks) ++ [nb; 174] ->
    Tokenizer.offset t = List.length pre ->
    Tokenizer.err t = None ->
    forallb isStrictPubKeyEncoding pks = true ->
    (List.length pks < fuel)%nat ->
    exists t',
      pubkey_loop fuel extractPubKeys t num acc =
        Some (Ok (t', num + Z.of_nat (List.length pks),
                  if extractPubKeys then acc ++ pks else acc)) /\
      Tokenizer.script t' = Tokenizer.script t /\
      Tokenizer.offset t' =
        (List.length pre + List.length (List.concat (map push pks)) + 1)%nat /\
      Tokenizer.err t' = None /\
      Tokenizer.opcode_ t' = Some nb.
Proof.
  intros Hnb.
  induction pks as [|pk r IH]; intros fuel pre t num acc Hs Ho He Hok F;
    (destruct fuel as [|f]; [cbn in F; lia|]).
  - cbn [map List.concat app] in Hs. cbn [pubkey_loop].
    rewrite (TokenizerRoundTrip.next_on_item pre [174] nb [] t Hs Ho He Hnb).
    cbn [Tokenizer.data Tokenizer.advance Tokenizer.d isStrictPubKeyEncoding
           List.length negb].
    change (isStrictPubKeyEncoding []) with false. cbn [negb].
    eexists. split.
    + rewrite Z.add_0_r, app_nil_r. destruct extractPubKeys; reflexivity.
    + unfold Tokenizer.advance, Tokenizer.opcode_.
      cbn [Tokenizer.script Tokenizer.offset Tokenizer.err
             Tokenizer.op option_map opcode.opcodeArray opcode.value
             List.concat map List.length].
      rewrite Ho. repeat split; auto; lia.
  - cbn [forallb] in Hok. apply andb_true_iff in Hok as [Hpk Hr].
    cbn [map List.concat] in Hs. unfold push at 1 in Hs.
    rewrite <- app_assoc in Hs. cbn [app] in Hs.
    cbn [pubkey_loop].
    rewrite (TokenizerRoundTrip.next_on_item pre
               (List.concat (map push r) ++ [nb; 174])
               (Z.of_nat (List.length pk)) pk t Hs Ho He (strict_item pk Hpk)).
    cbn [Tokenizer.data Tokenizer.advance Tokenizer.d].
    rewrite Hpk. cbn [negb].
    destruct (IH f (pre ++ Z.of_nat (List.length pk) :: pk)
                (Tokenizer.advance t (1 + List.length pk)
                   (opcode.opcodeArray (Z.of_nat (List.length pk))) pk)
                (num + 1)
                (if extractPubKeys then acc ++ [pk] else acc))
      as (t' & Hl & Hs' & Ho' & He' & Hop').
    + cbn [Tokenizer.advance Tokenizer.script]. rewrite Hs, <- app_assoc.
      reflexivity.
    + cbn [Tokenizer.advance Tokenizer.offset].
      rewrite Ho, length_app. cbn [List.length]. lia.
    + exact He.
    + exact Hr.
    + cbn [List.length] in F. lia.
    + exists t'. split; [|split; [|split; [|split]]].
      * rewrite Hl. do 3 f_equal.
        -- f_equal. cbn [List.length]. lia.
        -- destruct extractPubKeys; [|reflexivity].
           rewrite <- app_assoc. reflexivity.
      * exact Hs'.
      * rewrite Ho'. cbn [map List.concat]. unfold push at 2.
        rewrite !length_app. cbn [List.length]. lia.
      * exact He'.
      * exact Hop'.
Qed.

Lemma multisig_details (required : Z) (pks : list bytes)
    (extractPubKeys : bool) :
  isSmallInt required = true ->
  forallb isStrictPubKeyEncoding pks = true ->
  (List.length pks <= 16)%nat ->
  extractMultisigScriptDetails 0 (multisig_script required pks) extractPubKeys =
  Some (Ok {| requiredSigs := Some (asSmallInt required);
              numPubKeys := Z.of_nat (List.length pks);
              pubKeys := if extractPubKeys then pks else [];
              valid := true |}).
Proof.
  intros Hm Hpks Hn.
  destruct (small_int_opcode_ok _ Hn) as [Hsn Han].
  set (nb := small_int_opcode (List.length pks)) in *.
  unfold extractMultisigScriptDetails. cbn [Z.eqb negb].
  set (s := multisig_script required pks).
  assert (Hlen : List.length s =
                 (1 + List.length (List.concat (map push pks)) + 2)%nat).
  { unfold s, multisig_script. cbn [List.length].
    rewrite length_app. cbn [List.length]. lia. }
  assert (Hlast : BA.at_ (List.length s - 1) s = opcode.OP_CHECKMULTISIG).
  { unfold BA.at_.
    replace s with ((required :: List.concat (map push pks) ++ [nb]) ++
                    [opcode.OP_CHECKMULTISIG]).
    2:{ unfold s, multisig_script. cbn [app]. rewrite <- app_assoc.
        reflexivity. }
    replace (List.length
               ((required :: List.concat (map push pks) ++ [nb]) ++
                [opcode.OP_CHECKMULTISIG]) - 1)%nat
      with (List.length (required :: List.concat (map push pks) ++ [nb])).
    2:{ rewrite length_app. cbn [List.length]. lia. }
    apply nth_middle. }
  rewrite Hlast, Z.eqb_refl. cbn [negb].
  unfold len. destruct (Z.ltb_spec (Z.of_nat (List.length s)) 3); [lia|].
  cbn [orb].
  rewrite (TokenizerRoundTrip.next_on_item []
             (List.concat (map push pks) ++ [nb; 174]) required []
             (Tokenizer.init 0 s)); try reflexivity; [|apply small_item, Hm].
  rewrite opcode_advance, Hm. cbn [negb].
  destruct (pubkey_loop_keys extractPubKeys nb (small_item nb Hsn) pks
              (S (List.length s)) [required]
              (Tokenizer.advance (Tokenizer.init 0 s) (1 + List.length (@nil Z))
                 (opcode.opcodeArray required) []) 0 [])
    as (t' & Hl & Hs' & Ho' & He' & Hop'); try reflexivity; try assumption.
  { assert (List.length pks <= List.length (List.concat (map push pks)))%nat.
    { clear. induction pks as [|pk r IH]; cbn [map List.concat List.length]; [lia|].
      rewrite length_app. unfold push at 1. cbn [List.length]. lia. }
    lia. }
  rewrite Hl.
  cbn [Tokenizer.advance Tokenizer.script Tokenizer.init] in Hs'.
  unfold Tokenizer.done. rewrite He', Hs', Ho'. cbn [Tokenizer.is_some orb].
  destruct (Nat.leb_spec (List.length s)
              (List.length [required] +
               List.length (List.concat (map push pks)) + 1)) as [Hc|Hc];
    [cbn [List.length] in Hc; lia|].
  rewrite Hop', Hsn, Han. cbn [negb orb].
  rewrite Z.add_0_l, Z.eqb_refl. cbn [negb].
  unfold Tokenizer.byteIndex. rewrite Ho'.
  replace (Z.of_nat (List.length s) -
           Z.of_nat (List.length [required] +
                     List.length (List.concat (map push pks)) + 1) =? 1)
    with true.
  2:{ symmetry. apply Z.eqb_eq. cbn [List.length]. lia. }
  cbn [negb]. reflexivity.
Qed.

(** X10. A standard multisig script, a small-integer opcode for the
    required signatures, up to 16 directly pushed public keys in strict
    encoding, the small-integer opcode of their number and
    OP_CHECKMULTISIG, is recognized by [extractMultisigScriptDetails]: the
    details are valid, carry the required number, the number of keys and,
    when asked for, the keys in script order.  The required number is not
    compared with the number of keys. *)
Theorem multisig_script_recognized (required : Z) (pks : list bytes)
    (extractPubKeys : bool) :
  isSmallInt required = true ->
  forallb isStrictPubKeyEncoding pks = true ->
  (List.length pks <= 16)%nat ->
  extractMultisigScriptDetails 0 (multisig_script required pks) extractPubKeys =
  Some (Ok {| requiredSigs := Some (asSmallInt required);
              numPubKeys := Z.of_nat (List.length pks);
              pubKeys := if extractPubKeys then pks else [];
              valid := true |}).
Proof. exact (multisig_details required pks extractPubKeys). Qed.

Definition key02 : bytes := 2 :: repeat 7 32.
Definition key04 : bytes := 4 :: repeat 9 64.

Lemma multisig_script_recognized_witness :
  extractMultisigScriptDetails 0 (multisig_script opcode.OP_1 [key02; key04]) true =
  Some (Ok {| requiredSigs := Some 1; numPubKeys := 2;
              pubKeys := [key02; key04]; valid := true |}).
Proof.
  apply (multisig_script_recognized opcode.OP_1 [key02; key04] true);
    [reflexivity|reflexivity|cbn; lia].
Defined.

Section AddressesOfScripts.

Variable address : Type.
Variable chainParams : Type.
Variable newAddressPubKeyHash : pyarg -> chainParams -> result address.
Variable newAddressScriptHashFromHash : pyarg -> chainParams -> result address.
Variable secpPubKeyAddress : bytes -> chainParams -> result address.

Let extract :=
  extractPkScriptAddrs address chainParams newAddressPubKeyHash
    newAddressScriptHashFromHash secpPubKeyAddress.

Let pkh_result (cls : Z) (h : bytes) (params : chainParams) :=
  Some (l <- pubKeyHashToAddrs address chainParams newAddressPubKeyHash
               (ArgBytes h) params ;;
        Ok (cls, l, Some 1)).

Let sh_result (cls : Z) (h : bytes) (params : chainParams) :=
  Some (l <- scriptHashToAddrs address chainParams
               newAddressScriptHashFromHash (ArgBytes h) params ;;
        Ok (cls, l, Some 1)).

(** X11. At version 0 the pay-to-pubkey-hash and pay-to-script-hash
    scripts, plain or tagged with the stake-generation, stake-revocation
    or stake-change opcode, are classified as such with one required
    signature and the address made from the 20-byte hash in the script;
    the result is whatever the address constructor answers for that
    hash. *)
Theorem hash_scripts_yield_their_hash (params : chainParams) (h : bytes) :
  List.length h = 20%nat ->
  extract 0 (payToPubKeyHash h) params = pkh_result PubKeyHashTy h params /\
  extract 0 (payToScriptHash h) params = sh_result ScriptHashTy h params /\
  extract 0 (stakeTagged opcode.OP_SSGEN (payToPubKeyHash h)) params =
    pkh_result StakeGenTy h params /\
  extract 0 (stakeTagged opcode.OP_SSGEN (payToScriptHash h)) params =
    sh_result StakeGenTy h params /\
  extract 0 (stakeTagged opcode.OP_SSRTX (payToPubKeyHash h)) params =
    pkh_result StakeRevocationTy h params /\
  extract 0 (stakeTagged opcode.OP_SSRTX (payToScriptHash h)) params =
    sh_result StakeRevocationTy h params /\
  extract 0 (stakeTagged opcode.OP_SSTXCHANGE (payToPubKeyHash h)) params =
    pkh_result StakeSubChangeTy h params /\
  extract 0 (stakeTagged opcode.OP_SSTXCHANGE (payToScriptHash h)) params =
    sh_result StakeSubChangeTy h params.
Proof.
  intros H. twenty_bytes h H. repeat split; reflexivity.
Qed.

Lemma first_byte (required : Z) (pks : list bytes) :
  BA.at_ 0 (multisig_script required pks) = required.
Proof. reflexivity. Qed.

(** X12. For a standard multisig script [extractPkScriptAddrs] answers
    class MultiSigTy, the required number of the script, and one address
    per public key in script order; a key the curve refuses makes the
    whole call fail with that key's error. *)
Theorem multisig_addresses (params : chainParams) (required : Z)
    (pks : list bytes) :
  isSmallInt required = true ->
  forallb isStrictPubKeyEncoding pks = true ->
  (List.length pks <= 16)%nat ->
  extract 0 (multisig_script required pks) params =
  Some (l <- pubkeys_to_addrs address chainParams secpPubKeyAddress pks params ;;
        Ok (MultiSigTy, l, Some (asSmallInt required))).
Proof.
  intros Hm Hpks Hn.
  assert (R : required = 0 \/ 81 <= required <= 96).
  { unfold isSmallInt, opcode.OP_0, opcode.OP_1, opcode.OP_16 in Hm.
    apply orb_true_iff in Hm as [E|E]; [left; apply Z.eqb_eq, E|right].
    apply andb_true_iff in E as [E1 E2]. apply Z.leb_le in E1, E2. lia. }
  unfold extract, extractPkScriptAddrs. cbn [Z.eqb negb].
  set (s := multisig_script required pks).
  assert (A0 : BA.at_ 0 s = required) by reflexivity.
  assert (P1 : extractPubKeyHash s = None).
  { unfold extractPubKeyHash. rewrite A0.
    destruct (len s =? 25); [|reflexivity].
    destruct (Z.eqb_spec required opcode.OP_DUP) as [E|_]; [|reflexivity].
    unfold opcode.OP_DUP in E. lia. }
  assert (P2 : extractScriptHash s = None).
  { unfold extractScriptHash. rewrite A0.
    destruct (len s =? 23); [|reflexivity].
    destruct (Z.eqb_spec required opcode.OP_HASH160) as [E|_]; [|reflexivity].
    unfold opcode.OP_HASH160 in E. lia. }
  assert (P3 : extractPubKey s = None).
  { unfold extractPubKey, extractCompressedPubKey, extractUncompressedPubKey.
    rewrite A0.
    destruct (Z.eqb_spec required opcode.OP_DATA_33) as [E|_];
      [unfold opcode.OP_DATA_33 in E; lia|].
    destruct (Z.eqb_spec required opcode.OP_DATA_65) as [E|_];
      [unfold opcode.OP_DATA_65 in E; lia|].
    destruct (len s =? 35), (BA.at_ 34 s =? opcode.OP_CHECKSIG),
      (len s =? 67), (BA.at_ 66 s =? opcode.OP_CHECKSIG); reflexivity. }
  rewrite P1, P2, P3. cbn [BA.truthy].
  fold s. unfold s at 1.
  rewrite (multisig_details required pks true Hm Hpks Hn).
  cbn [valid pubKeys requiredSigs]. reflexivity.
Qed.

End AddressesOfScripts.

Lemma hash_scripts_yield_their_hash_witness :
  extractPkScriptAddrs address unit (newHashAddress AddressPubKeyHash)
    (newHashAddress AddressScriptHash) (fun b _ => Ok (AddressSecpPubKey b))
    0 (stakeTagged opcode.OP_SSRTX (payToScriptHash hash01)) tt =
  Some (Ok (StakeRevocationTy, [AddressScriptHash hash01], Some 1)).
Proof.
  pose proof (hash_scripts_yield_their_hash address unit
                (newHashAddress AddressPubKeyHash)
                (newHashAddress AddressScriptHash)
                (fun b _ => Ok (AddressSecpPubKey b)) tt hash01 eq_refl) as H.
  exact (proj1 (proj2 (proj2 (proj2 (proj2 (proj2 H)))))).
Defined.

Lemma multisig_addresses_witness :
  extractPkScriptAddrs address unit (newHashAddress AddressPubKeyHash)
    (newHashAddress AddressScriptHash) (fun b _ => Ok (AddressSecpPubKey b))
    0 (multisig_script opcode.OP_1 [key02; key04]) tt =
  Some (Ok (MultiSigTy, [AddressSecpPubKey key02; AddressSecpPubKey key04],
            Some 1)).
Proof.
  apply (multisig_addresses address unit (newHashAddress AddressPubKeyHash)
           (newHashAddress AddressScriptHash)
           (fun b _ => Ok (AddressSecpPubKey b)) tt opcode.OP_1 [key02; key04]);
    [reflexivity|reflexivity|cbn; lia].
Defined.

End ClassifierMore.

(** ** Integer conversions of the signing code *)

Module Rfc6979.

Definition bit_length (n : Z) : Z := if n =? 0 then 0 else Z.log2 n + 1.

Definition hashToInt (h : bytes) : Z :=
  let orderBits := bit_length Curve.N in
  let orderBytes := (orderBits + 7) / 8 in
  let h := if orderBytes <? Z.of_nat (List.length h)
           then BA.upto (Z.to_nat orderBytes) h else h in
  let ret := BA.int h in
  let excess := Z.of_nat (List.length h) * 8 - orderBits in
  if 0 <? excess then Z.shiftr ret excess else ret.

Definition int2octets (v : Z) (rolen : nat) : bytes :=
  let out := BA.of_int v in
  if (List.length out <? rolen)%nat then
    BA.write (rolen - List.length out) out (BA.of_int_len 0 rolen)
  else if (rolen <? List.length out)%nat then
    BA.write 0 (BA.from (List.length out - rolen) out) (BA.of_int_len 0 rolen)
  else out.

Definition bits2octets (bits : bytes) (rolen : nat) : bytes :=
  let z1 := hashToInt bits in
  let z2 := z1 - Curve.N in
  if z2 <? 0 then int2octets z1 rolen else int2octets z2 rolen.

(** *** Values of byte strings *)

Lemma int_acc_shift (b : bytes) :
  forall a, BA.int_acc a b = a * 256 ^ Z.of_nat (List.length b) + BA.int b.
Proof.
  unfold BA.int. induction b as [|x r IH]; intros a.
  - cbn. lia.
  - cbn [BA.int_acc List.length]. rewrite IH, (IH (0 * 256 + x)).
    replace (Z.of_nat (S (List.length r))) with (1 + Z.of_nat (List.length r))
      by lia.
    rewrite Z.pow_add_r by lia. lia.
Qed.

Lemma int_app (a b : bytes) :
  BA.int (a ++ b) = BA.int a * 256 ^ Z.of_nat (List.length b) + BA.int b.
Proof.
  unfold BA.int at 1. rewrite Sig.int_acc_app, int_acc_shift. reflexivity.
Qed.

Lemma int_bounds (b : bytes) :
  Forall is_byte b -> 0 <= BA.int b < 256 ^ Z.of_nat (List.length b).
Proof.
  induction 1 as [|x r Hx Hr IH].
  - cbn. lia.
  - change (x :: r) with ([x] ++ r). rewrite int_app.
    change (BA.int [x]) with x. rewrite length_app.
    cbn [List.length].
    replace (Z.of_nat (1 + List.length r)) with (1 + Z.of_nat (List.length r))
      by lia.
    rewrite Z.pow_add_r by lia. unfold is_byte in Hx. nia.
Qed.

Lemma int_zeros (n : nat) (b : bytes) : BA.int (BA.zeros n ++ b) = BA.int b.
Proof.
  rewrite int_app.
  assert (BA.int (BA.zeros n) = 0).
  { unfold BA.int. induction n as [|n IH]; [reflexivity|exact IH]. }
  lia.
Qed.

Lemma firstn_zeros (k n : nat) :
  (k <= n)%nat -> firstn k (BA.zeros n) = BA.zeros k.
Proof.
  revert n. induction k as [|k IH]; intros [|n] H; try reflexivity; [lia|].
  cbn. f_equal. apply IH. lia.
Qed.

Lemma order_bits : bit_length Curve.N = 256.
Proof. reflexivity. Qed.

Lemma hashToInt_firstn (h : bytes) :
  hashToInt h = BA.int (firstn 32 h) /\
  (Forall is_byte h -> 0 <= hashToInt h < 2 ^ 256).
Proof.
  assert (E : hashToInt h = BA.int (firstn 32 h)).
  { unfold hashToInt. rewrite order_bits. cbv zeta.
    change ((256 + 7) / 8) with 32. change (Z.to_nat 32) with 32%nat.
    unfold BA.upto.
    destruct (Z.ltb_spec 32 (Z.of_nat (List.length h))) as [L|L].
    - rewrite length_firstn.
      replace (Nat.min 32 (List.length h)) with 32%nat by lia.
      reflexivity.
    - rewrite firstn_all2 by lia.
      destruct (Z.ltb_spec 0 (Z.of_nat (List.length h) * 8 - 256)); [lia|].
      reflexivity. }
  rewrite E. split; [reflexivity|].
  intros B.
  assert (B' : Forall is_byte (firstn 32 h)).
  { rewrite Forall_forall in *. intros x Hx.
    apply B. eapply Account.firstn_subset, Hx. }
  pose proof (int_bounds _ B') as I.
  assert (256 ^ Z.of_nat (List.length (firstn 32 h)) <= 2 ^ 256).
  { change (2 ^ 256) with (256 ^ 32).
    apply Z.pow_le_mono_r; [lia|]. rewrite length_firstn. lia. }
  lia.
Qed.

(** X13. [hashToInt] reads the first 32 bytes of its argument as a
    big-endian integer and nothing else: the right shift for excess bits
    never applies, and the result is below 2^256. *)
Theorem hashToInt_first_32_bytes (h : bytes) :
  hashToInt h = BA.int (firstn 32 h) /\
  (Forall is_byte h -> 0 <= hashToInt h < 2 ^ 256).
Proof. exact (hashToInt_firstn h). Qed.

Lemma hashToInt_first_32_bytes_witness :
  hashToInt (repeat 255 40) = BA.int (repeat 255 32) /\
  0 <= hashToInt (repeat 255 40) < 2 ^ 256.
Proof.
  pose proof (hashToInt_first_32_bytes (repeat 255 40)) as [E B].
  split; [exact E|]. apply B.
  apply Forall_forall. intros x Hx. apply repeat_spec in Hx. subst.
  unfold is_byte. lia.
Defined.

Lemma int_skipn (b : bytes) (k : nat) :
  Forall is_byte b -> (k <= List.length b)%nat ->
  BA.int (skipn k b) = BA.int b mod 256 ^ Z.of_nat (List.length b - k).
Proof.
  intros B K.
  rewrite <- (firstn_skipn k b) at 2. rewrite int_app, length_skipn.
  assert (B' : Forall is_byte (skipn k b)).
  { rewrite <- (firstn_skipn k b) in B. apply Forall_app in B. tauto. }
  pose proof (int_bounds _ B') as I. rewrite length_skipn in I.
  rewrite Z.add_comm, Z.mod_add by (apply Z.pow_nonzero; lia).
  symmetry. apply Z.mod_small. exact I.
Qed.

Lemma int2octets_spec (v : Z) (rolen : nat) :
  0 <= v ->
  List.length (int2octets v rolen) = rolen /\
  BA.int (int2octets v rolen) = v mod 256 ^ Z.of_nat rolen /\
  Forall is_byte (int2octets v rolen).
Proof.
  intros Hv. destruct (Sig.of_int_spec v Hv) as (Hi & Hb & Hne & Hl).
  unfold int2octets. cbv zeta.
  change (BA.of_int_len 0 rolen) with (BA.be_fixed rolen 0).
  rewrite Sig.be_fixed_zero.
  set (out := BA.of_int v) in *.
  pose proof (int_bounds _ Hb) as I. rewrite Hi in I.
  destruct (Nat.ltb_spec (List.length out) rolen) as [L|L].
  - unfold BA.write.
    replace (firstn (rolen - List.length out) (BA.zeros rolen))
      with (BA.zeros (rolen - List.length out)).
    2:{ symmetry. apply firstn_zeros. lia. }
    rewrite Sig.skipn_zeros.
    replace (rolen - (rolen - List.length out + List.length out))%nat
      with 0%nat by lia.
    cbn [BA.zeros repeat]. rewrite app_nil_r.
    split; [|split].
    + rewrite length_app. unfold BA.zeros. rewrite repeat_length. lia.
    + rewrite int_zeros, Hi. symmetry. apply Z.mod_small.
      split; [lia|].
      eapply Z.lt_le_trans; [apply I|].
      apply Z.pow_le_mono_r; lia.
    + apply Forall_app. split; [|exact Hb].
      apply Forall_forall. intros x Hx. apply repeat_spec in Hx. subst x.
      unfold is_byte. lia.
  - destruct (Nat.ltb_spec rolen (List.length out)) as [G|G].
    + unfold BA.write, BA.from. cbn [firstn app Nat.add].
      rewrite Sig.skipn_zeros, length_skipn.
      replace (rolen - (List.length out - (List.length out - rolen)))%nat
        with 0%nat by lia.
      cbn [BA.zeros repeat]. rewrite app_nil_r.
      split; [|split].
      * rewrite length_skipn. lia.
      * rewrite int_skipn by (auto; lia). rewrite Hi.
        f_equal. f_equal. lia.
      * rewrite <- (firstn_skipn (List.length out - rolen) out) in Hb.
        apply Forall_app in Hb. tauto.
    + assert (E : Z.of_nat rolen = Z.of_nat (List.length out)) by lia.
      split; [lia|]. split; [|exact Hb].
      rewrite Hi, E. symmetry. apply Z.mod_small. exact I.
Qed.

(** X14. [int2octets] always returns exactly [rolen] bytes for a
    non-negative integer: it pads a short encoding with zero bytes in
    front and cuts the most significant bytes off a long one, so that the
    bytes are the big-endian form of [v mod 256^rolen]. *)
Theorem int2octets_fixed_width (v : Z) (rolen : nat) :
  0 <= v ->
  List.length (int2octets v rolen) = rolen /\
  BA.int (int2octets v rolen) = v mod 256 ^ Z.of_nat rolen /\
  Forall is_byte (int2octets v rolen).
Proof. exact (int2octets_spec v rolen). Qed.

Lemma int2octets_fixed_width_witness :
  int2octets 258 4 = [0; 0; 1; 2] /\ int2octets 16909060 2 = [3; 4] /\
  List.length (int2octets 258 4) = 4%nat.
Proof.
  split; [reflexivity|]. split; [reflexivity|].
  apply (int2octets_fixed_width 258 4). lia.
Defined.

(** X15. [bits2octets] with the 32-byte width of the curve returns 32
    bytes holding the hash integer reduced modulo the curve order. *)
Theorem bits2octets_reduces_mod_order (bits : bytes) :
  Forall is_byte bits ->
  List.length (bits2octets bits 32) = 32%nat /\
  BA.int (bits2octets bits 32) = hashToInt bits mod Curve.N.
Proof.
  intros B. destruct (hashToInt_firstn bits) as [_ R].
  specialize (R B). unfold bits2octets. cbv zeta.
  assert (N2 : 2 ^ 256 < 2 * Curve.N) by reflexivity.
  assert (N1 : Curve.N < 2 ^ 256) by reflexivity.
  assert (P : 256 ^ Z.of_nat 32 = 2 ^ 256) by reflexivity.
  destruct (Z.ltb_spec (hashToInt bits - Curve.N) 0) as [L|L].
  - destruct (int2octets_spec (hashToInt bits) 32) as (H1 & H2 & _);
      [lia|].
    split; [exact H1|]. rewrite H2, P.
    rewrite Z.mod_small by lia. symmetry. apply Z.mod_small. lia.
  - destruct (int2octets_spec (hashToInt bits - Curve.N) 32)
      as (H1 & H2 & _); [lia|].
    split; [exact H1|]. rewrite H2, P.
    rewrite Z.mod_small by lia.
    apply Z.mod_unique with (q := 1); unfold Curve.N in *; lia.
Qed.

Lemma bits2octets_reduces_mod_order_witness :
  List.length (bits2octets (repeat 255 32) 32) = 32%nat /\
  BA.int (bits2octets (repeat 255 32) 32) =
    hashToInt (repeat 255 32) mod Curve.N.
Proof.
  apply bits2octets_reduces_mod_order.
  apply Forall_forall. intros x Hx. apply repeat_spec in Hx. subst.
  unfold is_byte. lia.
Defined.

End Rfc6979.

(** ** Signing, verification and the encodings around them *)

Module Signing.

Import Sig.

Section WithCurve.

(** The nonce (the HMAC loop of [nonceRFC6979], taken here as a function
    of its four arguments), the modular inverse and the curve operations
    are collaborators; points are pairs of coordinates. *)
Variable nonceRFC6979 : bytes -> bytes -> bytes -> bytes -> Z.
Variable modInv : Z -> Z -> Z.
Variable scalarBaseMult : Z -> Z * Z.
Variable scalarMult : Z -> Z -> Z -> Z * Z.
Variable add : Z -> Z -> Z -> Z -> Z * Z.

Definition signRFC6979 (privateKey inHash : bytes) : result Signature :=
  let N := Curve.N in
  let k := nonceRFC6979 privateKey inHash [] [] in
  let inv := modInv k N in
  let r := fst (scalarBaseMult k) mod N in
  if r =? 0 then Raise "calculated R is zero"
  else
    let e := Rfc6979.hashToInt inHash in
    let s := BA.int privateKey * r in
    let s := s + e in
    let s := s * inv in
    let s := s mod N in
    let s := if 1 <? Z.shiftr N 1 then N - s else s in
    if s =? 0 then Raise "calculated S is zero"
    else Ok {| r := r; s := s |}.

Definition verifySig (pub : Z * Z) (inHash : bytes) (r s : Z) : bool :=
  let N := Curve.N in
  if (r <=? 0) || (s <=? 0) then false
  else if (N <=? r) || (N <=? s) then false
  else
    let e := Rfc6979.hashToInt inHash in
    let w := modInv s N in
    let u1 := (e * w) mod N in
    let u2 := (r * w) mod N in
    let '(x1, y1) := scalarBaseMult u1 in
    let '(x2, y2) := scalarMult (fst pub) (snd pub) u2 in
    let '(x, y) := add x1 y1 x2 y2 in
    if (x =? 0) && (y =? 0) then false
    else (x mod N =? r).

(** The two integers [signRFC6979] computes before its sign flip. *)
Definition raw_r (privateKey inHash : bytes) : Z :=
  fst (scalarBaseMult (nonceRFC6979 privateKey inHash [] [])) mod Curve.N.

Definition raw_s (privateKey inHash : bytes) : Z :=
  ((BA.int privateKey * raw_r privateKey inHash + Rfc6979.hashToInt inHash) *
   modInv (nonceRFC6979 privateKey inHash [] []) Curve.N) mod Curve.N.

Lemma lowS_flip (x : Z) :
  0 <= x < Curve.N -> lowS (Curve.N - x) = lowS x.
Proof.
  intros H. unfold lowS. cbv zeta. rewrite Z.shiftr_div_pow2 by lia.
  change (2 ^ 1) with 2.
  pose proof (Z.div_mod Curve.N 2 ltac:(lia)) as D.
  assert (M : Curve.N mod 2 = 1) by reflexivity.
  destruct (Z.gtb_spec (Curve.N - x) (Curve.N / 2));
    destruct (Z.gtb_spec x (Curve.N / 2)); lia.
Qed.

(** X16. [signRFC6979] fails only when r is zero: its test for a zero s
    comes after the unconditional replacement of s by N - s and can never
    succeed.  The signature returned holds r and N - s, with N - s between
    1 and N; [serialize] encodes for it the same low-S value as for the s
    before the flip; and when that s is 0 the returned N is a value
    [verifySig] rejects for every key and hash. *)
Theorem signRFC6979_flip (privateKey inHash : bytes) :
  let r0 := raw_r privateKey inHash in
  let s0 := raw_s privateKey inHash in
  (r0 = 0 ->
   signRFC6979 privateKey inHash = Raise "calculated R is zero") /\
  (r0 <> 0 ->
   signRFC6979 privateKey inHash = Ok {| r := r0; s := Curve.N - s0 |} /\
   1 <= Curve.N - s0 <= Curve.N /\
   lowS (Curve.N - s0) = lowS s0 /\
   (s0 = 0 -> forall pub h, verifySig pub h r0 (Curve.N - s0) = false)).
Proof.
  cbv zeta. unfold signRFC6979. cbv zeta.
  fold (raw_r privateKey inHash). fold (raw_s privateKey inHash).
  assert (B : 0 <= raw_s privateKey inHash < Curve.N).
  { unfold raw_s. apply Z.mod_pos_bound. reflexivity. }
  split.
  - intros ->. reflexivity.
  - intros Hr.
    destruct (Z.eqb_spec (raw_r privateKey inHash) 0); [contradiction|].
    change (1 <? Z.shiftr Curve.N 1) with true. cbv iota.
    destruct (Z.eqb_spec (Curve.N - raw_s privateKey inHash) 0); [lia|].
    split; [reflexivity|]. split; [lia|].
    split; [apply lowS_flip, B|].
    intros S0 pub h. unfold verifySig. cbv zeta. rewrite S0, Z.sub_0_r.
    rewrite Z.leb_refl, orb_true_r.
    destruct ((raw_r privateKey inHash <=? 0) || (Curve.N <=? 0)); reflexivity.
Qed.

End WithCurve.

(** Stand-ins for running the definitions. *)
Definition toy_nonce (priv h _ _ : bytes) : Z := BA.int priv + BA.int h + 1.
Definition toy_inv (k n : Z) : Z := k mod n.
Definition toy_base (k : Z) : Z * Z := (k * 7 + 1, k).

Lemma signRFC6979_flip_witness :
  signRFC6979 toy_nonce toy_inv toy_base [2] [3] =
    Ok {| r := 43; s := Curve.N - 534 |} /\
  lowS (Curve.N - 534) = 534.
Proof.
  assert (R : raw_r toy_nonce toy_base [2] [3] <> 0)
    by (vm_compute; discriminate).
  destruct (proj2 (signRFC6979_flip toy_nonce toy_inv toy_base
                     (fun _ _ _ => (0, 0)) (fun _ _ _ _ => (0, 0)) [2] [3]) R)
    as (E & _ & L & _).
  split; [exact E|]. exact L.
Defined.

(** *** Strict DER integers *)

Lemma of_int_leading (v x y : Z) (rest : bytes) :
  0 <= v -> BA.of_int v = x :: y :: rest -> x <> 0.
Proof.
  intros Hv E X. subst x.
  destruct (of_int_spec v Hv) as (Hi & Hb & _ & Hl).
  rewrite E in Hi, Hb, Hl.
  assert (Hi' : BA.int (y :: rest) = v) by exact Hi.
  inversion Hb as [|? ? _ Hb']; subst.
  pose proof (Rfc6979.int_bounds _ Hb') as I. rewrite Hi' in I.
  specialize (Hl (List.length (y :: rest))).
  cbn [List.length] in *. specialize (Hl ltac:(lia) (proj2 I)). lia.
Qed.

(** X17. [canonicalizeInt] of a non-negative integer is a minimal
    encoding: it is never empty, and a leading zero byte is there only in
    front of a byte whose top bit is set (or as the single byte of 0). *)
Theorem canonicalizeInt_minimal (v : Z) :
  0 <= v ->
  match canonicalizeInt v with
  | [] => False
  | [x] => x = v
  | x :: y :: _ => x <> 0 \/ (x = 0 /\ Z.land y 128 <> 0)
  end.
Proof.
  intros Hv.
  destruct (canonicalizeInt_spec v Hv) as (Hi & Hm & _ & Hp & _).
  destruct Hp as [[M E]|[M E]]; rewrite E in *.
  - destruct (BA.of_int v) as [|x [|y rest]] eqn:O.
    + exact Hm.
    + unfold BA.int in Hi. cbn in Hi. exact Hi.
    + left. eapply of_int_leading; eassumption.
  - destruct (BA.of_int v) as [|x rest] eqn:O.
    + exfalso. destruct (of_int_spec v Hv) as (_ & _ & Hne & _). congruence.
    + right. split; [reflexivity|exact M].
Qed.

Lemma canonicalizeInt_minimal_witness :
  canonicalizeInt 255 = [0; 255] /\ canonicalizeInt 256 = [1; 0] /\
  match canonicalizeInt 255 with
  | x :: y :: _ => x <> 0 \/ (x = 0 /\ Z.land y 128 <> 0)
  | _ => True
  end.
Proof.
  split; [reflexivity|]. split; [reflexivity|].
  pose proof (canonicalizeInt_minimal 255 ltac:(lia)) as H.
  exact H.
Defined.

(** *** Variable-length integers *)

Lemma unLittle_le (v : Z) (n : nat) :
  0 <= v < 256 ^ Z.of_nat n -> BA.unLittle_int (SigHash.le v n) = v.
Proof.
  intros H. unfold BA.unLittle_int, SigHash.le, BA.littleEndian, BA.of_int_len.
  rewrite rev_involutive, ScriptBuild.int_be_fixed. apply Z.mod_small, H.
Qed.

(** X18. [putVarInt] writes a value below 0xfd as that single byte, and a
    larger value as the marker 0xfd, 0xfe or 0xff followed by the value
    in 2, 4 or 8 little-endian bytes, from which the value is read back;
    the smallest form that holds the value is chosen. *)
Theorem putVarInt_layout (v : Z) :
  0 <= v < 2 ^ 64 ->
  exists marker payload,
    SigHash.putVarInt v = marker ++ payload /\
    ((v < 253 /\ marker = [] /\ payload = [v]) \/
     (253 <= v <= 65535 /\ marker = [253] /\ List.length payload = 2%nat /\
      BA.unLittle_int payload = v) \/
     (65535 < v <= 4294967295 /\ marker = [254] /\
      List.length payload = 4%nat /\ BA.unLittle_int payload = v) \/
     (4294967295 < v /\ marker = [255] /\ List.length payload = 8%nat /\
      BA.unLittle_int payload = v)).
Proof.
  intros H. unfold SigHash.putVarInt, SigHash.MaxUint16, SigHash.MaxUint32.
  destruct (Z.ltb_spec v 253).
  - exists [], [v]. split.
    + unfold BA.of_int_len. cbn [BA.be_fixed app].
      rewrite Z.mod_small by lia. reflexivity.
    + left. auto.
  - destruct (Z.leb_spec v 65535).
    + exists [253], (SigHash.le v 2). split; [reflexivity|].
      right; left. split; [lia|]. split; [reflexivity|].
      split; [apply SigHash.le_length|].
      apply unLittle_le. change (256 ^ Z.of_nat 2) with 65536. lia.
    + destruct (Z.leb_spec v 4294967295).
      * exists [254], (SigHash.le v 4). split; [reflexivity|].
        right; right; left. split; [lia|]. split; [reflexivity|].
        split; [apply SigHash.le_length|].
        apply unLittle_le. change (256 ^ Z.of_nat 4) with 4294967296. lia.
      * exists [255], (SigHash.le v 8). split; [reflexivity|].
        right; right; right. split; [lia|]. split; [reflexivity|].
        split; [apply SigHash.le_length|].
        apply unLittle_le. change (256 ^ Z.of_nat 8) with (2 ^ 64). lia.
Qed.

Lemma putVarInt_layout_witness :
  exists marker payload,
    SigHash.putVarInt 70000 = marker ++ payload /\
    marker = [254] /\ BA.unLittle_int payload = 70000.
Proof.
  destruct (putVarInt_layout 70000 ltac:(lia))
    as (m & p & E & [C|[C|[C|C]]]); try lia.
  exists m, p. tauto.
Defined.

End Signing.

(** ** What the signature hash commits to *)

Module SigHashProps.

Import SigHash.

(** Two transactions that agree on everything except their outputs, and
    two that agree on everything except their inputs. *)
Definition same_but_outputs (a b : MsgTx) : Prop :=
  tx_version a = tx_version b /\ txIn a = txIn b /\
  lockTime a = lockTime b /\ expiry a = expiry b.

Definition same_but_inputs (a b : MsgTx) : Prop :=
  tx_version a = tx_version b /\ txOut a = txOut b /\
  lockTime a = lockTime b /\ expiry a = expiry b.

Lemma slice_prefix {A} (pre : list A) (x : A) (post : list A) (idx : nat) :
  List.length pre = idx ->
  slice 0 (idx + 1) (pre ++ x :: post) = pre ++ [x].
Proof.
  intros <-. unfold slice. rewrite Nat.sub_0_r. cbn [skipn].
  rewrite firstn_app, firstn_all2 by lia.
  replace (List.length pre + 1 - List.length pre)%nat with 1%nat by lia.
  reflexivity.
Qed.

Lemma slice_middle {A} (pre : list A) (x : A) (post : list A) (idx : nat) :
  List.length pre = idx ->
  slice idx (idx + 1) (pre ++ x :: post) = [x].
Proof.
  intros <-. unfold slice. rewrite skipn_app, skipn_all, Nat.sub_diag.
  replace (List.length pre + 1 - List.length pre)%nat with 1%nat by lia.
  reflexivity.
Qed.

Lemma commit_outs_single (hashType : Z) (o : TxOut) :
  isSingle hashType = true ->
  forall pre pre' i,
    map version pre = map version pre' ->
    commit_outs hashType (i + List.length pre) i (pre ++ [o]) =
    commit_outs hashType (i + List.length pre') i (pre' ++ [o]).
Proof.
  intros HS. induction pre as [|p pre IH]; intros [|p' pre'] i E;
    try discriminate.
  - reflexivity.
  - cbn [map] in E. injection E as Ev E.
    cbn [app commit_outs List.length]. cbv zeta. rewrite HS.
    replace (i =? i + S (List.length pre))%nat with false
      by (symmetry; apply Nat.eqb_neq; lia).
    replace (i =? i + S (List.length pre'))%nat with false
      by (symmetry; apply Nat.eqb_neq; lia).
    cbn [andb negb]. rewrite Ev.
    replace (i + S (List.length pre))%nat with (S i + List.length pre)%nat by lia.
    replace (i + S (List.length pre'))%nat with (S i + List.length pre')%nat by lia.
    rewrite (IH pre' (S i) E). reflexivity.
Qed.

Lemma prefix_out_sizes_single (hashType : Z) (o : TxOut) :
  isSingle hashType = true ->
  forall pre pre' i,
    List.length pre = List.length pre' ->
    prefix_out_sizes hashType (i + List.length pre) i (pre ++ [o]) =
    prefix_out_sizes hashType (i + List.length pre') i (pre' ++ [o]).
Proof.
  intros HS. induction pre as [|p pre IH]; intros [|p' pre'] i E;
    try discriminate.
  - reflexivity.
  - cbn [List.length] in E. injection E as E.
    cbn [app prefix_out_sizes List.length]. cbv zeta. rewrite HS.
    replace (i =? i + S (List.length pre))%nat with false
      by (symmetry; apply Nat.eqb_neq; lia).
    replace (i =? i + S (List.length pre'))%nat with false
      by (symmetry; apply Nat.eqb_neq; lia).
    cbn [andb negb].
    replace (i + S (List.length pre))%nat with (S i + List.length pre)%nat by lia.
    replace (i + S (List.length pre'))%nat with (S i + List.length pre')%nat by lia.
    rewrite (IH pre' (S i) E). reflexivity.
Qed.

Lemma commit_ins_app (hashType : Z) (sign : nat) (a b : list TxIn) :
  forall i,
    commit_ins hashType sign i (a ++ b) =
    commit_ins hashType sign i a ++
    commit_ins hashType sign (i + List.length a) b.
Proof.
  induction a as [|t a IH]; intros i.
  - cbn [app commit_ins List.length]. rewrite Nat.add_0_r. reflexivity.
  - cbn [app commit_ins List.length]. cbv zeta. rewrite IH.
    replace (S i + List.length a)%nat with (i + S (List.length a))%nat by lia.
    rewrite <- !app_assoc. reflexivity.
Qed.

Lemma commit_ins_others (hashType : Z) (sign : nat) :
  isNone hashType || isSingle hashType = true ->
  forall l l' i,
    map previousOutPoint l = map previousOutPoint l' ->
    (forall j, (j < List.length l)%nat -> (i + j)%nat <> sign) ->
    commit_ins hashType sign i l = commit_ins hashType sign i l'.
Proof.
  intros HT. induction l as [|t l IH]; intros [|t' l'] i E Far;
    try discriminate.
  - reflexivity.
  - cbn [map] in E. injection E as Et E.
    cbn [commit_ins]. cbv zeta. rewrite HT, Et.
    replace (i =? sign)%nat with false.
    2:{ symmetry. apply Nat.eqb_neq. specialize (Far 0%nat).
        cbn [List.length] in Far. lia. }
    cbn [andb negb]. rewrite (IH l' (S i) E); [reflexivity|].
    intros j Hj. specialize (Far (S j)). cbn [List.length] in Far. lia.
Qed.

Lemma single_outputs_agree (hashType : Z) (o : TxOut)
    (pre pre' : list TxOut) (idx : nat) :
  isSingle hashType = true ->
  List.length pre = idx ->
  map version pre = map version pre' ->
  List.length pre' = idx /\
  commit_outs hashType idx 0 (pre ++ [o]) =
  commit_outs hashType idx 0 (pre' ++ [o]) /\
  prefix_out_sizes hashType idx 0 (pre ++ [o]) =
  prefix_out_sizes hashType idx 0 (pre' ++ [o]).
Proof.
  intros IS Lp Ev.
  assert (Lp' : List.length pre' = List.length pre).
  { rewrite <- (length_map version pre), Ev. symmetry. apply length_map. }
  pose proof (commit_outs_single hashType o IS pre pre' 0 Ev) as C.
  pose proof (prefix_out_sizes_single hashType o IS pre pre' 0
                (eq_sym Lp')) as P.
  cbn [Nat.add] in C, P. rewrite Lp' in C, P. rewrite Lp in *.
  auto.
Qed.

Section WithHash.

Variable hashH : bytes -> bytes.

(** X19. Under SigHashNone the signature hash commits to no output: two
    transactions that differ only in their outputs, in number or content,
    have the same signature hash for every input. *)
Theorem sighash_none_ignores_outputs
    (script : bytes) (hashType : Z) (tx tx' : MsgTx) (idx : nat)
    (c : option bytes) :
  Z.land hashType sigHashMask = SigHashNone ->
  same_but_outputs tx tx' ->
  calcSignatureHash hashH script hashType tx idx c =
  calcSignatureHash hashH script hashType tx' idx c.
Proof.
  intros HN (Hv & Hi & Hl & He).
  destruct tx as [v ins outs lt ex], tx' as [v' ins' outs' lt' ex'].
  cbn in Hv, Hi, Hl, He. subst v' ins' lt' ex'.
  unfold calcSignatureHash, isSingle, prefix_hash, witness_hash.
  cbn [tx_version txIn txOut lockTime expiry]. rewrite HN.
  change (SigHashNone =? SigHashSingle) with false.
  change (SigHashNone =? SigHashNone) with true.
  reflexivity.
Qed.

(** X20. Under SigHashSingle the signature hash of input [idx] commits to
    output [idx] in full and, of the outputs before it, to their script
    versions only: the values and scripts of earlier outputs and all the
    outputs after [idx] can change without changing the hash. *)
Theorem sighash_single_covers_one_output
    (script : bytes) (hashType : Z) (tx tx' : MsgTx) (idx : nat)
    (c : option bytes) (pre pre' post post' : list TxOut) (o : TxOut) :
  Z.land hashType sigHashMask = SigHashSingle ->
  same_but_outputs tx tx' ->
  txOut tx = pre ++ o :: post ->
  txOut tx' = pre' ++ o :: post' ->
  List.length pre = idx ->
  map version pre = map version pre' ->
  calcSignatureHash hashH script hashType tx idx c =
  calcSignatureHash hashH script hashType tx' idx c.
Proof.
  intros HS (Hv & Hi & Hl & He) Eo Eo' Lp Ev.
  assert (IS : isSingle hashType = true).
  { unfold isSingle. rewrite HS. reflexivity. }
  destruct (single_outputs_agree hashType o pre pre' idx IS Lp Ev)
    as (Lp' & C & P).
  destruct tx as [v ins outs lt ex], tx' as [v' ins' outs' lt' ex'].
  cbn in Hv, Hi, Hl, He, Eo, Eo'. subst v' ins' lt' ex' outs outs'.
  unfold calcSignatureHash, prefix_hash, witness_hash.
  cbn [tx_version txIn txOut lockTime expiry]. rewrite IS, HS.
  change (SigHashSingle =? SigHashNone) with false. cbv iota.
  replace (List.length (pre ++ o :: post) <=? idx)%nat with false
    by (symmetry; apply Nat.leb_gt; rewrite length_app; cbn [List.length]; lia).
  replace (List.length (pre' ++ o :: post') <=? idx)%nat with false
    by (symmetry; apply Nat.leb_gt; rewrite length_app; cbn [List.length]; lia).
  rewrite (slice_prefix pre o post idx Lp), (slice_prefix pre' o post' idx Lp').
  unfold sigHashPrefixSerializeSize.
  change (SigHashSingle =? SigHashSingle) with true. cbv iota.
  rewrite C, P, !length_app, Lp, Lp'. reflexivity.
Qed.

(** X21. With the SigHashAnyOneCanPay bit set the signature hash of input
    [idx] commits to that input alone: the inputs before and after it can
    be replaced, added or removed without changing the hash, as long as
    the signed input stays at position [idx]. *)
Theorem sighash_anyone_can_pay_one_input
    (script : bytes) (hashType : Z) (tx tx' : MsgTx) (idx : nat)
    (c : option bytes) (pre pre' post post' : list TxIn) (t : TxIn) :
  Z.land hashType SigHashAnyOneCanPay <> 0 ->
  same_but_inputs tx tx' ->
  txIn tx = pre ++ t :: post ->
  txIn tx' = pre' ++ t :: post' ->
  List.length pre = idx ->
  List.length pre' = idx ->
  calcSignatureHash hashH script hashType tx idx c =
  calcSignatureHash hashH script hashType tx' idx c.
Proof.
  intros HA (Hv & Ho & Hl & He) Ei Ei' Lp Lp'.
  destruct tx as [v ins outs lt ex], tx' as [v' ins' outs' lt' ex'].
  cbn in Hv, Ho, Hl, He, Ei, Ei'. subst v' outs' lt' ex' ins ins'.
  unfold calcSignatureHash.
  cbn [tx_version txIn txOut lockTime expiry].
  destruct (Z.eqb_spec (Z.land hashType SigHashAnyOneCanPay) 0);
    [contradiction|].
  cbn [negb]. cbv iota.
  rewrite (slice_middle pre t post idx Lp), (slice_middle pre' t post' idx Lp').
  reflexivity.
Qed.

(** X22. Under SigHashNone and SigHashSingle the signature hash of input
    [idx] commits to the sequence number of that input only: the sequence
    numbers of all other inputs can change without changing the hash. *)
Theorem sighash_none_single_ignore_other_sequences
    (script : bytes) (hashType : Z) (tx tx' : MsgTx) (idx : nat)
    (c : option bytes) (pre pre' post post' : list TxIn) (t : TxIn) :
  Z.land hashType sigHashMask = SigHashNone \/
  Z.land hashType sigHashMask = SigHashSingle ->
  same_but_inputs tx tx' ->
  txIn tx = pre ++ t :: post ->
  txIn tx' = pre' ++ t :: post' ->
  List.length pre = idx ->
  map previousOutPoint pre = map previousOutPoint pre' ->
  map previousOutPoint post = map previousOutPoint post' ->
  calcSignatureHash hashH script hashType tx idx c =
  calcSignatureHash hashH script hashType tx' idx c.
Proof.
  intros HT (Hv & Ho & Hl & He) Ei Ei' Lp Epre Epost.
  assert (Lp' : List.length pre' = idx).
  { rewrite <- Lp, <- (length_map previousOutPoint pre), Epre.
    symmetry. apply length_map. }
  assert (Lpost : List.length post' = List.length post).
  { rewrite <- (length_map previousOutPoint post), Epost.
    symmetry. apply length_map. }
  assert (NS : isNone hashType || isSingle hashType = true).
  { unfold isNone, isSingle. destruct HT as [-> | ->]; reflexivity. }
  destruct tx as [v ins outs lt ex], tx' as [v' ins' outs' lt' ex'].
  cbn in Hv, Ho, Hl, He, Ei, Ei'. subst v' outs' lt' ex' ins ins'.
  unfold calcSignatureHash.
  cbn [tx_version txIn txOut lockTime expiry].
  destruct (negb (Z.land hashType SigHashAnyOneCanPay =? 0)).
  - rewrite (slice_middle pre t post idx Lp),
      (slice_middle pre' t post' idx Lp').
    reflexivity.
  - assert (C : commit_ins hashType idx 0 (pre ++ t :: post) =
                commit_ins hashType idx 0 (pre' ++ t :: post')).
    { rewrite !commit_ins_app. cbn [Nat.add].
      rewrite (commit_ins_others hashType idx NS pre pre' 0 Epre)
        by (intros j Hj; lia).
      rewrite Lp, Lp'. cbn [commit_ins]. cbv zeta.
      rewrite (commit_ins_others hashType idx NS post post' (S idx) Epost)
        by (intros j Hj; lia).
      reflexivity. }
    assert (L : List.length (pre' ++ t :: post') =
                List.length (pre ++ t :: post)).
    { rewrite !length_app. cbn [List.length]. lia. }
    unfold prefix_hash, witness_hash, sigHashPrefixSerializeSize,
      sigHashWitnessSerializeSize.
    cbn [tx_version txIn txOut lockTime expiry].
    rewrite C, L. reflexivity.
Qed.

(** X23. An index that names no input is caught by the witness size check
    alone, and only for a non-empty script: with well-formed inputs and
    [idx] at or past the number of inputs, [calcSignatureHash] raises
    [incorrect witness serialization size] when the script is not empty
    and returns a hash when it is empty (the SigHashSingle guard on the
    outputs aside). *)
Theorem missing_input_caught_by_witness_size
    (script : bytes) (hashType : Z) (tx : MsgTx) (idx : nat)
    (c : option bytes) :
  forallb (wf_in) (txIn tx) = true ->
  (List.length (txIn tx) <= idx)%nat ->
  isSingle hashType && (List.length (txOut tx) <=? idx)%nat = false ->
  (script <> [] ->
   calcSignatureHash hashH script hashType tx idx c =
   Some (Raise "incorrect witness serialization size")) /\
  (script = [] ->
   exists h, calcSignatureHash hashH script hashType tx idx c = Some (Ok h)).
Proof.
  intros W L G. unfold calcSignatureHash. cbv zeta.
  destruct (checkScriptParses_total 0 script) as (e & ->).
  rewrite G.
  set (anyone := negb (Z.land hashType SigHashAnyOneCanPay =? 0)).
  set (txIns := if anyone then slice idx (idx + 1) (txIn tx) else txIn tx).
  set (sign := if anyone then 0%nat else idx).
  assert (Wins : forallb wf_in txIns = true).
  { unfold txIns. destruct anyone; [|exact W].
    unfold slice. apply forallb_firstn, forallb_skipn, W. }
  assert (Out : (List.length txIns <= sign)%nat).
  { unfold sign, txIns. destruct anyone; [|exact L].
    unfold slice. rewrite skipn_all2 by lia. rewrite firstn_nil.
    cbn [List.length]. lia. }
  unfold reuse_prefix. cbn [SigHashOptimization bind].
  destruct (prefix_hash_ok hashH hashType tx idx txIns sign Wins) as (pb & ->).
  cbn [bind]. unfold witness_hash. cbv zeta.
  assert (Lw : forall s,
             len (BA.littleEndian
                    (Sig.bor (BA.of_int_len (tx_version tx) 4)
                       (BA.of_int (Z.shiftl SigHashSerializeWitness 16))) ++
                  putVarInt (Z.of_nat (List.length txIns)) ++
                  commit_scripts s sign 0 (List.length txIns)) =
             4 + varIntSerializeSize (Z.of_nat (List.length txIns)) +
             Z.of_nat (List.length txIns)).
  { intros s. rewrite !len_app, putVarInt_length, commit_scripts_length.
    unfold len at 1. rewrite witness_version_length.
    destruct (Nat.ltb_spec sign (0 + List.length txIns)); [lia|].
    rewrite andb_false_r. lia. }
  rewrite Lw. unfold sigHashWitnessSerializeSize.
  split.
  - intros Hne.
    assert (1 <= len script).
    { destruct script; [contradiction|]. unfold len. cbn [List.length]. lia. }
    assert (1 <= varIntSerializeSize (len script)).
    { unfold varIntSerializeSize.
      destruct (len script <? 253); [lia|].
      destruct (len script <=? MaxUint16); [lia|].
      destruct (len script <=? MaxUint32); lia. }
    match goal with
    | |- context [negb (?a =? ?b)] =>
        destruct (Z.eqb_spec a b) as [E|E]; [lia|]
    end.
    reflexivity.
  - intros ->. change (len []) with 0. change (varIntSerializeSize 0) with 1.
    match goal with
    | |- context [negb (?a =? ?b)] =>
        destruct (Z.eqb_spec a b) as [E|E]; [|lia]
    end.
    cbn [negb bind]. eexists. reflexivity.
Qed.

End WithHash.

Definition with_outs (tx : MsgTx) (outs : list TxOut) : MsgTx :=
  {| tx_version := tx_version tx; txIn := txIn tx; txOut := outs;
     lockTime := lockTime tx; expiry := expiry tx |}.

Definition with_ins (tx : MsgTx) (ins : list TxIn) : MsgTx :=
  {| tx_version := tx_version tx; txIn := ins; txOut := txOut tx;
     lockTime := lockTime tx; expiry := expiry tx |}.

Definition other_out : TxOut :=
  {| value := 5; version := 0; pkScript := [118; 169] |}.

Definition other_in : TxIn :=
  {| previousOutPoint := {| hash := repeat 1 32; index := 1; tree := 0 |};
     sequence := 7 |}.

Lemma sighash_none_ignores_outputs_witness :
  calcSignatureHash toy_hash [81] SigHashNone sample_tx 1 None =
  calcSignatureHash toy_hash [81] SigHashNone (with_outs sample_tx []) 1 None.
Proof.
  apply (sighash_none_ignores_outputs toy_hash [81] SigHashNone sample_tx
           (with_outs sample_tx []) 1 None).
  - reflexivity.
  - unfold same_but_outputs. cbn. auto.
Defined.

Lemma sighash_single_covers_one_output_witness :
  calcSignatureHash toy_hash [81] SigHashSingle sample_tx 1 None =
  calcSignatureHash toy_hash [81] SigHashSingle
    (with_outs sample_tx [other_out; sample_out; other_out; other_out]) 1 None.
Proof.
  apply (sighash_single_covers_one_output toy_hash [81] SigHashSingle sample_tx
           (with_outs sample_tx [other_out; sample_out; other_out; other_out])
           1 None [sample_out] [other_out] [] [other_out; other_out] sample_out).
  - reflexivity.
  - unfold same_but_outputs. cbn. auto.
  - reflexivity.
  - reflexivity.
  - reflexivity.
  - reflexivity.
Defined.

Lemma sighash_anyone_can_pay_one_input_witness :
  calcSignatureHash toy_hash [81] 129 sample_tx 1 None =
  calcSignatureHash toy_hash [81] 129
    (with_ins sample_tx [sample_in 5; sample_in 1]) 1 None.
Proof.
  apply (sighash_anyone_can_pay_one_input toy_hash [81] 129 sample_tx
           (with_ins sample_tx [sample_in 5; sample_in 1]) 1 None
           [sample_in 0] [sample_in 5] [sample_in 2] [] (sample_in 1)).
  - discriminate.
  - unfold same_but_inputs. cbn. auto.
  - reflexivity.
  - reflexivity.
  - reflexivity.
  - reflexivity.
Defined.

Definition resequenced (i seq : Z) : TxIn :=
  {| previousOutPoint := previousOutPoint (sample_in i); sequence := seq |}.

Lemma sighash_none_single_ignore_other_sequences_witness :
  calcSignatureHash toy_hash [81] SigHashNone sample_tx 1 None =
  calcSignatureHash toy_hash [81] SigHashNone
    (with_ins sample_tx [resequenced 0 7; sample_in 1; resequenced 2 9]) 1 None.
Proof.
  apply (sighash_none_single_ignore_other_sequences toy_hash [81] SigHashNone
           sample_tx
           (with_ins sample_tx [resequenced 0 7; sample_in 1; resequenced 2 9])
           1 None [sample_in 0] [resequenced 0 7] [sample_in 2]
           [resequenced 2 9] (sample_in 1)).
  - left. reflexivity.
  - unfold same_but_inputs. cbn. auto.
  - reflexivity.
  - reflexivity.
  - reflexivity.
  - reflexivity.
  - reflexivity.
Defined.

Lemma missing_input_caught_by_witness_size_witness :
  calcSignatureHash toy_hash [81] SigHashAll sample_tx 3 None =
    Some (Raise "incorrect witness serialization size") /\
  exists h, calcSignatureHash toy_hash [] SigHashAll sample_tx 3 None =
            Some (Ok h).
Proof.
  split.
  - apply (proj1 (missing_input_caught_by_witness_size toy_hash [81] SigHashAll
                    sample_tx 3 None eq_refl ltac:(cbn; lia) eq_refl)).
    discriminate.
  - apply (proj2 (missing_input_caught_by_witness_size toy_hash [] SigHashAll
                    sample_tx 3 None eq_refl ltac:(cbn; lia) eq_refl)).
    reflexivity.
Defined.

End SigHashProps.

(** ** Account: the addresses the cursor walks over *)

Module AccountProps.

Import Account.

Definition EXTERNAL_BRANCH := 0.
Definition INTERNAL_BRANCH := 1.

Section WithKeys.

Variable ExtendedKey : Type.
Variable deriveChildAddress : ExtendedKey -> Z -> option string.

(** The address a branch key gives at an index, with the placeholder the
    code appends where the derivation raises [ParameterRangeError]. *)
Definition derived (k : ExtendedKey) (idx : Z) : string :=
  match deriveChildAddress k idx with
  | Some s => s
  | None => CrazyAddress
  end.

(** The addresses at the [n] indices from [start] on. *)
Fixpoint fresh (k : ExtendedKey) (start : Z) (n : nat) : list string :=
  match n with
  | O => []
  | S m => derived k start :: fresh k (start + 1) m
  end.

Definition paymentAddress (a : Account.Account ExtendedKey) : result string :=
  py_index (externalAddresses a) (cursor a).

Definition allAddresses (a : Account.Account ExtendedKey) : list string :=
  internalAddresses a ++ externalAddresses a.

(** [addr in l] and [l.index(addr)] of a Python list. *)
Definition contains (addr : string) (l : list string) : bool :=
  existsb (fun x => String.eqb x addr) l.

Definition list_index (addr : string) (l : list string) : result Z :=
  match index_of addr l with
  | Some i => Ok i
  | None => Raise "ValueError"
  end.

Definition branchAndIndex (addr : string) (a : Account.Account ExtendedKey)
    : result (option Z * option Z) :=
  if contains addr (externalAddresses a) then
    idx <- list_index addr (externalAddresses a) ;;
    Ok (Some EXTERNAL_BRANCH, Some idx)
  else if contains addr (internalAddresses a) then
    idx <- list_index addr (internalAddresses a) ;;
    Ok (Some INTERNAL_BRANCH, Some idx)
  else Ok (None, None).

Lemma fresh_length (k : ExtendedKey) (n : nat) :
  forall start, List.length (fresh k start n) = n.
Proof.
  induction n as [|n IH]; intros start; [reflexivity|].
  cbn [fresh List.length]. rewrite IH. reflexivity.
Qed.

Lemma fresh_nth (k : ExtendedKey) (n : nat) :
  forall start j,
    (j < n)%nat ->
    nth j (fresh k start n) EmptyString = derived k (start + Z.of_nat j).
Proof.
  induction n as [|n IH]; intros start j Hj; [lia|].
  destruct j as [|j]; cbn [fresh nth].
  - rewrite Z.add_0_r. reflexivity.
  - rewrite IH by lia. f_equal. lia.
Qed.

(** The address loops on an open account: while fewer than [bound]
    addresses exist, the next index is derived and appended. *)
Lemma generate_while_fresh (k : ExtendedKey) (cond : Account.Account ExtendedKey -> bool)
    (bound : Z) (c : Z) :
  (forall s, cursor s = c ->
             cond s = (zlen (externalAddresses s) <? bound)) ->
  forall fuel a,
    index_invariant _ a -> extPub _ a = Some k -> cursor a = c ->
    (missing _ bound a <= fuel)%nat ->
    exists a',
      generate_while _ deriveChildAddress fuel cond a = Some (Ok tt, a') /\
      externalAddresses a' =
        externalAddresses a ++
        fresh k (zlen (externalAddresses a)) (missing _ bound a) /\
      cursor a' = c /\ index_invariant _ a' /\
      internalAddresses a' = internalAddresses a /\
      extPub _ a' = Some k /\ intPub _ a' = intPub _ a /\
      utxos _ a' = utxos _ a /\ txs _ a' = txs _ a /\
      balance _ a' = balance _ a.
Proof.
  intros Hc. induction fuel as [|f IH]; intros a I K C F.
  - cbn [generate_while]. rewrite (Hc a C).
    destruct (Z.ltb_spec (zlen (externalAddresses a)) bound) as [L|L].
    + unfold missing in F. lia.
    + exists a. replace (missing _ bound a) with 0%nat
        by (unfold missing; lia).
      cbn [fresh]. rewrite app_nil_r. repeat split; auto; apply I.
  - cbn [generate_while]. rewrite (Hc a C).
    destruct (Z.ltb_spec (zlen (externalAddresses a)) bound) as [L|L].
    + unfold generateNextPaymentAddress.
      destruct I as [I1 I2]. rewrite I1, Z.eqb_refl, K. cbn [negb].
      cbv zeta. fold (derived k (lastExternalIndex a + 1)).
      set (a1 := set_external _ a _ _).
      assert (I1' : index_invariant _ a1).
      { split; cbn; [rewrite zlen_snoc; lia|exact I2]. }
      assert (M : missing _ bound a = S (missing _ bound a1)).
      { unfold missing. cbn. rewrite zlen_snoc. lia. }
      destruct (IH a1 I1' K C ltac:(lia))
        as (a' & G & E & C' & I' & Ei & Ke & Ki & U & T & B).
      exists a'. split; [exact G|].
      split; [|split; [exact C'|]; split; [exact I'|]; split; [exact Ei|];
               split; [exact Ke|]; split; [exact Ki|]; split; [exact U|];
               split; [exact T|exact B]].
      rewrite E, M. unfold a1. cbn [set_external externalAddresses].
      rewrite zlen_snoc, <- app_assoc. cbn [fresh app]. rewrite I1.
      reflexivity.
    + exists a. replace (missing _ bound a) with 0%nat
        by (unfold missing; lia).
      cbn [fresh]. rewrite app_nil_r. repeat split; auto; apply I.
Qed.

(** X24. On an open account [getNextPaymentAddress] moves the cursor by
    one and returns the external address at the new cursor; the addresses
    already listed are kept, and the list is extended only as far as the
    new cursor, by the addresses derived at the consecutive indices that
    follow the last one (the placeholder where the derivation fails). *)
Theorem getNextPaymentAddress_open (a : Account.Account ExtendedKey) (k : ExtendedKey) :
  index_invariant _ a -> extPub _ a = Some k -> 0 <= cursor a ->
  exists addr a',
    getNextPaymentAddress _ deriveChildAddress a = Some (Ok addr, a') /\
    cursor a' = cursor a + 1 /\
    externalAddresses a' =
      externalAddresses a ++
      fresh k (zlen (externalAddresses a))
        (Z.to_nat (cursor a + 2 - zlen (externalAddresses a))) /\
    paymentAddress a' = Ok addr /\
    (zlen (externalAddresses a) <= cursor a + 1 ->
     addr = derived k (cursor a + 1)) /\
    index_invariant _ a'.
Proof.
  intros I K C0. unfold getNextPaymentAddress. cbv zeta.
  set (a1 := set_cursor _ a (cursor a + 1)).
  destruct (generate_while_fresh k
              (fun s => cursor s >=? zlen (externalAddresses s))
              (cursor a1 + 1) (cursor a1))
    with (fuel := missing _ (cursor a1 + 1) a1) (a := a1)
    as (a' & G & E & C' & I' & _); auto.
  - intros s Cs. rewrite Cs.
    destruct (Z.geb_spec (cursor a1) (zlen (externalAddresses s)));
      destruct (Z.ltb_spec (zlen (externalAddresses s)) (cursor a1 + 1));
      auto; lia.
  - rewrite G.
    change (cursor a1) with (cursor a + 1) in *.
    change (externalAddresses a1) with (externalAddresses a) in *.
    assert (M : missing _ (cursor a + 1 + 1) a1 =
                Z.to_nat (cursor a + 2 - zlen (externalAddresses a))).
    { unfold missing. f_equal. change (externalAddresses a1)
        with (externalAddresses a). lia. }
    rewrite M in E.
    set (n := Z.to_nat (cursor a + 2 - zlen (externalAddresses a))) in *.
    assert (Len : zlen (externalAddresses a') =
                  zlen (externalAddresses a) + Z.of_nat n).
    { rewrite E. unfold zlen. rewrite length_app, fresh_length. lia. }
    assert (P : py_index (externalAddresses a') (cursor a') =
                Ok (nth (Z.to_nat (cursor a + 1)) (externalAddresses a')
                      EmptyString)).
    { unfold py_index. rewrite C'.
      destruct (Z.leb_spec 0 (cursor a + 1)); [|lia].
      destruct (Z.ltb_spec (cursor a + 1) (zlen (externalAddresses a')));
        [reflexivity|].
      unfold zlen in *. lia. }
    eexists. exists a'. split; [rewrite P; reflexivity|].
    split; [exact C'|]. split; [exact E|].
    split; [exact P|]. split; [|exact I'].
    intros Short. rewrite E.
    rewrite app_nth2 by (unfold zlen in *; lia).
    rewrite fresh_nth by (unfold zlen in *; lia).
    f_equal. unfold zlen in *. lia.
Qed.

(** X25. On a closed account (no branch keys) whose cursor is on or past
    the last external address, [getNextPaymentAddress] raises, yet the
    cursor has been advanced: the account is left with a cursor that
    names no address, so [paymentAddress] raises [IndexError] from then
    on, and a further call moves the cursor again. *)
Theorem getNextPaymentAddress_closed (a : Account.Account ExtendedKey) :
  index_invariant _ a -> extPub _ a = None ->
  zlen (externalAddresses a) <= cursor a + 1 ->
  exists m,
    getNextPaymentAddress _ deriveChildAddress a =
      Some (Raise m, set_cursor _ a (cursor a + 1)) /\
    paymentAddress (set_cursor _ a (cursor a + 1)) = Raise "IndexError" /\
    getNextPaymentAddress _ deriveChildAddress (set_cursor _ a (cursor a + 1)) =
      Some (Raise m, set_cursor _ a (cursor a + 2)).
Proof.
  intros I K L.
  assert (Step : forall c, zlen (externalAddresses a) <= c ->
            getNextPaymentAddress _ deriveChildAddress (set_cursor _ a (c - 1)) =
            Some (Raise "AttributeError: 'NoneType' object has no attribute 'deriveChildAddress'",
                  set_cursor _ a c)).
  { intros c Lc. unfold getNextPaymentAddress. cbv zeta.
    cbn [set_cursor cursor externalAddresses].
    replace (c - 1 + 1) with c by lia.
    assert (M : exists f, missing _ (c + 1)
                  (set_cursor _ (set_cursor _ a (c - 1)) c) = S f).
    { unfold missing. cbn [set_cursor externalAddresses].
      exists (Z.to_nat (c - zlen (externalAddresses a))).
      unfold zlen in *. lia. }
    destruct M as (f & ->). cbn [generate_while cursor set_cursor externalAddresses].
    destruct (Z.geb_spec c (zlen (externalAddresses a))); [|lia].
    unfold generateNextPaymentAddress.
    cbn [set_cursor externalAddresses lastExternalIndex extPub].
    destruct I as [I1 _]. rewrite I1, Z.eqb_refl, K. cbn [negb].
    reflexivity. }
  eexists. split; [|split].
  - pose proof (Step (cursor a + 1) L) as S1.
    replace (cursor a + 1 - 1) with (cursor a) in S1 by lia.
    replace (set_cursor _ a (cursor a)) with a in S1
      by (destruct a; reflexivity).
    exact S1.
  - unfold paymentAddress, py_index. cbn [set_cursor cursor externalAddresses].
    destruct (Z.ltb_spec (cursor a + 1) (zlen (externalAddresses a))); [lia|].
    rewrite andb_false_r.
    destruct (Z.ltb_spec (cursor a + 1) 0);
      [unfold zlen in *; lia|].
    rewrite andb_false_r. reflexivity.
  - pose proof (Step (cursor a + 2) ltac:(lia)) as S2.
    replace (cursor a + 2 - 1) with (cursor a + 1) in S2 by lia.
    exact S2.
Qed.

(** X26. On an open account [generateGapAddresses] leaves exactly
    [highest + gap] external addresses when there were fewer, [highest]
    being the highest index of an external address with a recorded
    transaction, and changes nothing when there were that many already:
    the addresses listed before are kept, the new ones are those derived
    at the indices that follow, and the cursor, the change addresses, the
    UTXOs and the transaction index stay as they were. *)
Theorem generateGapAddresses_open (gap : Z) (a : Account.Account ExtendedKey)
    (k : ExtendedKey) :
  index_invariant _ a -> extPub _ a = Some k ->
  let highest := highest_index (externalAddresses a) (map fst (txs _ a)) 0 in
  exists a',
    generateGapAddresses deriveChildAddress gap a = Some (Ok tt, a') /\
    externalAddresses a' =
      externalAddresses a ++
      fresh k (zlen (externalAddresses a))
        (Z.to_nat (highest + gap - zlen (externalAddresses a))) /\
    zlen (externalAddresses a') =
      Z.max (zlen (externalAddresses a)) (highest + gap) /\
    cursor a' = cursor a /\ index_invariant _ a' /\
    internalAddresses a' = internalAddresses a /\
    utxos _ a' = utxos _ a /\ txs _ a' = txs _ a.
Proof.
  intros I K. cbv zeta. unfold generateGapAddresses. cbv zeta.
  set (tip := highest_index _ _ _ + gap).
  destruct (generate_while_fresh k
              (fun s => zlen (externalAddresses s) <? tip) tip (cursor a)
              ltac:(reflexivity) (missing _ tip a) a I K eq_refl (le_n _))
    as (a' & G & E & C' & I' & Ei & _ & _ & U & T & _).
  exists a'. split; [exact G|]. split; [exact E|].
  split; [|auto 10].
  rewrite E. unfold zlen. rewrite length_app, fresh_length.
  unfold missing, zlen. lia.
Qed.

Lemma index_of_spec (addr : string) (l : list string) :
  match index_of addr l with
  | Some i =>
      0 <= i < zlen l /\ nth (Z.to_nat i) l EmptyString = addr /\
      forall j, (j < Z.to_nat i)%nat -> nth j l EmptyString <> addr
  | None => ~ In addr l
  end.
Proof.
  induction l as [|x r IH]; cbn [index_of]; [intros []|].
  destruct (String.eqb_spec x addr) as [->|Hne].
  - split; [unfold zlen; cbn [List.length]; lia|].
    split; [reflexivity|]. intros j Hj. cbn in Hj. lia.
  - destruct (index_of addr r) as [i|]; cbn [option_map].
    + destruct IH as (B & N & F).
      split; [unfold zlen in *; cbn [List.length]; lia|].
      replace (Z.to_nat (Z.succ i)) with (S (Z.to_nat i)) by lia.
      split; [exact N|].
      intros [|j] Hj; cbn [nth]; [exact Hne|]. apply F. lia.
    + intros [E|E]; [contradiction|]. exact (IH E).
Qed.

Lemma contains_index (addr : string) (l : list string) :
  contains addr l = match index_of addr l with Some _ => true | None => false end.
Proof.
  induction l as [|x r IH]; [reflexivity|].
  cbn [contains existsb index_of]. fold (contains addr r).
  destruct (String.eqb x addr); [reflexivity|].
  rewrite IH. destruct (index_of addr r); reflexivity.
Qed.

Definition branch_addresses (branch : Z) (a : Account.Account ExtendedKey) : list string :=
  if branch =? EXTERNAL_BRANCH then externalAddresses a
  else internalAddresses a.

(** X27. [branchAndIndex] never raises.  It answers a branch and an index
    exactly for the known addresses: the index is that of the first
    occurrence of the address in the list of the branch, the external
    list is searched first, and an address in neither list gets
    [(None, None)]. *)
Theorem branchAndIndex_finds_first (addr : string) (a : Account.Account ExtendedKey) :
  exists b i,
    branchAndIndex addr a = Ok (b, i) /\
    match b, i with
    | Some br, Some ix =>
        (br = EXTERNAL_BRANCH \/
         (br = INTERNAL_BRANCH /\ ~ In addr (externalAddresses a))) /\
        py_index (branch_addresses br a) ix = Ok addr /\
        forall j, 0 <= j < ix -> py_index (branch_addresses br a) j <> Ok addr
    | None, None => ~ In addr (allAddresses a)
    | _, _ => False
    end.
Proof.
  assert (Py : forall l,
            match index_of addr l with
            | Some ix =>
                py_index l ix = Ok addr /\
                forall j, 0 <= j < ix -> py_index l j <> Ok addr
            | None => True
            end).
  { intros l. pose proof (index_of_spec addr l) as S.
    destruct (index_of addr l) as [ix|]; [|exact I].
    destruct S as (B & N & F). split.
    - unfold py_index.
      destruct (Z.leb_spec 0 ix); [|lia].
      destruct (Z.ltb_spec ix (zlen l)); [|lia].
      cbn [andb]. rewrite N. reflexivity.
    - intros j Hj. unfold py_index.
      destruct (Z.leb_spec 0 j); [|lia].
      destruct (Z.ltb_spec j (zlen l)); [|lia].
      cbn [andb]. intros E. injection E as E.
      apply (F (Z.to_nat j)); [lia|exact E]. }
  unfold branchAndIndex, list_index. rewrite !contains_index.
  pose proof (index_of_spec addr (externalAddresses a)) as Se.
  pose proof (Py (externalAddresses a)) as Pe.
  destruct (index_of addr (externalAddresses a)) as [ie|].
  - cbn [bind]. do 2 eexists. split; [reflexivity|].
    split; [left; reflexivity|]. exact Pe.
  - pose proof (index_of_spec addr (internalAddresses a)) as Si.
    pose proof (Py (internalAddresses a)) as Pi.
    destruct (index_of addr (internalAddresses a)) as [ii|].
    + cbn [bind]. do 2 eexists. split; [reflexivity|].
      split; [right; split; [reflexivity|exact Se]|]. exact Pi.
    + do 2 eexists. split; [reflexivity|].
      unfold allAddresses. rewrite in_app_iff. tauto.
Qed.

End WithKeys.

Arguments paymentAddress {ExtendedKey} a.
Arguments branchAndIndex {ExtendedKey} addr a.

Lemma getNextPaymentAddress_open_witness :
  exists a',
    getNextPaymentAddress unit toy_derive fresh_open = Some (Ok "B"%string, a') /\
    cursor a' = 1 /\ externalAddresses a' = ["A"%string; "B"%string].
Proof.
  destruct (getNextPaymentAddress_open unit toy_derive fresh_open tt)
    as (addr & a' & G & C & E & _ & D & _).
  - split; reflexivity.
  - reflexivity.
  - cbn. lia.
  - exists a'. rewrite (D ltac:(cbn; lia)) in G.
    split; [exact G|]. split; [exact C|exact E].
Defined.

Lemma getNextPaymentAddress_closed_witness :
  exists m,
    getNextPaymentAddress unit toy_derive (new_account "default") =
      Some (Raise m, set_cursor unit (new_account "default") 1) /\
    paymentAddress (set_cursor unit (new_account "default") 1) =
      Raise "IndexError".
Proof.
  destruct (getNextPaymentAddress_closed unit toy_derive
              (new_account "default"))
    as (m & G & P & _).
  - split; reflexivity.
  - reflexivity.
  - cbn. lia.
  - exists m. split; [exact G|exact P].
Defined.

Lemma generateGapAddresses_open_witness :
  exists a',
    generateGapAddresses toy_derive 3 fresh_open = Some (Ok tt, a') /\
    externalAddresses a' = ["A"%string; "B"%string; "C"%string] /\ cursor a' = 0.
Proof.
  destruct (generateGapAddresses_open unit toy_derive 3 fresh_open tt)
    as (a' & G & E & _ & C & _).
  - split; reflexivity.
  - reflexivity.
  - exists a'. split; [exact G|]. split; [exact E|exact C].
Defined.

End AccountProps.

(** ** Account: the UTXO set and the transaction index *)

Module Ledger.

Import Account.

(** A Python [dict] with string keys, as the list of its items in
    insertion order: assigning to a key that is present replaces the
    value where it stands, [pop] removes the item. *)
Fixpoint dict_get {V} (k : string) (d : list (string * V)) : option V :=
  match d with
  | [] => None
  | (k', v) :: r => if String.eqb k' k then Some v else dict_get k r
  end.

Fixpoint dict_set {V} (k : string) (v : V) (d : list (string * V))
    : list (string * V) :=
  match d with
  | [] => [(k, v)]
  | (k', v') :: r =>
      if String.eqb k' k then (k', v) :: r else (k', v') :: dict_set k v r
  end.

Fixpoint dict_pop {V} (k : string) (d : list (string * V))
    : option V * list (string * V) :=
  match d with
  | [] => (None, [])
  | (k', v') :: r =>
      if String.eqb k' k then (Some v', r)
      else let '(o, r') := dict_pop k r in (o, (k', v') :: r')
  end.

Definition dict_has {V} (k : string) (d : list (string * V)) : bool :=
  match dict_get k d with Some _ => true | None => false end.

Section WithKeys.

Variable ExtendedKey : Type.

(** [UTXO.makeKey], of module [api], is a collaborator outside src/. *)
Variable makeKey : string -> Z -> string.

(** Modelled from the spec: [UTXO.key] is not under src/; the key of a
    UTXO is [makeKey] of its transaction id and output index. *)
Definition key (u : UTXO) : string := makeKey (txid u) (vout u).

Definition set_utxos (a : Account.Account ExtendedKey)
    (d : list (string * UTXO)) : Account.Account ExtendedKey :=
  {| name := name _ a;
     lastExternalIndex := lastExternalIndex a;
     lastInternalIndex := lastInternalIndex a;
     externalAddresses := externalAddresses a;
     internalAddresses := internalAddresses a;
     cursor := cursor a; balance := balance _ a; txs := txs _ a; utxos := d;
     extPub := extPub _ a; intPub := intPub _ a |}.

Definition set_txs (a : Account.Account ExtendedKey)
    (d : list (string * list string)) : Account.Account ExtendedKey :=
  {| name := name _ a;
     lastExternalIndex := lastExternalIndex a;
     lastInternalIndex := lastInternalIndex a;
     externalAddresses := externalAddresses a;
     internalAddresses := internalAddresses a;
     cursor := cursor a; balance := balance _ a; txs := d;
     utxos := utxos _ a;
     extPub := extPub _ a; intPub := intPub _ a |}.

Definition addUTXO (u : UTXO) (a : Account.Account ExtendedKey)
    : Account.Account ExtendedKey :=
  set_utxos a (dict_set (key u) u (utxos _ a)).

Definition getUTXO (txid : string) (vout : Z)
    (a : Account.Account ExtendedKey) : option UTXO :=
  let uKey := makeKey txid vout in
  if dict_has uKey (utxos _ a) then dict_get uKey (utxos _ a) else None.

Definition spendUTXO (u : UTXO) (a : Account.Account ExtendedKey)
    : option UTXO * Account.Account ExtendedKey :=
  let '(o, d) := dict_pop (key u) (utxos _ a) in (o, set_utxos a d).

Definition resolveUTXOs (blockchainUTXOs : list UTXO)
    (a : Account.Account ExtendedKey) : Account.Account ExtendedKey :=
  set_utxos a (fold_left (fun d u => dict_set (key u) u d) blockchainUTXOs []).

Definition addrTxs (addr : string) (a : Account.Account ExtendedKey)
    : list string :=
  if dict_has addr (txs _ a)
  then match dict_get addr (txs _ a) with Some l => l | None => [] end
  else [].

(** [addTxid] appends to the list object held by the dict, so the entry
    of [addr] changes where it stands. *)
Definition addTxid (addr txid : string) (a : Account.Account ExtendedKey)
    : Account.Account ExtendedKey :=
  let txs1 := if negb (dict_has addr (txs _ a))
              then dict_set addr [] (txs _ a) else txs _ a in
  let txids := match dict_get addr txs1 with Some l => l | None => [] end in
  if negb (existsb (String.eqb txid) txids)
  then set_txs a (dict_set addr (txids ++ [txid]) txs1)
  else set_txs a txs1.

(** The value a UTXO adds to the sums of [calcBalance]. *)
Definition worth (o : option UTXO) : Z :=
  match o with Some u => satoshis u | None => 0 end.

Definition worth_at (tipHeight : Z) (o : option UTXO) : Z :=
  match o with
  | Some u => if isSpendable u tipHeight then satoshis u else 0
  | None => 0
  end.

(** The keys are distinct and each item sits under its own key: what the
    methods below keep true of [utxos]. *)
Definition keyed (a : Account.Account ExtendedKey) : Prop :=
  NoDup (map fst (utxos _ a)) /\
  Forall (fun p => fst p = key (snd p)) (utxos _ a).

(** *** Dictionary laws *)

Lemma dict_get_set_same {V} (k : string) (v : V) (d : list (string * V)) :
  dict_get k (dict_set k v d) = Some v.
Proof.
  induction d as [|[k' v'] r IH]; cbn [dict_set dict_get].
  - rewrite String.eqb_refl. reflexivity.
  - destruct (String.eqb k' k) eqn:E; cbn [dict_get]; rewrite E; auto.
Qed.

Lemma dict_get_set_other {V} (k k2 : string) (v : V) (d : list (string * V)) :
  k2 <> k -> dict_get k2 (dict_set k v d) = dict_get k2 d.
Proof.
  intros Hne. induction d as [|[k' v'] r IH]; cbn [dict_set dict_get].
  - destruct (String.eqb_spec k k2); [congruence|reflexivity].
  - destruct (String.eqb_spec k' k) as [->|N]; cbn [dict_get].
    + destruct (String.eqb_spec k k2); [congruence|reflexivity].
    + rewrite IH. reflexivity.
Qed.

Lemma dict_set_same {V} (k : string) (v : V) (d : list (string * V)) :
  dict_get k d = Some v -> dict_set k v d = d.
Proof.
  induction d as [|[k' v'] r IH]; cbn [dict_set dict_get]; [discriminate|].
  destruct (String.eqb k' k); intros H; [congruence|].
  rewrite (IH H). reflexivity.
Qed.

Lemma dict_keys_set {V} (k : string) (v : V) (d : list (string * V)) :
  map fst (dict_set k v d) =
  if dict_has k d then map fst d else map fst d ++ [k].
Proof.
  unfold dict_has.
  induction d as [|[k' v'] r IH]; cbn [dict_set dict_get map fst app];
    [reflexivity|].
  destruct (String.eqb k' k); cbn [map fst]; [reflexivity|].
  rewrite IH. destruct (dict_get k r); reflexivity.
Qed.

Lemma dict_get_none {V} (k : string) (d : list (string * V)) :
  dict_get k d = None <-> ~ In k (map fst d).
Proof.
  induction d as [|[k' v'] r IH]; cbn [dict_get map fst In]; [tauto|].
  destruct (String.eqb_spec k' k) as [->|N].
  - split; [discriminate|tauto].
  - rewrite IH. tauto.
Qed.

Lemma dict_pop_spec {V} (k : string) (d : list (string * V)) :
  fst (dict_pop k d) = dict_get k d /\
  (dict_get k d = None -> snd (dict_pop k d) = d) /\
  (forall x, In x (snd (dict_pop k d)) -> In x d) /\
  (NoDup (map fst d) ->
   NoDup (map fst (snd (dict_pop k d))) /\
   dict_get k (snd (dict_pop k d)) = None).
Proof.
  induction d as [|[k' v'] r IH]; cbn [dict_pop dict_get].
  - cbn. repeat split; auto using NoDup_nil.
  - destruct IH as (I1 & I2 & I3 & I4).
    destruct (String.eqb_spec k' k) as [->|N].
    + cbn [fst snd map]. split; [reflexivity|]. split; [discriminate|].
      split; [intros x Hx; right; exact Hx|].
      intros ND. inversion ND as [|? ? Hn Hr]; subst.
      split; [exact Hr|]. apply dict_get_none. exact Hn.
    + destruct (dict_pop k r) as [o r'] eqn:P. cbn [fst snd] in *.
      split; [exact I1|].
      split; [intros H; rewrite (I2 H); reflexivity|].
      split.
      * intros x [Hx|Hx]; [left; exact Hx|right; apply I3, Hx].
      * intros ND. cbn [map fst] in ND.
        inversion ND as [|? ? Hn Hr]; subst.
        destruct (I4 Hr) as [J1 J2]. cbn [map fst dict_get].
        destruct (String.eqb_spec k' k); [contradiction|].
        split; [|exact J2].
        constructor; [|exact J1].
        intros Hin. apply Hn.
        apply in_map_iff in Hin as ([k2 v2] & E & Hin). cbn in E. subst k2.
        apply in_map_iff. exists (k', v2). split; [reflexivity|].
        apply I3, Hin.
Qed.

(** *** Sums over the UTXO set *)

Lemma sum_filter_set (p : UTXO -> bool) (k : string) (u : UTXO)
    (d : list (string * UTXO)) :
  let w o := match o with
             | Some x => if p x then satoshis x else 0
             | None => 0
             end in
  sum_values (filter p (map snd (dict_set k u d))) =
  sum_values (filter p (map snd d)) + w (Some u) - w (dict_get k d).
Proof.
  cbv zeta. induction d as [|[k' v'] r IH];
    cbn [dict_set dict_get map snd filter].
  - destruct (p u); cbn [sum_values fold_right]; lia.
  - destruct (String.eqb k' k); cbn [map snd filter].
    + destruct (p u), (p v'); cbn [sum_values fold_right];
        fold (sum_values (filter p (map snd r))); lia.
    + destruct (p v'); cbn [sum_values fold_right];
        fold (sum_values (filter p (map snd (dict_set k u r))));
        fold (sum_values (filter p (map snd r))); lia.
Qed.

Lemma sum_filter_pop (p : UTXO -> bool) (k : string)
    (d : list (string * UTXO)) :
  let w o := match o with
             | Some x => if p x then satoshis x else 0
             | None => 0
             end in
  sum_values (filter p (map snd (snd (dict_pop k d)))) =
  sum_values (filter p (map snd d)) - w (dict_get k d).
Proof.
  cbv zeta. induction d as [|[k' v'] r IH];
    cbn [dict_pop dict_get map snd filter].
  - cbn. lia.
  - destruct (String.eqb k' k); cbn [snd map filter].
    + destruct (p v'); cbn [sum_values fold_right];
        fold (sum_values (filter p (map snd r))); lia.
    + destruct (dict_pop k r) as [o r'] eqn:P. cbn [snd map filter] in *.
      destruct (p v'); cbn [sum_values fold_right];
        fold (sum_values (filter p (map snd r')));
        fold (sum_values (filter p (map snd r))); lia.
Qed.

Lemma filter_all {A} (l : list A) : filter (fun _ => true) l = l.
Proof. induction l as [|x r IH]; cbn; [reflexivity|]. rewrite IH. reflexivity. Qed.

Lemma getUTXO_get (t : string) (v : Z) (a : Account.Account ExtendedKey) :
  getUTXO t v a = dict_get (makeKey t v) (utxos _ a).
Proof.
  unfold getUTXO, dict_has. cbv zeta.
  destruct (dict_get (makeKey t v) (utxos _ a)); reflexivity.
Qed.

Lemma calcBalance_sums (tipHeight : Z) (a : Account.Account ExtendedKey) :
  total (fst (calcBalance tipHeight a)) = sum_values (utxoscan a) /\
  available (fst (calcBalance tipHeight a)) =
    sum_values (filter (fun u => isSpendable u tipHeight) (utxoscan a)).
Proof.
  unfold calcBalance. rewrite balance_loop_sums. cbn [fst total available].
  unfold spendable_at. split; lia.
Qed.

(** X28. [addUTXO], [getUTXO], [spendUTXO] and [calcBalance] fit
    together.  A UTXO just added is the one [getUTXO] finds under its
    transaction id and output index; adding replaces a UTXO already held
    under that key, so the total and the available balance move by the
    value of the new one less the value of the replaced one; [spendUTXO]
    returns the UTXO held under the key of its argument ([None] when
    there is none) and the balances drop by exactly the value of what it
    returned. *)
Theorem ledger_balance_moves (tipHeight : Z) (u : UTXO)
    (a : Account.Account ExtendedKey) :
  let old := getUTXO (txid u) (vout u) a in
  let before := fst (calcBalance tipHeight a) in
  let added := fst (calcBalance tipHeight (addUTXO u a)) in
  let spent := fst (calcBalance tipHeight (snd (spendUTXO u a))) in
  getUTXO (txid u) (vout u) (addUTXO u a) = Some u /\
  total added = total before + satoshis u - worth old /\
  available added =
    available before + worth_at tipHeight (Some u) - worth_at tipHeight old /\
  fst (spendUTXO u a) = old /\
  total spent = total before - worth old /\
  available spent = available before - worth_at tipHeight old.
Proof.
  cbv zeta. rewrite !getUTXO_get.
  destruct (calcBalance_sums tipHeight a) as [T0 A0].
  destruct (calcBalance_sums tipHeight (addUTXO u a)) as [T1 A1].
  destruct (calcBalance_sums tipHeight (snd (spendUTXO u a))) as [T2 A2].
  rewrite T0, A0, T1, A1, T2, A2. clear T0 A0 T1 A1 T2 A2.
  unfold utxoscan, addUTXO, spendUTXO. fold (key u).
  pose proof (dict_pop_spec (key u) (utxos _ a)) as (P1 & _).
  pose proof (sum_filter_pop (fun _ => true) (key u) (utxos _ a)) as S1.
  pose proof (sum_filter_pop (fun x => isSpendable x tipHeight) (key u)
                (utxos _ a)) as S2.
  destruct (dict_pop (key u) (utxos _ a)) as [o d] eqn:P.
  cbn [fst snd set_utxos utxos] in *.
  pose proof (sum_filter_set (fun _ => true) (key u) u (utxos _ a)) as S3.
  pose proof (sum_filter_set (fun x => isSpendable x tipHeight) (key u) u
                (utxos _ a)) as S4.
  cbv zeta in S1, S2, S3, S4. rewrite !filter_all in S1, S3.
  unfold worth, worth_at.
  split; [apply dict_get_set_same|].
  split; [rewrite S3; destruct (dict_get (key u) (utxos _ a)); lia|].
  split; [rewrite S4; reflexivity|].
  split; [exact P1|].
  split; [rewrite S1; destruct (dict_get (key u) (utxos _ a)); lia|].
  rewrite S2. reflexivity.
Qed.

(** *** The keys of the UTXO set *)

Definition keyed_dict (d : list (string * UTXO)) : Prop :=
  NoDup (map fst d) /\ Forall (fun p => fst p = key (snd p)) d.

Lemma dict_set_fresh {V} (k : string) (v : V) (d : list (string * V)) :
  dict_get k d = None -> dict_set k v d = d ++ [(k, v)].
Proof.
  induction d as [|[k' v'] r IH]; cbn [dict_set dict_get app];
    [reflexivity|].
  destruct (String.eqb k' k); [discriminate|].
  intros H. rewrite (IH H). reflexivity.
Qed.

Lemma dict_set_keyed (u : UTXO) (d : list (string * UTXO)) :
  keyed_dict d -> keyed_dict (dict_set (key u) u d).
Proof.
  intros [ND F]. split.
  - rewrite dict_keys_set. unfold dict_has.
    destruct (dict_get (key u) d) eqn:G; [exact ND|].
    apply dict_get_none in G.
    apply NoDup_app; [exact ND|repeat constructor; intros []| ].
    intros x Hx [E|[]]. subst x. contradiction.
  - clear ND. induction F as [|[k' v'] r Hp F IH]; cbn [dict_set].
    + repeat constructor.
    + destruct (String.eqb_spec k' (key u)) as [E|N].
      * constructor; [exact E|exact F].
      * constructor; [exact Hp|exact IH].
Qed.

Lemma dict_pop_keyed (k : string) (d : list (string * UTXO)) :
  keyed_dict d -> keyed_dict (snd (dict_pop k d)).
Proof.
  intros [ND F]. destruct (dict_pop_spec k d) as (_ & _ & Sub & P).
  split; [apply P, ND|].
  rewrite Forall_forall in *. intros x Hx. apply F, Sub, Hx.
Qed.

Lemma resolve_keyed (l : list UTXO) :
  forall d, keyed_dict d ->
            keyed_dict (fold_left (fun d u => dict_set (key u) u d) l d).
Proof.
  induction l as [|u r IH]; intros d K; cbn [fold_left]; [exact K|].
  apply IH, dict_set_keyed, K.
Qed.

Lemma resolve_distinct (l : list UTXO) :
  forall d,
    NoDup (map fst d ++ map key l) ->
    fold_left (fun d u => dict_set (key u) u d) l d =
    d ++ map (fun u => (key u, u)) l.
Proof.
  induction l as [|u r IH]; intros d ND; cbn [fold_left map].
  - rewrite app_nil_r. reflexivity.
  - cbn [map] in ND.
    assert (G : dict_get (key u) d = None).
    { apply dict_get_none. intros Hin.
      apply NoDup_remove_2 in ND. apply ND.
      apply in_or_app. left. exact Hin. }
    rewrite (dict_set_fresh _ _ _ G), IH.
    + rewrite <- app_assoc. reflexivity.
    + rewrite map_app, <- app_assoc. exact ND.
Qed.

(** X29. The keys of the UTXO set stay distinct and every UTXO stays
    under its own key: [resolveUTXOs] leaves the set so, and [addUTXO]
    and [spendUTXO] keep it so.  In such a set a spent UTXO is gone:
    [getUTXO] no longer finds it, and spending it again returns [None]
    and changes nothing.  [resolveUTXOs] of UTXOs with distinct keys
    makes [utxoscan] list exactly them, in their order. *)
Theorem ledger_keys_stay_distinct (u : UTXO) (l : list UTXO)
    (a : Account.Account ExtendedKey) :
  keyed (resolveUTXOs l a) /\
  (keyed a ->
   keyed (addUTXO u a) /\
   keyed (snd (spendUTXO u a)) /\
   getUTXO (txid u) (vout u) (snd (spendUTXO u a)) = None /\
   spendUTXO u (snd (spendUTXO u a)) = (None, snd (spendUTXO u a))) /\
  (NoDup (map key l) -> utxoscan (resolveUTXOs l a) = l).
Proof.
  split; [|split].
  - apply (resolve_keyed l []). split; constructor.
  - intros K. split; [apply (dict_set_keyed u _ K)|].
    pose proof (dict_pop_keyed (key u) _ K) as K'.
    destruct (dict_pop_spec (key u) (utxos _ a)) as (_ & _ & _ & P).
    destruct (P (proj1 K)) as [_ Gone].
    rewrite getUTXO_get. unfold spendUTXO. fold (key u).
    destruct (dict_pop (key u) (utxos _ a)) as [o d] eqn:Pop.
    cbn [fst snd set_utxos utxos] in *.
    split; [exact K'|]. split; [exact Gone|].
    destruct (dict_pop_spec (key u) d) as (P1 & P2 & _).
    destruct (dict_pop (key u) d) as [o' d'] eqn:Pop'.
    cbn [fst snd] in *. rewrite Gone in P1. subst o'.
    rewrite (P2 Gone). reflexivity.
  - intros ND. unfold utxoscan, resolveUTXOs. cbn [set_utxos utxos].
    rewrite (resolve_distinct l []) by exact ND.
    cbn [app]. rewrite map_map. cbn [snd]. apply map_id.
Qed.

(** *** The transaction index *)

Lemma dict_set_set {V} (k : string) (v w : V) (d : list (string * V)) :
  dict_set k v (dict_set k w d) = dict_set k v d.
Proof.
  induction d as [|[k' v'] r IH]; cbn [dict_set].
  - rewrite String.eqb_refl. reflexivity.
  - destruct (String.eqb k' k) eqn:E; cbn [dict_set]; rewrite E;
      [reflexivity|]. rewrite IH. reflexivity.
Qed.

Lemma dict_get_some_in {V} (k : string) (v : V) (d : list (string * V)) :
  dict_get k d = Some v -> In k (map fst d).
Proof.
  induction d as [|[k' v'] r IH]; cbn [dict_get map fst In]; [discriminate|].
  destruct (String.eqb_spec k' k); [auto|]. intros H. right. exact (IH H).
Qed.

Lemma addrTxs_get (addr : string) (a : Account.Account ExtendedKey) :
  addrTxs addr a =
  match dict_get addr (txs _ a) with Some l => l | None => [] end.
Proof.
  unfold addrTxs, dict_has. destruct (dict_get addr (txs _ a)); reflexivity.
Qed.

(** The list [addTxid] leaves under [addr]. *)
Definition with_txid (txid : string) (txids : list string) : list string :=
  if existsb (String.eqb txid) txids then txids else txids ++ [txid].

Lemma addTxid_sets (addr txid : string) (a : Account.Account ExtendedKey) :
  addTxid addr txid a =
  set_txs a (dict_set addr (with_txid txid (addrTxs addr a)) (txs _ a)).
Proof.
  unfold addTxid, with_txid. rewrite addrTxs_get. unfold dict_has. cbv zeta.
  destruct (dict_get addr (txs _ a)) as [l|] eqn:G; cbn [negb].
  - rewrite G. destruct (existsb (String.eqb txid) l); cbn [negb].
    + rewrite (dict_set_same _ _ _ G). reflexivity.
    + reflexivity.
  - rewrite dict_get_set_same. cbn [existsb negb app].
    rewrite dict_set_set. reflexivity.
Qed.

Lemma existsb_eqb (x : string) (l : list string) :
  existsb (String.eqb x) l = true <-> In x l.
Proof.
  rewrite existsb_exists. split.
  - intros (y & Hy & E). apply String.eqb_eq in E. subst. exact Hy.
  - intros H. exists x. split; [exact H|apply String.eqb_refl].
Qed.

(** X30. [addTxid] records a transaction id under an address once: after
    the call the id is in the list of the address, a list that is the old
    one when it held the id already and the old one with the id appended
    otherwise, so a list without repetitions stays so; the call is
    idempotent; the address is a key of the index; and the lists of the
    other addresses are as they were. *)
Theorem addTxid_records_once (addr txid : string)
    (a : Account.Account ExtendedKey) :
  let a' := addTxid addr txid a in
  In txid (addrTxs addr a') /\
  addrTxs addr a' = with_txid txid (addrTxs addr a) /\
  (In txid (addrTxs addr a) -> addrTxs addr a' = addrTxs addr a) /\
  (NoDup (addrTxs addr a) -> NoDup (addrTxs addr a')) /\
  addTxid addr txid a' = a' /\
  In addr (map fst (txs _ a')) /\
  (forall other, other <> addr -> addrTxs other a' = addrTxs other a).
Proof.
  cbv zeta. rewrite (addTxid_sets addr txid a).
  set (l0 := addrTxs addr a).
  set (a' := set_txs a _).
  assert (G : dict_get addr (txs _ a') = Some (with_txid txid l0)).
  { unfold a'. cbn [set_txs txs]. apply dict_get_set_same. }
  assert (E : addrTxs addr a' = with_txid txid l0).
  { rewrite addrTxs_get, G. reflexivity. }
  assert (In' : In txid (with_txid txid l0)).
  { unfold with_txid. destruct (existsb (String.eqb txid) l0) eqn:X.
    - apply existsb_eqb, X.
    - apply in_or_app. right. left. reflexivity. }
  split; [rewrite E; exact In'|]. split; [exact E|].
  split.
  { intros H. rewrite E. unfold with_txid.
    apply existsb_eqb in H. rewrite H. reflexivity. }
  split.
  { intros ND. rewrite E. unfold with_txid.
    destruct (existsb (String.eqb txid) l0) eqn:X; [exact ND|].
    apply NoDup_app; [exact ND|repeat constructor; intros []|].
    intros x Hx [Ex|[]]. subst x.
    apply existsb_eqb in Hx. congruence. }
  split.
  { rewrite (addTxid_sets addr txid a'), E.
    unfold with_txid at 1. apply existsb_eqb in In'. rewrite In'.
    unfold a'. cbn [set_txs txs]. rewrite dict_set_set.
    reflexivity. }
  split; [eapply dict_get_some_in; exact G|].
  intros other Hne. rewrite !addrTxs_get. unfold a'. cbn [set_txs txs].
  rewrite dict_get_set_other by exact Hne. reflexivity.
Qed.

End WithKeys.

Arguments addUTXO {ExtendedKey} makeKey u a.
Arguments getUTXO {ExtendedKey} makeKey txid vout a.
Arguments spendUTXO {ExtendedKey} makeKey u a.
Arguments resolveUTXOs {ExtendedKey} makeKey blockchainUTXOs a.
Arguments addTxid {ExtendedKey} addr txid a.
Arguments addrTxs {ExtendedKey} addr a.
Arguments keyed {ExtendedKey} makeKey a.

(** A key function in the format the comment of [__init__] gives,
    [{txid}#{vout}], for output indices below ten, and UTXOs for running
    the definitions. *)
Definition sample_key (txid : string) (vout : Z) : string :=
  (txid ++ "#" ++
   String (Ascii.ascii_of_nat (48 + Z.to_nat vout)) EmptyString)%string.

Definition coin (txid : string) (vout value : Z) : UTXO :=
  {| address := "Dsaddr"; txid := txid; vout := vout; satoshis := value;
     height := Some 1; maturity := None |}.

Lemma ledger_keys_stay_distinct_witness :
  let a := resolveUTXOs sample_key [coin "aa" 0 5; coin "aa" 1 7]
             (new_account (ExtendedKey := unit) "default") in
  utxoscan a = [coin "aa" 0 5; coin "aa" 1 7] /\
  getUTXO sample_key "aa" 1 (snd (spendUTXO sample_key (coin "aa" 1 0) a)) =
    None /\
  utxoscan (snd (spendUTXO sample_key (coin "aa" 1 0) a)) = [coin "aa" 0 5].
Proof.
  cbv zeta.
  destruct (ledger_keys_stay_distinct unit sample_key (coin "aa" 1 0)
              [coin "aa" 0 5; coin "aa" 1 7]
              (new_account (ExtendedKey := unit) "default"))
    as (K & _ & R).
  destruct (ledger_keys_stay_distinct unit sample_key (coin "aa" 1 0) []
              (resolveUTXOs sample_key [coin "aa" 0 5; coin "aa" 1 7]
                 (new_account (ExtendedKey := unit) "default")))
    as (_ & S & _).
  split.
  - apply R. vm_compute. repeat constructor; cbn; intuition discriminate.
  - destruct (S K) as (_ & _ & G & _). split; [exact G|reflexivity].
Defined.

Lemma addTxid_records_once_witness :
  let a := addTxid "DsA" "t1" (new_account (ExtendedKey := unit) "default") in
  addrTxs "DsA" (addTxid "DsA" "t1" a) = ["t1"%string] /\
  addrTxs "DsA" (addTxid "DsA" "t2" a) = ["t1"%string; "t2"%string].
Proof.
  cbv zeta. split.
  - rewrite (proj1 (proj2 (proj2 (proj2 (proj2
               (addTxid_records_once unit "DsA" "t1"
                  (new_account (ExtendedKey := unit) "default"))))))).
    reflexivity.
  - apply (proj1 (proj2 (addTxid_records_once unit "DsA" "t2"
               (addTxid "DsA" "t1"
                  (new_account (ExtendedKey := unit) "default"))))).
Defined.

End Ledger.
